(** * Topic analysis pipeline: JSON locator, tiered parser, retrying call, batch driver

    A shallow embedding of [topic_analysis/llm_client.py],
    [topic_analysis/main.py] and [topic_analysis/file_processor.py],
    the properties of the specification proved or refuted on it, and
    further properties of the code.

    Python [str] values are sequences of Unicode code points and are
    modelled as [list N]; Python [int] values are modelled as [Z]. *)

From Stdlib Require Import Strings.Ascii Strings.String.
From Stdlib Require Import List NArith ZArith Bool Lia Arith.
From Stdlib Require Import Sorting.Sorted Sorting.Permutation.
Import ListNotations.

Set Implicit Arguments.
Set Warnings "-register-all".

(* ===================================================================== *)
(** * Part I: the program                                                *)
(* ===================================================================== *)

(** ** Python strings *)

Module Str.

Definition str := list N.

(** Code points of the characters the program names. *)
Definition TAB : N := 9.
Definition LF : N := 10.
Definition CR : N := 13.
Definition SPACE : N := 32.
Definition QUOTE : N := 34.       (* the double quote *)
Definition APOS : N := 39.        (* the single quote *)
Definition COMMA : N := 44.
Definition COLON : N := 58.
Definition LBRACKET : N := 91.
Definition BACKSLASH : N := 92.
Definition RBRACKET : N := 93.
Definition BACKTICK : N := 96.
Definition LBRACE : N := 123.
Definition RBRACE : N := 125.

(** An ASCII literal as a Python string. *)
Definition lit (s : string) : str :=
  map N_of_ascii (list_ascii_of_string s).

(** Same, with every single quote of the literal standing for a double
    quote: the way texts that contain double quotes are written below. *)
Definition qlit (s : string) : str :=
  map (fun c => if N.eqb c APOS then QUOTE else c) (lit s).

Definition str_eqb (a b : str) : bool :=
  if list_eq_dec N.eq_dec a b then true else false.

(** [str.isspace] for one character; the same set is the [\s] class of
    [re] on [str] patterns. *)
Definition isspace (c : N) : bool :=
  (((9 <=? c) && (c <=? 13)) || ((28 <=? c) && (c <=? 32))
   || (c =? 133) || (c =? 160) || (c =? 5760)
   || ((8192 <=? c) && (c <=? 8202))
   || (c =? 8232) || (c =? 8233) || (c =? 8239) || (c =? 8287)
   || (c =? 12288))%N.

Fixpoint lstrip (s : str) : str :=
  match s with
  | c :: s' => if isspace c then lstrip s' else s
  | [] => []
  end.

Definition rstrip (s : str) : str := rev (lstrip (rev s)).

(** [s.strip()] *)
Definition strip (s : str) : str := rstrip (lstrip s).

(** [s.find(c)] for a one-character needle: [None] stands for -1. *)
Fixpoint find (c : N) (s : str) : option nat :=
  match s with
  | [] => None
  | x :: s' => if N.eqb x c then Some 0
               else match find c s' with
                    | Some i => Some (S i)
                    | None => None
                    end
  end.

(** [s[a:b]] for in-range, non-negative bounds. *)
Definition slice (s : str) (a b : nat) : str := firstn (b - a) (skipn a s).

Fixpoint starts_with (p s : str) : bool :=
  match p, s with
  | [], _ => true
  | _ :: _, [] => false
  | a :: p', b :: s' => N.eqb a b && starts_with p' s'
  end.

(** [needle in s] for strings. *)
Fixpoint contains (needle s : str) : bool :=
  starts_with needle s ||
  match s with
  | [] => false
  | _ :: s' => contains needle s'
  end.

(** [s.replace(old, new)] for a non-empty [old]: left to right,
    non-overlapping. *)
Fixpoint replace_fuel (fuel : nat) (old new s : str) : str :=
  match fuel with
  | O => s
  | S fuel' =>
      match s with
      | [] => []
      | c :: s' =>
          if starts_with old s
          then new ++ replace_fuel fuel' old new (skipn (length old) s)
          else c :: replace_fuel fuel' old new s'
      end
  end.

Definition replace (old new s : str) : str :=
  replace_fuel (length s) old new s.

End Str.
Import Str.

(** ** The fragment of [re] the program uses *)

Module Re.

(** Patterns. [Dot] is [.] under [re.DOTALL]; [Bol] and [Eol] are [^] and
    [$] under [re.MULTILINE]; [Star] is the greedy [*], [LazyStar] is [*?];
    [Group] is a capturing group. *)
Inductive regex : Type :=
| Eps
| Chr (c : N)
| Dot
| Space
| NoneOf (cs : list N)
| Bol
| Eol
| Cat (r1 r2 : regex)
| Alt (r1 r2 : regex)
| Star (r : regex)
| LazyStar (r : regex)
| Group (i : nat) (r : regex).

Definition Opt (r : regex) : regex := Alt r Eps.
Definition Plus (r : regex) : regex := Cat r (Star r).

Fixpoint Lits (s : str) : regex :=
  match s with
  | [] => Eps
  | [c] => Chr c
  | c :: s' => Cat (Chr c) (Lits s')
  end.

Fixpoint Seq (rs : list regex) : regex :=
  match rs with
  | [] => Eps
  | [r] => r
  | r :: rs' => Cat r (Seq rs')
  end.

Definition caps := list (nat * str).

Fixpoint group (i : nat) (c : caps) : option str :=
  match c with
  | [] => None
  | (j, s) :: c' => if Nat.eqb i j then Some s else group i c'
  end.

Definition mem (c : N) (cs : list N) : bool := existsb (N.eqb c) cs.

(** What remains to be matched, as a function of the position reached:
    the character before it, the text from it on, the groups so far. *)
Definition cont (A : Type) := option N -> str -> caps -> option A.

(** The loop of a greedy star over a body: one more iteration is tried
    before stopping is. [n] bounds the iterations; each one has to
    consume a character. *)
Fixpoint greedy (A : Type) (body : option N -> str -> caps -> cont A -> option A)
                (k : cont A) (n : nat) (prev : option N) (s : str) (c : caps)
  : option A :=
  match n with
  | O => k prev s c
  | S n' =>
      match body prev s c
              (fun prev' s' c' =>
                 if Nat.ltb (length s') (length s)
                 then greedy body k n' prev' s' c' else None) with
      | Some a => Some a
      | None => k prev s c
      end
  end.

(** The loop of a lazy star: stopping is tried first. *)
Fixpoint lazy (A : Type) (body : option N -> str -> caps -> cont A -> option A)
              (k : cont A) (n : nat) (prev : option N) (s : str) (c : caps)
  : option A :=
  match k prev s c with
  | Some a => Some a
  | None =>
      match n with
      | O => None
      | S n' =>
          body prev s c
            (fun prev' s' c' =>
               if Nat.ltb (length s') (length s)
               then lazy body k n' prev' s' c' else None)
      end
  end.

(** Backtracking matcher in continuation-passing style: [prev] is the
    character before the current position ([None] at the start of the
    text), [s] the text from the current position on, [k] what remains to
    be matched. Alternatives are tried in order. *)
Fixpoint run (A : Type) (r : regex) {struct r}
  : option N -> str -> caps -> cont A -> option A :=
  match r with
  | Eps => fun prev s c k => k prev s c
  | Chr x => fun prev s c k =>
      match s with
      | y :: s' => if N.eqb y x then k (Some y) s' c else None
      | [] => None
      end
  | Dot => fun prev s c k =>
      match s with
      | y :: s' => k (Some y) s' c
      | [] => None
      end
  | Space => fun prev s c k =>
      match s with
      | y :: s' => if isspace y then k (Some y) s' c else None
      | [] => None
      end
  | NoneOf cs => fun prev s c k =>
      match s with
      | y :: s' => if mem y cs then None else k (Some y) s' c
      | [] => None
      end
  | Bol => fun prev s c k =>
      match prev with
      | None => k prev s c
      | Some p => if N.eqb p LF then k prev s c else None
      end
  | Eol => fun prev s c k =>
      match s with
      | [] => k prev s c
      | y :: _ => if N.eqb y LF then k prev s c else None
      end
  | Cat r1 r2 => fun prev s c k =>
      run r1 prev s c (fun prev' s' c' => run r2 prev' s' c' k)
  | Alt r1 r2 => fun prev s c k =>
      match run r1 prev s c k with
      | Some a => Some a
      | None => run r2 prev s c k
      end
  | Star r' => fun prev s c k => greedy (run (A:=A) r') k (length s) prev s c
  | LazyStar r' => fun prev s c k => lazy (run (A:=A) r') k (length s) prev s c
  | Group i r' => fun prev s c k =>
      run r' prev s c
        (fun prev' s' c' =>
           k prev' s' ((i, firstn (length s - length s') s) :: c'))
  end.

(** A match of the pattern at the current position: the text after the
    match, the character before that text, and the groups. *)
Record hit : Type := Hit { after : str; before_after : option N; groups : caps }.

Definition match_here (r : regex) (prev : option N) (s : str) : option hit :=
  run r prev s [] (fun prev' s' c' => Some (Hit s' prev' c')).

(** [re.search]: the leftmost position with a match. *)
Fixpoint search_from (r : regex) (prev : option N) (s : str) : option hit :=
  match match_here r prev s with
  | Some h => Some h
  | None =>
      match s with
      | [] => None
      | c :: s' => search_from r (Some c) s'
      end
  end.

Definition search (r : regex) (s : str) : option hit := search_from r None s.

(** [re.sub(r, repl, s)] for a literal replacement: the matches are found
    left to right without overlap. The patterns of this program match no
    empty string; an empty match is replaced and the next character
    copied. *)
Fixpoint sub_from (fuel : nat) (r : regex) (repl : str)
                  (prev : option N) (s : str) : str :=
  match fuel with
  | O => s
  | S fuel' =>
      match match_here r prev s with
      | Some h =>
          if Nat.ltb (length (after h)) (length s)
          then repl ++ sub_from fuel' r repl (before_after h) (after h)
          else match s with
               | [] => repl
               | c :: s' => repl ++ c :: sub_from fuel' r repl (Some c) s'
               end
      | None =>
          match s with
          | [] => []
          | c :: s' => c :: sub_from fuel' r repl (Some c) s'
          end
      end
  end.

Definition sub (r : regex) (repl s : str) : str :=
  sub_from (S (length s)) r repl None s.

(** [re.findall(r, s)] for a pattern with one group: the list of the
    group's texts, match after match. *)
Fixpoint findall_from (fuel : nat) (r : regex) (prev : option N) (s : str)
  : list str :=
  match fuel with
  | O => []
  | S fuel' =>
      match match_here r prev s with
      | Some h =>
          let g := match group 1 (groups h) with Some g => g | None => [] end in
          if Nat.ltb (length (after h)) (length s)
          then g :: findall_from fuel' r (before_after h) (after h)
          else match s with
               | [] => [g]
               | c :: s' => g :: findall_from fuel' r (Some c) s'
               end
      | None =>
          match s with
          | [] => []
          | c :: s' => findall_from fuel' r (Some c) s'
          end
      end
  end.

Definition findall (r : regex) (s : str) : list str :=
  findall_from (S (length s)) r None s.

End Re.
Import Re.

(** ** [json.loads]

    The decoder of Python's standard library as the program calls it
    (strict mode, no hooks): RFC 8259 plus the constants [NaN],
    [Infinity] and [-Infinity]; only space, tab, line feed and carriage
    return count as white space. [None] stands for [JSONDecodeError]. *)

Module Json.

(** A Python float read from a decimal literal is kept as that decimal:
    sign, digits and power of ten. *)
Inductive pyfloat : Type :=
| FNaN
| FInf (neg : bool)
| FDec (neg : bool) (digits : N) (exp10 : Z).

(** The Python values the decoder builds; [JNull] is [None]. A [dict] is
    the list of its items in insertion order, each key once. *)
Inductive json : Type :=
| JNull
| JBool (b : bool)
| JInt (z : Z)
| JFloat (f : pyfloat)
| JStr (s : str)
| JArr (l : list json)
| JObj (d : list (str * json)).

Definition dict := list (str * json).

(** [k in d] *)
Fixpoint dict_mem (k : str) (d : dict) : bool :=
  match d with
  | [] => false
  | (k', _) :: d' => str_eqb k k' || dict_mem k d'
  end.

(** [d.get(k)] *)
Fixpoint dict_get (k : str) (d : dict) : option json :=
  match d with
  | [] => None
  | (k', v) :: d' => if str_eqb k k' then Some v else dict_get k d'
  end.

(** [d[k] = v]: an existing key keeps its place and takes the new value,
    a new key goes last. *)
Fixpoint dict_set (k : str) (v : json) (d : dict) : dict :=
  match d with
  | [] => [(k, v)]
  | (k', v') :: d' =>
      if str_eqb k k' then (k', v) :: d' else (k', v') :: dict_set k v d'
  end.

Definition is_ws (c : N) : bool :=
  N.eqb c SPACE || N.eqb c TAB || N.eqb c LF || N.eqb c CR.

Fixpoint skip_ws (s : str) : str :=
  match s with
  | c :: s' => if is_ws c then skip_ws s' else s
  | [] => []
  end.

Definition is_digit (c : N) : bool := ((48 <=? c) && (c <=? 57))%N.

Definition hex_digit (c : N) : option N :=
  if ((48 <=? c) && (c <=? 57))%N then Some (c - 48)%N
  else if ((97 <=? c) && (c <=? 102))%N then Some (c - 87)%N
  else if ((65 <=? c) && (c <=? 70))%N then Some (c - 55)%N
  else None.

Definition hex4 (a b c d : N) : option N :=
  match hex_digit a, hex_digit b, hex_digit c, hex_digit d with
  | Some x, Some y, Some z, Some w => Some (((x * 16 + y) * 16 + z) * 16 + w)%N
  | _, _, _, _ => None
  end.

(** The character a one-letter escape stands for. *)
Definition unescape (c : N) : option N :=
  if N.eqb c QUOTE then Some QUOTE
  else if N.eqb c BACKSLASH then Some BACKSLASH
  else if N.eqb c 47 then Some 47%N          (* / *)
  else if N.eqb c 98 then Some 8%N           (* b *)
  else if N.eqb c 102 then Some 12%N         (* f *)
  else if N.eqb c 110 then Some LF           (* n *)
  else if N.eqb c 114 then Some CR           (* r *)
  else if N.eqb c 116 then Some TAB          (* t *)
  else None.

Definition is_high_surrogate (u : N) : bool := ((55296 <=? u) && (u <=? 56319))%N.
Definition is_low_surrogate (u : N) : bool := ((56320 <=? u) && (u <=? 57343))%N.
Definition join_surrogates (hi lo : N) : N :=
  (65536 + (hi - 55296) * 1024 + (lo - 56320))%N.

(** The low surrogate escape that follows a high one, if any, with the
    text after it. *)
Definition low_escape (s : str) : option (N * str) :=
  match s with
  | b :: u :: g1 :: g2 :: g3 :: g4 :: s' =>
      if N.eqb b BACKSLASH && N.eqb u 117 then
        match hex4 g1 g2 g3 g4 with
        | Some lo => if is_low_surrogate lo then Some (lo, s') else None
        | None => None
        end
      else None
  | _ => None
  end.

Definition cons_fst (c : N) (r : option (str * str)) : option (str * str) :=
  match r with
  | Some (t, rest) => Some (c :: t, rest)
  | None => None
  end.

(** [scanstring]: the text after an opening quote, up to and including the
    closing quote; returns the decoded string and the text that follows.
    Fails on a control character, a bad escape or a missing closing
    quote. *)
Fixpoint scanstring (s : str) : option (str * str) :=
  match s with
  | [] => None
  | c :: r =>
      if N.eqb c QUOTE then Some ([], r)
      else if N.eqb c BACKSLASH then
        match r with
        | [] => None
        | e :: r1 =>
            if N.eqb e 117 then                      (* \uXXXX *)
              match r1 with
              | h1 :: h2 :: h3 :: h4 :: r2 =>
                  match hex4 h1 h2 h3 h4 with
                  | Some u =>
                      match r2 with
                      | b :: u' :: g1 :: g2 :: g3 :: g4 :: r3 =>
                          if is_high_surrogate u then
                            match low_escape r2 with
                            | Some (lo, _) =>
                                cons_fst (join_surrogates u lo) (scanstring r3)
                            | None => cons_fst u (scanstring r2)
                            end
                          else cons_fst u (scanstring r2)
                      | _ => cons_fst u (scanstring r2)
                      end
                  | None => None
                  end
              | _ => None
              end
            else
              match unescape e with
              | Some x => cons_fst x (scanstring r1)
              | None => None
              end
        end
      else if (c <=? 31)%N then None
      else cons_fst c (scanstring r)
  end.

(** The longest run of decimal digits at the head of the text. *)
Fixpoint digits (s : str) : str * str :=
  match s with
  | c :: s' =>
      if is_digit c then let (d, r) := digits s' in (c :: d, r) else ([], s)
  | [] => ([], [])
  end.

Definition digits_value (d : str) : N :=
  fold_left (fun acc c => (acc * 10 + (c - 48))%N) d 0%N.

(** The integer part of a number: [0] or a non-zero digit and more
    digits. *)
Definition int_part (s : str) : option (str * str) :=
  match s with
  | c :: s' =>
      if N.eqb c 48 then Some ([c], s')
      else if is_digit c then Some (digits s) else None
  | [] => None
  end.

(** The fraction, taken only when a digit follows the point. *)
Definition frac_part (s : str) : str * str :=
  match s with
  | p :: c :: _ =>
      if N.eqb p 46 && is_digit c then digits (tl s) else ([], s)
  | _ => ([], s)
  end.

(** The exponent, taken only when a digit follows the [e] and the optional
    sign: the sign, the digits and the remaining text. *)
Definition exp_part (s : str) : option (bool * str * str) :=
  match s with
  | e :: s1 =>
      if N.eqb e 101 || N.eqb e 69 then
        match s1 with
        | c :: s2 =>
            if N.eqb c 45 || N.eqb c 43 then
              match s2 with
              | d :: _ => if is_digit d
                          then let (ds, r) := digits s2 in Some (N.eqb c 45, ds, r)
                          else None
              | [] => None
              end
            else if is_digit c
                 then let (ds, r) := digits s1 in Some (false, ds, r)
                 else None
        | [] => None
        end
      else None
  | [] => None
  end.

(** A number at the head of the text: an [int] when it has neither
    fraction nor exponent, a [float] otherwise. *)
Definition match_number (s : str) : option (json * str) :=
  let (neg, s0) := match s with
                   | c :: s' => if N.eqb c 45 then (true, s') else (false, s)
                   | [] => (false, s)
                   end in
  match int_part s0 with
  | None => None
  | Some (ip, s1) =>
      let (fp, s2) := frac_part s1 in
      match fp, exp_part s2 with
      | [], None =>
          let v := Z.of_N (digits_value ip) in
          Some (JInt (if neg then - v else v)%Z, s2)
      | _, None =>
          Some (JFloat (FDec neg (digits_value (ip ++ fp))
                             (- Z.of_nat (length fp))), s2)
      | _, Some (eneg, ed, s3) =>
          let ev := Z.of_N (digits_value ed) in
          Some (JFloat (FDec neg (digits_value (ip ++ fp))
                             ((if eneg then - ev else ev) - Z.of_nat (length fp))), s3)
      end
  end.

(** [scan_once] with the object and array loops. [n] bounds the depth of
    the calls; [loads] gives enough of it. *)
Fixpoint scan_once (n : nat) (s : str) {struct n} : option (json * str) :=
  match n with
  | O => None
  | S n' =>
      match s with
      | [] => None
      | c :: r =>
          if N.eqb c QUOTE then
            match scanstring r with
            | Some (t, r') => Some (JStr t, r')
            | None => None
            end
          else if N.eqb c LBRACE then
            match skip_ws r with
            | c2 :: r2 =>
                if N.eqb c2 RBRACE then Some (JObj [], r2)
                else parse_members n' [] (skip_ws r)
            | [] => None
            end
          else if N.eqb c LBRACKET then
            match skip_ws r with
            | c2 :: r2 =>
                if N.eqb c2 RBRACKET then Some (JArr [], r2)
                else parse_elements n' [] (skip_ws r)
            | [] => None
            end
          else if starts_with (lit "null") s then Some (JNull, skipn 4 s)
          else if starts_with (lit "true") s then Some (JBool true, skipn 4 s)
          else if starts_with (lit "false") s then Some (JBool false, skipn 5 s)
          else if starts_with (lit "NaN") s then Some (JFloat FNaN, skipn 3 s)
          else if starts_with (lit "Infinity") s
               then Some (JFloat (FInf false), skipn 8 s)
          else if starts_with (lit "-Infinity") s
               then Some (JFloat (FInf true), skipn 9 s)
          else match_number s
      end
  end

with parse_members (n : nat) (acc : dict) (s : str) {struct n}
  : option (json * str) :=
  match n with
  | O => None
  | S n' =>
      match s with
      | [] => None
      | c :: r =>
          if N.eqb c QUOTE then
            match scanstring r with
            | None => None
            | Some (key, r1) =>
                match skip_ws r1 with
                | [] => None
                | c1 :: r2 =>
                    if N.eqb c1 COLON then
                      match scan_once n' (skip_ws r2) with
                      | None => None
                      | Some (v, r3) =>
                          let acc' := dict_set key v acc in
                          match skip_ws r3 with
                          | [] => None
                          | c3 :: r4 =>
                              if N.eqb c3 RBRACE then Some (JObj acc', r4)
                              else if N.eqb c3 COMMA
                                   then parse_members n' acc' (skip_ws r4)
                                   else None
                          end
                      end
                    else None
                end
            end
          else None
      end
  end

with parse_elements (n : nat) (acc : list json) (s : str) {struct n}
  : option (json * str) :=
  match n with
  | O => None
  | S n' =>
      match scan_once n' s with
      | None => None
      | Some (v, r1) =>
          let acc' := acc ++ [v] in
          match skip_ws r1 with
          | [] => None
          | c :: r2 =>
              if N.eqb c RBRACKET then Some (JArr acc', r2)
              else if N.eqb c COMMA then parse_elements n' acc' (skip_ws r2)
              else None
          end
      end
  end.

(** [json.loads(s)]: one value, white space allowed around it, nothing
    else. Twice the length of the text is more than the readers ever
    use (lemma [loads_fuel] below). *)
Definition loads (s : str) : option json :=
  match scan_once (S (2 * length s)) (skip_ws s) with
  | Some (v, r) => match skip_ws r with
                   | [] => Some v
                   | _ :: _ => None
                   end
  | None => None
  end.

(** Whether the decimal rounds to the float zero: it is zero, or at most
    half the least positive double, 2^-1075. *)
Definition rounds_to_zero (m : N) (e : Z) : bool :=
  N.eqb m 0 ||
  ((e <? 0)%Z && (Z.of_N m * 2 ^ 1075 <=? 10 ^ (- e))%Z).

(** [bool(v)] *)
Definition truthy (v : json) : bool :=
  match v with
  | JNull => false
  | JBool b => b
  | JInt z => negb (Z.eqb z 0)
  | JFloat FNaN => true
  | JFloat (FInf _) => true
  | JFloat (FDec _ m e) => negb (rounds_to_zero m e)
  | JStr s => match s with [] => false | _ => true end
  | JArr l => match l with [] => false | _ => true end
  | JObj d => match d with [] => false | _ => true end
  end.

(** [field in v]; [None] stands for the [TypeError] of a value that is no
    container. *)
Definition py_in (field : str) (v : json) : option bool :=
  match v with
  | JObj d => Some (dict_mem field d)
  | JArr l => Some (existsb (fun x => match x with
                                      | JStr t => str_eqb field t
                                      | _ => false
                                      end) l)
  | JStr t => Some (contains field t)
  | _ => None
  end.

End Json.
Import Json.

(** ** The world outside: remote service, files, observable events *)

Module Env.

(** What one [requests.post] and the reading of its envelope come to. *)
Inductive response : Type :=
| RequestException            (* raised by the request or by its decoding *)
| OtherException              (* any other exception on the way to [content] *)
| NoChoices                   (* no non-empty ['choices'] in the envelope *)
| Content (content : str).

(** An element of [results]. *)
Record entry : Type := Entry { file_name : str; analysis : json }.

(** What [json.load] reads back from a file [json.dump] wrote: the
    progress dictionary or the list of results. *)
Inductive file : Type :=
| ProgressData (processed_files : list str) (count : Z)
| ResultsData (results : list entry).

Definition store := str -> option file.

Definition write (name : str) (content : file) (fs : store) : store :=
  fun name' => if str_eqb name' name then Some content else fs name'.

(** The effects of a run, in the order they happen. *)
Inductive event : Type :=
| Post (prompt : str)                       (* one remote call *)
| Sleep (seconds : Z)                       (* [time.sleep] *)
| AppendResult (e : entry)                  (* [results.append] *)
| AppendProcessed (file_path : str)         (* [processed_files.append] *)
| Write (name : str) (content : file).      (* [json.dump] into a file *)

(** The remote service's state, the files, and the effects so far. *)
Record world (RS : Type) : Type :=
  World { remote : RS; files : store; trace : list event }.

Definition log (RS : Type) (e : event) (w : world RS) : world RS :=
  World (remote w) (files w) (trace w ++ [e]).

Definition sleep (RS : Type) (seconds : Z) (w : world RS) : world RS :=
  log (Sleep seconds) w.

End Env.
Import Env.

(** ** [llm_client.py]: class [LLMClient] *)

Module LLMClient.

(** The four required field names. *)
Definition F_CATEGORY : str := [35805; 39064; 24402; 31867]%N.   (* 话题归类 *)
Definition F_TAGS : str := [35805; 39064; 26631; 31614]%N.       (* 话题标签 *)
Definition F_DESCRIPTION : str := [35805; 39064; 25551; 36848]%N. (* 话题描述 *)
Definition F_MEMORY : str := [30456; 20851; 22238; 24518]%N.     (* 相关回忆 *)

Definition required_fields : list str :=
  [F_CATEGORY; F_TAGS; F_DESCRIPTION; F_MEMORY].

(** *** [_extract_json_object] *)

(** The pattern of line 23, with [re.MULTILINE]: at the start of a line,
    three backticks, optionally the word json, then white space. *)
Definition FENCE_OPEN : regex :=
  Seq [Bol; Lits (lit "```"); Opt (Lits (lit "json")); Star Space].

(** The pattern of line 25, with [re.MULTILINE]: three backticks and
    white space up to the end of a line. *)
Definition FENCE_CLOSE : regex :=
  Seq [Lits (lit "```"); Star Space; Eol].

(** The first three statements: both substitutions, then [strip]. *)
Definition strip_markdown (text : str) : str :=
  let text := sub FENCE_OPEN [] text in
  let text := sub FENCE_CLOSE [] text in
  strip text.

(** The [for i in range(start_idx, len(text))] loop: [rest] is the text
    from index [i] on; the result is the [json_str] the loop returns, or
    [None] when the loop runs to its end. *)
Fixpoint scan (text : str) (start_idx : nat) (rest : str) (i : nat)
              (brace_count : Z) (in_string escape_next : bool)
  : option str :=
  match rest with
  | [] => None
  | char :: rest' =>
      if escape_next then
        scan text start_idx rest' (S i) brace_count in_string false
      else if N.eqb char BACKSLASH then
        scan text start_idx rest' (S i) brace_count in_string true
      else if N.eqb char QUOTE then
        scan text start_idx rest' (S i) brace_count (negb in_string) false
      else if negb in_string then
        if N.eqb char LBRACE then
          scan text start_idx rest' (S i) (brace_count + 1) in_string false
        else if N.eqb char RBRACE then
          let brace_count := (brace_count - 1)%Z in
          if Z.eqb brace_count 0 then
            let json_str := slice text start_idx (i + 1) in
            match loads json_str with
            | Some _ => Some json_str
            | None =>
                scan text start_idx rest' (S i) brace_count in_string false
            end
          else scan text start_idx rest' (S i) brace_count in_string false
        else scan text start_idx rest' (S i) brace_count in_string false
      else scan text start_idx rest' (S i) brace_count in_string false
  end.

Definition _extract_json_object (text : str) : option str :=
  let text := strip_markdown text in
  match text with
  | [] => None
  | _ :: _ =>
      match find LBRACE text with
      | None => None
      | Some start_idx =>
          match scan text start_idx (skipn start_idx text) start_idx
                     0%Z false false with
          | Some json_str => Some json_str
          | None =>
              let potential_json := strip (skipn start_idx text) in
              match loads potential_json with
              | Some _ => Some potential_json
              | None => None
              end
          end
      end
  end.

(** *** [_safe_parse_json] *)

Definition ws : regex := Star Space.

(** The pattern of lines 117 and 130: the quoted field name, white
    space, a colon, white space, and between two double quotes a run of
    characters other than the double quote, which is group 1. *)
Definition scalar_field (name : str) : regex :=
  Seq [Chr QUOTE; Lits name; Chr QUOTE; ws; Chr COLON; ws;
       Chr QUOTE; Group 1 (Star (NoneOf [QUOTE])); Chr QUOTE].

(** The pattern of line 122, with [re.DOTALL]: the quoted name 话题标签,
    white space, a colon, white space, an opening bracket, as few
    characters as possible (group 1) and a closing bracket. *)
Definition TAGS_FIELD : regex :=
  Seq [Chr QUOTE; Lits F_TAGS; Chr QUOTE; ws; Chr COLON; ws;
       Chr LBRACKET; Group 1 (LazyStar Dot); Chr RBRACKET].

(** The pattern of line 126: between two double quotes a run of
    characters other than the double quote, which is group 1. *)
Definition QUOTED : regex :=
  Seq [Chr QUOTE; Group 1 (Star (NoneOf [QUOTE])); Chr QUOTE].

(** The pattern of line 135, with [re.DOTALL]: the quoted name 相关回忆,
    white space, a colon, white space, and between two double quotes a
    run (group 1) of items, each a character other than the double quote
    and the backslash, or a backslash and any one character. *)
Definition MEMORY_FIELD : regex :=
  Seq [Chr QUOTE; Lits F_MEMORY; Chr QUOTE; ws; Chr COLON; ws;
       Chr QUOTE;
       Group 1 (Star (Alt (NoneOf [QUOTE; BACKSLASH]) (Cat (Chr BACKSLASH) Dot)));
       Chr QUOTE].

(** [match.group(1)] of [re.search(r, s)] *)
Definition search_group (r : regex) (s : str) : option str :=
  match search r s with
  | Some h => match group 1 (groups h) with
              | Some g => Some g
              | None => Some []
              end
  | None => None
  end.

(** Line 139: every run of white space replaced by one space, then
    [strip]. *)
Definition clean_memory (memory : str) : str :=
  strip (sub (Plus Space) [SPACE] memory).

(** The second tier's text: the four [replace] calls as the source has
    them. The first two replace the double quote by itself; the two
    single-quote arguments of the next line open and close one
    triple-quoted literal, so that line is a single call. *)
Definition TIER2_OLD : str :=
  lit ", " ++ [QUOTE; APOS; QUOTE] ++ lit ").replace(".

Definition tier2_fixed (json_str : str) : str :=
  let fixed := replace [QUOTE] [QUOTE] (replace [QUOTE] [QUOTE] json_str) in
  replace TIER2_OLD [APOS] fixed.

(** [result], the dictionary the third tier fills field by field. *)
Definition tier3_result (json_str : str) : dict :=
  let result : dict := [] in
  let result := match search_group (scalar_field F_CATEGORY) json_str with
                | Some g => dict_set F_CATEGORY (JStr g) result
                | None => result
                end in
  let result := match search_group TAGS_FIELD json_str with
                | Some tags_str =>
                    let tags := findall QUOTED tags_str in
                    dict_set F_TAGS (JArr (map JStr tags)) result
                | None => result
                end in
  let result := match search_group (scalar_field F_DESCRIPTION) json_str with
                | Some g => dict_set F_DESCRIPTION (JStr g) result
                | None => result
                end in
  let result := match search_group MEMORY_FIELD json_str with
                | Some memory => dict_set F_MEMORY (JStr (clean_memory memory)) result
                | None => result
                end in
  result.

Definition tier3 (json_str : str) : json :=
  let result := tier3_result json_str in
  if forallb (fun field => dict_mem field result) required_fields
  then JObj result
  else JNull.

(** The ladder of [try] blocks: the strict decoding, then the second
    tier, then the third; [JNull] is Python's [None]. *)
Definition parse_with (second : str -> option json) (third : str -> json)
                      (json_str : str) : json :=
  match json_str with
  | [] => JNull
  | _ :: _ =>
      match loads json_str with
      | Some v => v
      | None =>
          match second json_str with
          | Some v => v
          | None => third json_str
          end
      end
  end.

Definition tier2 (json_str : str) : option json := loads (tier2_fixed json_str).

Definition _safe_parse_json (json_str : str) : json :=
  parse_with tier2 tier3 json_str.

(** [_safe_parse_json] on what [_extract_json_object] returned, [None]
    included. *)
Definition parse_located (located : option str) : json :=
  match located with
  | None => JNull
  | Some json_str => _safe_parse_json json_str
  end.

(** *** [call_llm] *)

Record client : Type := Client {
  max_retries : Z;
  retry_interval : Z
}.

(** How one iteration of the loop ends. *)
Inductive outcome : Type :=
| Return (parsed_json : json)
| Retry (paused : bool).

(** [all(field in parsed_json for field in required_fields)] *)
Definition has_required (parsed_json : json) : option bool :=
  match py_in F_CATEGORY parsed_json with
  | None => None
  | Some _ =>
      Some (forallb (fun field => match py_in field parsed_json with
                                  | Some b => b
                                  | None => false
                                  end) required_fields)
  end.

(** The body of the loop after the request, as a verdict on the
    response: return the record, or go to the next attempt with or
    without the pause. *)
Definition judge (r : response) : outcome :=
  match r with
  | RequestException => Retry true
  | OtherException => Retry true
  | NoChoices => Retry false
  | Content content =>
      match _extract_json_object content with
      | None => Retry true
      | Some [] => Retry true
      | Some json_str =>
          let parsed_json := _safe_parse_json json_str in
          if truthy parsed_json then
            match has_required parsed_json with
            | Some true => Return parsed_json
            | Some false => Retry true
            | None => Retry true
            end
          else Retry true
      end
  end.

Section CallLLM.

(** The remote service: a state and what a request does to it. *)
Variable RS : Type.
Variable send : RS -> str -> response * RS.

Definition post (prompt : str) (w : world RS) : response * world RS :=
  let (r, rs) := send (remote w) prompt in
  (r, World rs (files w) (trace w ++ [Post prompt])).

(** [if attempt < self.max_retries - 1: time.sleep(self.retry_interval)] *)
Definition pause (self : client) (attempt : Z) (w : world RS) : world RS :=
  if (attempt <? max_retries self - 1)%Z then sleep (retry_interval self) w else w.

(** [for attempt in range(self.max_retries)]: [todo] iterations are left,
    this one has index [attempt]. *)
Fixpoint attempts (self : client) (prompt : str) (todo : nat) (attempt : Z)
                  (w : world RS) : json * world RS :=
  match todo with
  | O => (JNull, w)
  | S todo' =>
      let (r, w) := post prompt w in
      match judge r with
      | Return parsed_json => (parsed_json, w)
      | Retry paused =>
          let w := if paused then pause self attempt w else w in
          attempts self prompt todo' (attempt + 1)%Z w
      end
  end.

Definition call_llm (self : client) (prompt : str) (w : world RS)
  : json * world RS :=
  attempts self prompt (Z.to_nat (max_retries self)) 0%Z w.

End CallLLM.

End LLMClient.
Import LLMClient.

(** ** [file_processor.py]: the persistence helpers *)

Module FileProcessor.

Section Persistence.
Variable RS : Type.

(** [save_progress] *)
Definition save_progress (progress_file : str) (processed_files : list str)
                         (w : world RS) : world RS :=
  let content := ProgressData processed_files (Z.of_nat (length processed_files)) in
  World (remote w) (write progress_file content (files w))
        (trace w ++ [Write progress_file content]).

(** [load_progress]: a missing or unreadable file gives the empty list. *)
Definition load_progress (progress_file : str) (w : world RS) : list str :=
  match files w progress_file with
  | Some (ProgressData processed_files _) => processed_files
  | _ => []
  end.

(** [save_results] *)
Definition save_results (output_file : str) (results : list entry)
                        (w : world RS) : world RS :=
  World (remote w) (write output_file (ResultsData results) (files w))
        (trace w ++ [Write output_file (ResultsData results)]).

(** [load_existing_results] *)
Definition load_existing_results (output_file : str) (w : world RS) : list entry :=
  match files w output_file with
  | Some (ResultsData results) => results
  | _ => []
  end.

End Persistence.

End FileProcessor.
Import FileProcessor.

(** ** [main.py] *)

Module Main.

Definition SLASH : N := 47.

Fixpoint until_slash (s : str) : str :=
  match s with
  | [] => []
  | c :: s' => if N.eqb c SLASH then [] else c :: until_slash s'
  end.

(** [os.path.basename] *)
Definition basename (p : str) : str := rev (until_slash (rev p)).

(** [os.path.join(a, b)] *)
Definition path_join (a b : str) : str :=
  match b with
  | c :: _ => if N.eqb c SLASH then b
              else match rev a with
                   | [] => b
                   | l :: _ => if N.eqb l SLASH then a ++ b else a ++ SLASH :: b
                   end
  | [] => match rev a with
          | [] => []
          | l :: _ => if N.eqb l SLASH then a else a ++ [SLASH]
          end
  end.

(** [l[:n]] *)
Definition py_take (A : Type) (n : Z) (l : list A) : list A :=
  if (n <? 0)%Z then firstn (length l - Z.to_nat (- n)) l
  else firstn (Z.to_nat n) l.

(** [f in l] for a list of strings *)
Definition str_in (f : str) (l : list str) : bool := existsb (str_eqb f) l.

(** The names [config.py] defines that the driver reads. *)
Record config : Type := Config {
  OUTPUT_DIR : str;
  PROGRESS_DIR : str;
  MAX_RETRIES : Z;
  RETRY_INTERVAL : Z;
  REQUEST_INTERVAL : Z;
  TEST_MODE : bool;
  TEST_FILE_COUNT : Z
}.

Section Driver.

Variable RS : Type.
Variable send : RS -> str -> response * RS.

(** What the collaborators give: the record read from a conversation
    file, if it is one, and the prompt built from it. *)
Variable conversation : Type.
Variable extract_conversation_data : str -> option conversation.
Variable make_prompt : conversation -> str.

Variable cfg : config.

Definition llm_client : client := Client (MAX_RETRIES cfg) (RETRY_INTERVAL cfg).

Definition output_file (timestamp : str) : str :=
  path_join (OUTPUT_DIR cfg) (lit "analysis_results_" ++ timestamp ++ lit ".json").

Definition progress_file (timestamp : str) : str :=
  path_join (PROGRESS_DIR cfg) (lit "progress_" ++ timestamp ++ lit ".json").

(** The variables the loop of [main] updates. *)
Record run_state : Type := Run {
  processed_files : list str;
  results : list entry;
  success_count : Z;
  fail_count : Z;
  now : world RS
}.

(** One iteration of [for idx, file_path in enumerate(remaining_files, 1)],
    [total] being [len(remaining_files)]. *)
Definition process_file (timestamp : str) (total : nat) (idx : nat)
                        (file_path : str) (r : run_state) : run_state :=
  match extract_conversation_data file_path with
  | None =>
      Run (processed_files r) (results r) (success_count r)
          (fail_count r + 1)%Z (now r)
  | Some conversation_data =>
      let prompt := make_prompt conversation_data in
      let (analysis_result, w) := call_llm send llm_client prompt (now r) in
      let r :=
        if truthy analysis_result then
          let result_entry := Entry (basename file_path) analysis_result in
          let results' := results r ++ [result_entry] in
          let w := log (AppendResult result_entry) w in
          let processed_files' := processed_files r ++ [file_path] in
          let w := log (AppendProcessed file_path) w in
          let w :=
            if (Z.of_nat (length processed_files') mod 10 =? 0)%Z then
              save_results (output_file timestamp) results'
                (save_progress (progress_file timestamp) processed_files' w)
            else w in
          Run processed_files' results' (success_count r + 1)%Z (fail_count r) w
        else
          Run (processed_files r) (results r) (success_count r)
              (fail_count r + 1)%Z w in
      if Nat.ltb idx total
      then Run (processed_files r) (results r) (success_count r) (fail_count r)
               (sleep (REQUEST_INTERVAL cfg) (now r))
      else r
  end.

Fixpoint process_files (timestamp : str) (total : nat) (idx : nat)
                       (todo : list str) (r : run_state) : run_state :=
  match todo with
  | [] => r
  | file_path :: todo' =>
      process_files timestamp total (S idx) todo'
        (process_file timestamp total idx file_path r)
  end.

(** The work list: the files of the corpus that are not in the loaded
    progress, cut to the test count in test mode. *)
Definition remaining (all_files loaded : list str) : list str :=
  let remaining_files :=
    filter (fun f => negb (str_in f loaded)) all_files in
  if TEST_MODE cfg then py_take (TEST_FILE_COUNT cfg) remaining_files
  else remaining_files.

(** [main()], given the time stamp of its start and the files found. *)
Definition main (timestamp : str) (all_files : list str) (w : world RS)
  : world RS :=
  let processed_files0 := load_progress (progress_file timestamp) w in
  let results0 := load_existing_results (output_file timestamp) w in
  let remaining_files := remaining all_files processed_files0 in
  match remaining_files with
  | [] => w
  | _ :: _ =>
      let r := process_files timestamp (length remaining_files) 1 remaining_files
                 (Run processed_files0 results0 0 0 w) in
      save_results (output_file timestamp) (results r)
        (save_progress (progress_file timestamp) (processed_files r) (now r))
  end.

End Driver.

End Main.
Import Main.

(** ** [file_processor.py]: finding, reading and formatting the
    conversation files *)

Module Corpus.

(** [s.endswith(suffix)] *)
Definition ends_with (suffix s : str) : bool :=
  starts_with (rev suffix) (rev s).

(** [sep.join(l)] *)
Fixpoint join (sep : str) (l : list str) : str :=
  match l with
  | [] => []
  | x :: l' => match l' with
               | [] => x
               | _ :: _ => x ++ sep ++ join sep l'
               end
  end.

(** [a <= b] on strings: code point by code point, a prefix first. *)
Fixpoint str_leb (a b : str) : bool :=
  match a, b with
  | [], _ => true
  | _ :: _, [] => false
  | x :: a', y :: b' =>
      if N.ltb x y then true
      else if N.eqb x y then str_leb a' b' else false
  end.

(** [sorted(l)] for a list of strings. Strings that compare equal are
    the same string, so the result does not depend on the method;
    insertion is the one used here. *)
Fixpoint insert (x : str) (l : list str) : list str :=
  match l with
  | [] => [x]
  | y :: l' => if str_leb x y then x :: l else y :: insert x l'
  end.

Definition sorted (l : list str) : list str := fold_right insert [] l.

(** [find_all_json_files], given what [os.walk(base_path)] yields: for
    each directory its path, the names of its subdirectories and the
    names of its files. *)
Definition find_all_json_files (walk : list (str * list str * list str))
  : list str :=
  let json_files :=
    flat_map
      (fun entry : str * list str * list str =>
         let '(root, dirs, files) := entry in
         if contains (lit "empathy") root then
           map (fun file => path_join root file)
               (filter (fun file =>
                          ends_with (lit ".json") file
                          && negb (ends_with (lit "_analysis.json") file))
                       files)
         else [])
      walk in
  sorted json_files.

(** One element of [conversation]: the dictionary with the keys ['role']
    and ['content']. *)
Record message : Type := Message { role : json; content : json }.

(** What [extract_conversation_data] returns: the dictionary with the
    keys ['system_content'] and ['conversation']. *)
Record conversation_data : Type := ConversationData {
  system_content : json;
  conversation : list message
}.

(** [v == s] for a string literal [s] *)
Definition is_str (s : str) (v : json) : bool :=
  match v with
  | JStr t => str_eqb t s
  | _ => false
  end.

(** [d.get(k, default)] *)
Definition get_default (k : str) (default : json) (d : dict) : json :=
  match dict_get k d with
  | Some v => v
  | None => default
  end.

(** The loop [for message in data] of [extract_conversation_data]. *)
Fixpoint read_messages (data : list json) (system_content : json)
                       (conversation : list message) : json * list message :=
  match data with
  | [] => (system_content, conversation)
  | message :: data' =>
      match message with
      | JObj d =>
          let role := get_default (lit "role") (JStr []) d in
          let content := get_default (lit "content") (JStr []) d in
          if is_str (lit "system") role then
            read_messages data' content conversation
          else if is_str (lit "user") role || is_str (lit "assistant") role then
            read_messages data' system_content
                          (conversation ++ [Message role content])
          else read_messages data' system_content conversation
      | _ => read_messages data' system_content conversation
      end
  end.

(** The two keys a user message may carry: [用户输入] and [聊天提示信息],
    brackets included. *)
Definition K_USER_INPUT : str := [91; 29992; 25143; 36755; 20837; 93]%N.
Definition K_BACKGROUND : str :=
  [91; 32842; 22825; 25552; 31034; 20449; 24687; 93]%N.

Section Reading.

(** The text of a file, [None] when it cannot be opened or read. *)
Variable read_text : str -> option str.

(** [extract_conversation_data]: [None] when the file cannot be read,
    is no JSON or holds no list. *)
Definition extract_conversation_data (file_path : str)
  : option conversation_data :=
  match read_text file_path with
  | None => None
  | Some text =>
      match loads text with
      | Some (JArr data) =>
          let (system_content, conversation) :=
            read_messages data (JStr []) [] in
          Some (ConversationData system_content conversation)
      | _ => None
      end
  end.

End Reading.

Section Formatting.

(** [str(v)] for a value that is no string, and [s.capitalize()]. *)
Variable repr_of : json -> str.
Variable capitalize : str -> str.

(** A value inside an f-string. *)
Definition fstr (v : json) : str :=
  match v with
  | JStr s => s
  | _ => repr_of v
  end.

(** The branch of a user message, with its [try] and bare [except]. *)
Definition format_user (content : json) (formatted : list str) : list str :=
  let raw (formatted : list str) :=
    formatted ++ [lit "[User]: " ++ fstr content] in
  match content with
  | JStr c =>
      match loads c with
      | Some (JObj user_data) =>
          let formatted :=
            match dict_get K_USER_INPUT user_data with
            | Some user_input => formatted ++ [lit "[User]: " ++ fstr user_input]
            | None => formatted
            end in
          match dict_get K_BACKGROUND user_data with
          | Some background_info =>
              if truthy background_info then
                match background_info with
                | JStr b =>
                    if truthy (JStr (strip b))
                    then formatted ++ [lit "[Background]: " ++ b]
                    else formatted
                | _ => raw formatted   (* no [strip]: caught by [except] *)
                end
              else formatted
          | None => formatted
          end
      | Some _ => raw formatted
      | None => raw formatted           (* no JSON: caught by [except] *)
      end
  | _ => raw formatted                  (* no text to decode: caught *)
  end.

(** One iteration of [for msg in conversation]; [None] stands for an
    exception that nothing catches. *)
Definition format_message (msg : message) (formatted : list str)
  : option (list str) :=
  let role := role msg in
  let content := content msg in
  if is_str (lit "assistant") role then
    match content with
    | JStr c =>
        if starts_with [LBRACKET] c then
          match find RBRACKET c with
          | Some end_idx =>
              if Nat.ltb 0 end_idx then
                let actual_content := strip (skipn (end_idx + 1) c) in
                Some (formatted ++ [lit "[Assistant]: " ++ actual_content])
              else Some (formatted ++ [lit "[Assistant]: " ++ c])
          | None => Some (formatted ++ [lit "[Assistant]: " ++ c])
          end
        else Some (formatted ++ [lit "[Assistant]: " ++ c])
    | _ => None
    end
  else if is_str (lit "user") role then
    Some (format_user content formatted)
  else
    match role with
    | JStr r =>
        Some (formatted ++ [[LBRACKET] ++ capitalize r ++ lit "]: " ++ fstr content])
    | _ => None
    end.

Fixpoint format_messages (conversation : list message) (formatted : list str)
  : option (list str) :=
  match conversation with
  | [] => Some formatted
  | msg :: conversation' =>
      match format_message msg formatted with
      | Some formatted => format_messages conversation' formatted
      | None => None
      end
  end.

(** [format_conversation_for_llm] *)
Definition format_conversation_for_llm (conversation : list message)
  : option str :=
  match format_messages conversation [] with
  | Some formatted => Some (join [LF] formatted)
  | None => None
  end.

End Formatting.

End Corpus.
Import Corpus.

(** ** [process_json.py]: trimming the system message of a conversation
    file *)

Module ProcessJson.

(** The two headers: [# 用户信息] and [# 双方共同信息]. *)
Definition H_USER : str := [35; 32; 29992; 25143; 20449; 24687]%N.
Definition H_COMMON : str :=
  [35; 32; 21452; 26041; 20849; 21516; 20449; 24687]%N.

(** The patterns of lines 11 and 12, used with [re.DOTALL]: one group
    around the header, white space, an opening brace, characters other
    than the closing brace, and a closing brace. *)
Definition section_pattern (header : str) : regex :=
  Group 1 (Seq [Lits header; Star Space; Chr LBRACE;
                Star (NoneOf [RBRACE]); Chr RBRACE]).

(** [extract_required_sections], for a content that is a string. *)
Definition extract_required_sections (content : str) : str :=
  let result : str := [] in
  let result := match search_group (section_pattern H_USER) content with
                | Some g => result ++ g ++ [LF]
                | None => result
                end in
  let result := match search_group (section_pattern H_COMMON) content with
                | Some g => result ++ g
                | None => result
                end in
  strip result.

(** The loop [for message in data] of [process_json_file]: the list as
    the loop leaves it and the flag [modified]. [None] stands for the
    exception [re.search] raises on a content that is no string, which
    makes the function return [False] without writing. *)
Fixpoint rewrite_messages (data : list json) (modified : bool)
  : option (list json * bool) :=
  match data with
  | [] => Some ([], modified)
  | message :: data' =>
      let keep (modified : bool) :=
        match rewrite_messages data' modified with
        | Some (rest, modified) => Some (message :: rest, modified)
        | None => None
        end in
      match message with
      | JObj d =>
          if is_str (lit "system") (get_default (lit "role") JNull d) then
            match get_default (lit "content") (JStr []) d with
            | JStr original_content =>
                let new_content := extract_required_sections original_content in
                if negb (str_eqb new_content original_content) then
                  match rewrite_messages data' true with
                  | Some (rest, modified) =>
                      Some (JObj (dict_set (lit "content") (JStr new_content) d)
                              :: rest, modified)
                  | None => None
                  end
                else keep modified
            | _ => None
            end
          else keep modified
      | _ => keep modified
      end
  end.

End ProcessJson.
Import ProcessJson.

(* ===================================================================== *)
(** * Part II: the notions the properties are stated with                *)
(* ===================================================================== *)

Unset Implicit Arguments.

(** A check of all the prefixes of a text, for use on given texts. *)
Definition no_prefix_loads (r : str) : bool :=
  forallb (fun k => match loads (firstn k r) with Some _ => false | None => true end)
          (seq 0 (S (length r))).

(** A text as [re.sub(r'\s+', ' ', _)] leaves it, written directly:
    every run of white space becomes one space. [in_run] tells that the
    previous character was white space. *)
Fixpoint collapse_from (in_run : bool) (s : str) : str :=
  match s with
  | [] => []
  | c :: s' =>
      if isspace c
      then if in_run then collapse_from true s' else SPACE :: collapse_from true s'
      else c :: collapse_from false s'
  end.

(** In a squeezed text white space is the plain space, never twice in a
    row; [after_space] tells that a space came just before. *)
Fixpoint squeezed (after_space : bool) (s : str) : Prop :=
  match s with
  | [] => True
  | c :: s' =>
      if isspace c then c = SPACE /\ after_space = false /\ squeezed true s'
      else squeezed false s'
  end.

(** White space normalised: only plain spaces, one at a time, none at the
    ends. *)
Definition ws_normalized (m : str) : Prop :=
  (forall c, In c m -> isspace c = true -> c = SPACE) /\
  (forall a b, m <> a ++ SPACE :: SPACE :: b) /\
  (forall c b, m = c :: b -> isspace c = false) /\
  (forall a c, m = a ++ [c] -> isspace c = false).

Definition accept : cont hit := fun prev s c => Some (Hit s prev c).

(** Sample replies. *)
Module Samples.

(** A complete record in strict JSON whose memory has two spaces in a row. *)
Definition strict_record : str :=
  qlit "{'" ++ F_CATEGORY ++ qlit "': 'c', '" ++ F_TAGS ++ qlit "': ['t1', 't2'], '"
       ++ F_DESCRIPTION ++ qlit "': 'd', '" ++ F_MEMORY ++ qlit "': 'x  y'}".

(** The four fields with a line break inside the memory, which strict
    JSON forbids. *)
Definition broken_record : str :=
  qlit "{'" ++ F_CATEGORY ++ qlit "': 'c', '" ++ F_TAGS ++ qlit "': ['t1', 't2'], '"
       ++ F_DESCRIPTION ++ qlit "': 'd', '" ++ F_MEMORY ++ qlit "': ' m  " ++ [LF]
       ++ qlit "  x '}".

(** The same without the description. *)
Definition partial_record : str :=
  qlit "{'" ++ F_CATEGORY ++ qlit "': 'c', '" ++ F_TAGS ++ qlit "': ['t1', 't2'], '"
       ++ F_MEMORY ++ qlit "': ' m  " ++ [LF] ++ qlit "  x '}".

End Samples.

(** The failures the retry loop is specified for: a transport error, a
    reply in which the locator finds nothing, one whose located text
    parses to nothing, one whose record lacks a required field. *)
Inductive failure : response -> Prop :=
| transport_error : failure RequestException
| locator_miss content :
    _extract_json_object content = None -> failure (Content content)
| parse_failure content json_str :
    _extract_json_object content = Some json_str ->
    truthy (_safe_parse_json json_str) = false ->
    failure (Content content)
| missing_fields content json_str :
    _extract_json_object content = Some json_str ->
    truthy (_safe_parse_json json_str) = true ->
    has_required (_safe_parse_json json_str) = Some false ->
    failure (Content content).

(** A reply that passes locator, parser and validator, with its record. *)
Definition valid (r : response) (record : json) : Prop :=
  exists content json_str,
    r = Content content /\
    _extract_json_object content = Some json_str /\
    _safe_parse_json json_str = record /\
    truthy record = true /\
    has_required record = Some true.

(** The number of remote calls among some events. *)
Fixpoint posts (t : list event) : nat :=
  match t with
  | [] => 0
  | Post _ :: t' => S (posts t')
  | _ :: t' => posts t'
  end.

(** The pause after the attempt of a given index, while attempts remain. *)
Definition pause_events (self : client) (attempt : Z) : list event :=
  if (attempt <? max_retries self - 1)%Z then [Sleep (retry_interval self)] else [].

(** The events of [k] attempts that each fail and pause. *)
Definition paced (self : client) (prompt : str) (k : nat) : list event :=
  flat_map (fun i => Post prompt :: pause_events self (Z.of_nat i)) (seq 0 k).

(** What has happened in [w'] since [w]. *)
Definition since {RS : Type} (w w' : world RS) : list event :=
  skipn (length (trace w)) (trace w').

Section Remote.

Variable RS : Type.
Variable send : RS -> str -> response * RS.
Variable self : client.
Variable prompt : str.

(** The replies the remote service gives to [n] requests in a row, and
    its state after them. *)
Fixpoint replies (n : nat) (rs : RS) : list response :=
  match n with
  | O => []
  | S n' => fst (send rs prompt) :: replies n' (snd (send rs prompt))
  end.

Fixpoint after_sends (n : nat) (rs : RS) : RS :=
  match n with
  | O => rs
  | S n' => after_sends n' (snd (send rs prompt))
  end.

(** The events of attempts that fail with the given replies, the first
    having index [attempt]. *)
Fixpoint rounds (attempt : Z) (rs : list response) : list event :=
  match rs with
  | [] => []
  | r :: rs' =>
      Post prompt ::
      match judge r with
      | Retry true => pause_events self attempt
      | _ => []
      end ++ rounds (attempt + 1) rs'
  end.

End Remote.

Arguments replies {RS} send prompt n rs.
Arguments after_sends {RS} send prompt n rs.

(** One failed attempt with its pause. *)
Definition round (self : client) (prompt : str) : list event :=
  [Post prompt; Sleep (retry_interval self)].

(** A remote service that plays a script: the state is the list of
    replies still to give; an exhausted script answers with a transport
    error. *)
Definition scripted (rs : list response) (_ : str) : response * list response :=
  match rs with
  | r :: rs' => (r, rs')
  | [] => (RequestException, [])
  end.

Definition start (script : list response) : world (list response) :=
  World script (fun _ => None) [].

(** Four failing replies, one of each kind, then a good one. *)
Definition four_failures : list response :=
  [Content (lit "sorry, no data"); Content (lit "{}");
   Content (qlit "{'a': 1}"); RequestException].

Definition FENCE : str := lit "```".

(** Some fence of the text is the first thing on its line. *)
Definition fence_starts_line (text : str) : Prop :=
  exists a b, text = a ++ FENCE ++ b /\ (a = [] \/ exists a', a = a' ++ [LF]).

(** Some fence of the text has only white space between it and the end
    of its line. *)
Definition fence_ends_line (text : str) : Prop :=
  exists a w b,
    text = a ++ FENCE ++ w ++ b /\
    Forall (fun c => isspace c = true) w /\
    (b = [] \/ exists b', b = LF :: b').

(** The character before a position: the last one of what precedes. *)
Definition last_of (prev : option N) (a : str) : option N :=
  match rev a with
  | [] => prev
  | c :: _ => Some c
  end.

(** Checks of the two conditions, for use on given texts. *)
Fixpoint starts_line_check (prev : option N) (s : str) : bool :=
  (match prev with None => true | Some p => N.eqb p LF end && starts_with FENCE s)
  || match s with
     | [] => false
     | c :: s' => starts_line_check (Some c) s'
     end.

Fixpoint eol_after_spaces (s : str) : bool :=
  match s with
  | [] => true
  | c :: s' => N.eqb c LF || (isspace c && eol_after_spaces s')
  end.

Fixpoint ends_line_check (s : str) : bool :=
  (starts_with FENCE s && eol_after_spaces (skipn 3 s))
  || match s with
     | [] => false
     | _ :: s' => ends_line_check s'
     end.

(** [processed_files] and [results] agree: entry by entry, the result's
    file name is the base name of the processed path. *)
Definition consistent (processed : list str) (res : list entry) : Prop :=
  map basename processed = map file_name res.

(** The discipline of the driver's effects, as a machine that reads them
    one by one. It is idle, or a result has been appended and its path
    has not yet, or the progress file has been written and the result
    file has not yet. It carries the two lists as they stand. *)
Inductive mode : Type :=
| Idle
| ResultAppended (e : entry)
| ProgressWritten.

Definition status : Type := (mode * list str * list entry)%type.

Inductive step (progress_name output_name : str) : status -> event -> status -> Prop :=
| step_post p r prompt :
    step progress_name output_name (Idle, p, r) (Post prompt) (Idle, p, r)
| step_sleep p r seconds :
    step progress_name output_name (Idle, p, r) (Sleep seconds) (Idle, p, r)
| step_result p r e :
    step progress_name output_name (Idle, p, r) (AppendResult e) (ResultAppended e, p, r)
| step_processed p r e f :
    file_name e = basename f ->
    step progress_name output_name (ResultAppended e, p, r) (AppendProcessed f)
         (Idle, p ++ [f], r ++ [e])
| step_write_progress p r :
    step progress_name output_name (Idle, p, r)
         (Write progress_name (ProgressData p (Z.of_nat (length p))))
         (ProgressWritten, p, r)
| step_write_results p r :
    step progress_name output_name (ProgressWritten, p, r)
         (Write output_name (ResultsData r)) (Idle, p, r).

Inductive steps (progress_name output_name : str) : status -> list event -> status -> Prop :=
| steps_nil s : steps progress_name output_name s [] s
| steps_cons s1 e s2 t s3 :
    step progress_name output_name s1 e s2 ->
    steps progress_name output_name s2 t s3 ->
    steps progress_name output_name s1 (e :: t) s3.

(** The paths and the entries appended among some events. *)
Fixpoint appended (t : list event) : list str :=
  match t with
  | [] => []
  | AppendProcessed f :: t' => f :: appended t'
  | _ :: t' => appended t'
  end.

Fixpoint appended_results (t : list event) : list entry :=
  match t with
  | [] => []
  | AppendResult e :: t' => e :: appended_results t'
  | _ :: t' => appended_results t'
  end.

(** The order the specification names: the path first, then the result. *)
Definition path_then_result (t : list event) : Prop :=
  forall a f b, t = a ++ AppendProcessed f :: b ->
    exists e b', b = AppendResult e :: b' /\ file_name e = basename f.

(** A corpus of one file, read as it is, and a configuration of one
    attempt per file. *)
Module Example.

Definition corpus : list str := [lit "data/empathy/a.json"].
Definition read (file_path : str) : option str := Some file_path.
Definition prompt_of (conversation_data : str) : str := conversation_data.
Definition cfg : config :=
  Config (lit "out") (lit "progress") 1 2 1 false 0.
Definition stamp : str := lit "20240101_120000".

Definition run (w : world (list response)) : world (list response) :=
  main scripted read prompt_of cfg stamp corpus w.

End Example.

(** The three variables of the scan: the depth, the in-string flag, the
    escape flag. *)
Definition scan_state : Type := (Z * bool * bool)%type.

(** What one character does to them. *)
Definition next (st : scan_state) (char : N) : scan_state :=
  match st with
  | (brace_count, in_string, escape_next) =>
      if escape_next then (brace_count, in_string, false)
      else if N.eqb char BACKSLASH then (brace_count, in_string, true)
      else if N.eqb char QUOTE then (brace_count, negb in_string, false)
      else if negb in_string then
        if N.eqb char LBRACE then ((brace_count + 1)%Z, in_string, false)
        else if N.eqb char RBRACE then ((brace_count - 1)%Z, in_string, false)
        else st
      else st
  end.

(** Whether the character is a closing brace that brings the depth to
    zero: the point where the scan tries a candidate. *)
Definition closes (st : scan_state) (char : N) : bool :=
  match st with
  | (brace_count, in_string, escape_next) =>
      negb escape_next && negb (N.eqb char BACKSLASH) && negb (N.eqb char QUOTE)
      && negb in_string && negb (N.eqb char LBRACE) && N.eqb char RBRACE
      && Z.eqb (brace_count - 1) 0
  end.

(** The state after a stretch of text in which no candidate is tried. *)
Fixpoint quiet (st : scan_state) (s : str) : option scan_state :=
  match s with
  | [] => Some st
  | c :: s' => if closes st c then None else quiet (next st c) s'
  end.

(** A stretch of text that, read outside a string at depth one or more,
    tries no candidate and leaves the state as it was. *)
Definition inert (s : str) : Prop :=
  forall d, (1 <= d)%Z -> quiet (d, false, false) s = Some (d, false, false).

(** A character that is no quote, backslash, brace or backtick. *)
Definition plain (c : N) : bool :=
  negb (N.eqb c QUOTE || N.eqb c BACKSLASH || N.eqb c LBRACE || N.eqb c RBRACE
        || N.eqb c BACKTICK).

(** The rest of a string after its opening quote, closing quote
    included: read inside a string it ends outside, at the same depth. *)
Definition string_body (c : str) : Prop :=
  forall d, quiet (d, true, false) c = Some (d, false, false).

(** Whether the text goes on, after white space other than line feeds,
    with a character that is no white space. *)
Fixpoint guarded (s : str) : bool :=
  match s with
  | [] => false
  | c :: s' => if isspace c then negb (N.eqb c LF) && guarded s' else true
  end.

(** Whether every backtick of the text is away from the start of a line
    and has something else than white space after it on its line;
    [line_start] tells whether the text itself starts a line. *)
Fixpoint tame (line_start : bool) (s : str) : bool :=
  match s with
  | [] => true
  | c :: s' =>
      (if N.eqb c BACKTICK then negb line_start && guarded s' else true)
      && tame (N.eqb c LF) s'
  end.

(** The rest of a string as the decoder accepts it: it also has no line
    feed, so that its backticks are tame. *)
Definition string_rest (c : str) : Prop :=
  string_body c /\ guarded c = true /\ tame false c = true.

(** Inert for the scan, and tame for the fence patterns. *)
Definition tidy (s : str) : Prop := inert s /\ tame true s = true.

(** Whether a position is the start of a line, from the character
    before it. *)
Definition line_start (prev : option N) : bool :=
  match prev with None => true | Some p => N.eqb p LF end.

(** The pattern consumes no occurrence of the character [x]. *)
Fixpoint avoids (x : N) (r : regex) : bool :=
  match r with
  | Eps | Bol | Eol => true
  | Chr c => negb (N.eqb c x)
  | Dot => false
  | Space => negb (isspace x)
  | NoneOf cs => mem x cs
  | Cat r1 r2 | Alt r1 r2 => avoids x r1 && avoids x r2
  | Star r' | LazyStar r' | Group _ r' => avoids x r'
  end.

(** What the conversation keeps of an element of the list a file holds:
    a dictionary whose role is user or assistant, as its role and its
    content; nothing of any other element. *)
Definition turn_of (v : json) : list message :=
  match v with
  | JObj d =>
      let role := get_default (lit "role") (JStr []) d in
      if is_str (lit "user") role || is_str (lit "assistant") role
      then [Message role (get_default (lit "content") (JStr []) d)]
      else []
  | _ => []
  end.

(** The content of an element that is a system message. *)
Definition system_of (v : json) : option json :=
  match v with
  | JObj d =>
      if is_str (lit "system") (get_default (lit "role") (JStr []) d)
      then Some (get_default (lit "content") (JStr []) d)
      else None
  | _ => None
  end.

(** The order of [sorted]. *)
Definition str_le (a b : str) : Prop := str_leb a b = true.

(** Two results of [os.walk] that list the same directories in the same
    order, the files of each in any order. *)
Definition same_files (walk walk' : list (str * list str * list str)) : Prop :=
  Forall2 (fun e e' : str * list str * list str =>
             fst (fst e) = fst (fst e') /\ Permutation (snd e) (snd e'))
          walk walk'.

(** The tags a formatted line of a user or assistant message starts
    with. *)
Definition tagged (line : str) : Prop :=
  starts_with (lit "[Assistant]: ") line = true \/
  starts_with (lit "[User]: ") line = true \/
  starts_with (lit "[Background]: ") line = true.

(** A record with the four required fields. *)
Definition complete (v : json) : Prop :=
  exists d, v = JObj d /\
            forall field, In field required_fields -> dict_mem field d = true.

(** A list made of elements of another, in the order they have there. *)
Inductive subseq (A : Type) : list A -> list A -> Prop :=
| subseq_nil : subseq A [] []
| subseq_take x a b : subseq A a b -> subseq A (x :: a) (x :: b)
| subseq_skip x a b : subseq A a b -> subseq A a (x :: b).

(** A pattern without capturing group. *)
Fixpoint group_free (r : regex) : bool :=
  match r with
  | Group _ _ => false
  | Cat r1 r2 | Alt r1 r2 => group_free r1 && group_free r2
  | Star r' | LazyStar r' => group_free r'
  | _ => true
  end.

(** The texts of a pattern, position and groups left aside. *)
Inductive matches : regex -> str -> Prop :=
| m_eps : matches Eps []
| m_chr c : matches (Chr c) [c]
| m_dot c : matches Dot [c]
| m_space c : isspace c = true -> matches Space [c]
| m_noneof cs c : mem c cs = false -> matches (NoneOf cs) [c]
| m_bol : matches Bol []
| m_eol : matches Eol []
| m_cat r1 r2 a b : matches r1 a -> matches r2 b -> matches (Cat r1 r2) (a ++ b)
| m_alt_l r1 r2 a : matches r1 a -> matches (Alt r1 r2) a
| m_alt_r r1 r2 a : matches r2 a -> matches (Alt r1 r2) a
| m_star_nil r : matches (Star r) []
| m_star_app r a b :
    matches r a -> matches (Star r) b -> matches (Star r) (a ++ b)
| m_lazy_nil r : matches (LazyStar r) []
| m_lazy_app r a b :
    matches r a -> matches (LazyStar r) b -> matches (LazyStar r) (a ++ b)
| m_group i r a : matches r a -> matches (Group i r) a.

(** A section as [extract_required_sections] keeps it: the header, white
    space, and between braces a body without closing brace. *)
Definition section_text (header g : str) : Prop :=
  exists w body,
    g = header ++ w ++ LBRACE :: body ++ [RBRACE] /\
    Forall (fun c => isspace c = true) w /\ ~ In RBRACE body.

(* ===================================================================== *)
(** * Part III: properties                                               *)
(* ===================================================================== *)

(** ** Strings *)

Lemma lstrip_suffix (s : str) : exists k, lstrip s = skipn k s.
Proof.
  induction s as [|c s [k IH]]; simpl.
  - exists 0; reflexivity.
  - destruct (isspace c).
    + exists (S k); exact IH.
    + exists 0; reflexivity.
Qed.

Lemma rstrip_prefix (s : str) : exists k, rstrip s = firstn k s.
Proof.
  unfold rstrip. destruct (lstrip_suffix (rev s)) as [k Hk]. rewrite Hk.
  exists (length s - k). rewrite skipn_rev, rev_involutive. reflexivity.
Qed.

Lemma lstrip_head (c : N) (s : str) : isspace c = false -> lstrip (c :: s) = c :: s.
Proof. intros H; simpl; rewrite H; reflexivity. Qed.

Lemma find_skipn (c : N) (s : str) (i : nat) :
  find c s = Some i -> exists s', skipn i s = c :: s'.
Proof.
  revert i; induction s as [|x s IH]; simpl; intros i H; [discriminate|].
  destruct (N.eqb_spec x c) as [->|_].
  - injection H as <-. exists s; reflexivity.
  - destruct (find c s) as [j|]; [|discriminate]. injection H as <-.
    simpl. apply IH; reflexivity.
Qed.

(** [strip] of a text that starts with a character that is no white space
    is a prefix of it. *)
Lemma strip_prefix (c : N) (s : str) :
  isspace c = false -> exists k, strip (c :: s) = firstn k (c :: s).
Proof.
  intros H. unfold strip. rewrite (lstrip_head _ _ H). apply rstrip_prefix.
Qed.

(** ** The bounds of the loops over texts are never reached *)

(** The matcher only looks at what its continuation returns. *)
Lemma greedy_ext (A : Type) (body : option N -> str -> caps -> cont A -> option A) :
  (forall k1 k2, (forall p s c, k1 p s c = k2 p s c) ->
                 forall p s c, body p s c k1 = body p s c k2) ->
  forall n k1 k2, (forall p s c, k1 p s c = k2 p s c) ->
                  forall p s c, greedy body k1 n p s c = greedy body k2 n p s c.
Proof.
  intros Hb. induction n as [|n IH]; intros k1 k2 Hk p s c; simpl.
  - apply Hk.
  - assert (E : body p s c (fun prev' s' c' =>
                              if Nat.ltb (length s') (length s)
                              then greedy body k1 n prev' s' c' else None)
                = body p s c (fun prev' s' c' =>
                                if Nat.ltb (length s') (length s)
                                then greedy body k2 n prev' s' c' else None)).
    { apply Hb. intros p' s' c'.
      destruct (Nat.ltb _ _); [apply IH; exact Hk | reflexivity]. }
    rewrite E, Hk. reflexivity.
Qed.

Lemma lazy_ext (A : Type) (body : option N -> str -> caps -> cont A -> option A) :
  (forall k1 k2, (forall p s c, k1 p s c = k2 p s c) ->
                 forall p s c, body p s c k1 = body p s c k2) ->
  forall n k1 k2, (forall p s c, k1 p s c = k2 p s c) ->
                  forall p s c, lazy body k1 n p s c = lazy body k2 n p s c.
Proof.
  intros Hb. induction n as [|n IH]; intros k1 k2 Hk p s c; simpl.
  - rewrite Hk. reflexivity.
  - rewrite Hk. destruct (k2 p s c); [reflexivity|].
    apply Hb. intros p' s' c'.
    destruct (Nat.ltb _ _); [apply IH; exact Hk | reflexivity].
Qed.

Lemma run_ext (A : Type) (r : regex) :
  forall k1 k2 : cont A, (forall p s c, k1 p s c = k2 p s c) ->
                         forall p s c, run r p s c k1 = run r p s c k2.
Proof.
  induction r as [ |x| | |cs| | |r1 IH1 r2 IH2|r1 IH1 r2 IH2|r IH|r IH|i r IH];
    intros k1 k2 Hk p s c; simpl.
  - apply Hk.
  - destruct s as [|y s]; [reflexivity|]. destruct (N.eqb y x); [apply Hk | reflexivity].
  - destruct s as [|y s]; [reflexivity | apply Hk].
  - destruct s as [|y s]; [reflexivity|]. destruct (isspace y); [apply Hk | reflexivity].
  - destruct s as [|y s]; [reflexivity|]. destruct (mem y cs); [reflexivity | apply Hk].
  - destruct p as [q|]; [destruct (N.eqb q LF)|]; try apply Hk; reflexivity.
  - destruct s as [|y s]; [apply Hk|]. destruct (N.eqb y LF); [apply Hk | reflexivity].
  - apply IH1. intros p' s' c'. apply IH2. exact Hk.
  - rewrite (IH1 k1 k2 Hk), (IH2 k1 k2 Hk). reflexivity.
  - apply greedy_ext; [exact IH | exact Hk].
  - apply lazy_ext; [exact IH | exact Hk].
  - apply IH. intros p' s' c'. apply Hk.
Qed.

(** Without a continuation that succeeds there is no match. *)
Lemma run_none (A : Type) (r : regex) :
  forall p s c, run (A:=A) r p s c (fun _ _ _ => None) = None.
Proof.
  induction r as [ |x| | |cs| | |r1 IH1 r2 IH2|r1 IH1 r2 IH2|r IH|r IH|i r IH];
    intros p s c; simpl; try reflexivity.
  - destruct s as [|y s]; [reflexivity|]. destruct (N.eqb y x); reflexivity.
  - destruct s as [|y s]; reflexivity.
  - destruct s as [|y s]; [reflexivity|]. destruct (isspace y); reflexivity.
  - destruct s as [|y s]; [reflexivity|]. destruct (mem y cs); reflexivity.
  - destruct p as [q|]; [destruct (N.eqb q LF)|]; reflexivity.
  - destruct s as [|y s]; [reflexivity|]. destruct (N.eqb y LF); reflexivity.
  - rewrite (run_ext A r1 _ (fun _ _ _ => None)); [apply IH1|].
    intros p' s' c'. apply IH2.
  - rewrite IH1. apply IH2.
  - generalize (length s). intros n. revert p s c.
    induction n as [|n IHn]; intros p s c; simpl; [reflexivity|].
    rewrite (run_ext A r _ (fun _ _ _ => None)); [rewrite IH; reflexivity|].
    intros p' s' c'. destruct (Nat.ltb _ _); [apply IHn | reflexivity].
  - generalize (length s). intros n. revert p s c.
    induction n as [|n IHn]; intros p s c; simpl; [reflexivity|].
    rewrite (run_ext A r _ (fun _ _ _ => None)); [apply IH|].
    intros p' s' c'. destruct (Nat.ltb _ _); [apply IHn | reflexivity].
  - apply IH.
Qed.

(** The greedy and the lazy loop make no more iterations than the text
    has characters: a larger bound gives the same match. *)
Lemma greedy_fuel (A : Type) (r : regex) (k : cont A) (n : nat) :
  forall m p s c, length s <= n -> length s <= m ->
    greedy (run r) k n p s c = greedy (run r) k m p s c.
Proof.
  assert (Z : forall m p c, greedy (run r) k m p [] c = k p [] c).
  { intros [|m] p c; simpl; [reflexivity|].
    rewrite run_none. reflexivity. }
  induction n as [|n IH]; intros m p s c Hn Hm.
  - destruct s; [|simpl in Hn; lia]. rewrite !Z. reflexivity.
  - destruct m as [|m].
    + destruct s; [|simpl in Hm; lia]. rewrite !Z. reflexivity.
    + simpl.
      rewrite (run_ext A r _ (fun prev' s' c' =>
                 if Nat.ltb (length s') (length s)
                 then greedy (run r) k m prev' s' c' else None));
        [reflexivity|].
      intros p' s' c'. destruct (Nat.ltb_spec (length s') (length s));
        [apply IH; lia | reflexivity].
Qed.

Lemma lazy_fuel (A : Type) (r : regex) (k : cont A) (n : nat) :
  forall m p s c, length s <= n -> length s <= m ->
    lazy (run r) k n p s c = lazy (run r) k m p s c.
Proof.
  assert (Z : forall m p c, lazy (run r) k m p [] c = k p [] c).
  { intros [|m] p c; simpl; destruct (k p [] c); try reflexivity.
    apply run_none. }
  induction n as [|n IH]; intros m p s c Hn Hm.
  - destruct s; [|simpl in Hn; lia]. rewrite !Z. reflexivity.
  - destruct m as [|m].
    + destruct s; [|simpl in Hm; lia]. rewrite !Z. reflexivity.
    + simpl. destruct (k p s c); [reflexivity|].
      apply run_ext. intros p' s' c'.
      destruct (Nat.ltb_spec (length s') (length s));
        [apply IH; lia | reflexivity].
Qed.

(** [sub] and [replace] stop before their bounds do. *)
Lemma sub_from_fuel (r : regex) (repl : str) (fuel : nat) :
  forall fuel' prev s, length s < fuel -> length s < fuel' ->
    sub_from fuel r repl prev s = sub_from fuel' r repl prev s.
Proof.
  induction fuel as [|fuel IH]; intros fuel' prev s H H'; [lia|].
  destruct fuel' as [|fuel']; [lia|]. simpl.
  destruct (match_here r prev s) as [h|].
  - destruct (Nat.ltb_spec (length (after h)) (length s)).
    + rewrite (IH fuel') by lia. reflexivity.
    + destruct s as [|c s]; [reflexivity|].
      rewrite (IH fuel') by (simpl in *; lia). reflexivity.
  - destruct s as [|c s]; [reflexivity|].
    rewrite (IH fuel') by (simpl in *; lia). reflexivity.
Qed.

Lemma replace_fuel_enough (old new : str) (fuel : nat) :
  old <> [] ->
  forall fuel' s, length s <= fuel -> length s <= fuel' ->
    replace_fuel fuel old new s = replace_fuel fuel' old new s.
Proof.
  intros Ho. induction fuel as [|fuel IH]; intros fuel' s H H'.
  - destruct s; [|simpl in H; lia]. destruct fuel'; reflexivity.
  - destruct fuel' as [|fuel'].
    + destruct s; [reflexivity | simpl in H'; lia].
    + cbn [replace_fuel]. destruct s as [|c s]; [reflexivity|].
      assert (L : length (skipn (length old) (c :: s)) <= length s).
      { rewrite length_skipn. destruct old; [contradiction | simpl; lia]. }
      destruct (starts_with old (c :: s)).
      * rewrite (IH fuel') by (simpl in *; lia). reflexivity.
      * rewrite (IH fuel') by (simpl in *; lia). reflexivity.
Qed.

(** ** The locator returns only what the strict decoder accepts *)

Lemma scan_sound (text : str) (start_idx : nat) (rest : str) :
  forall i b ins esc s,
    scan text start_idx rest i b ins esc = Some s ->
    (exists v, loads s = Some v) /\ exists j, s = slice text start_idx j.
Proof.
  induction rest as [|c rest IH]; simpl; intros i b ins esc s H; [discriminate|].
  destruct esc; [eauto|].
  destruct (N.eqb c BACKSLASH); [eauto|].
  destruct (N.eqb c QUOTE); [eauto|].
  destruct (negb ins); [|eauto].
  destruct (N.eqb c LBRACE); [eauto|].
  destruct (N.eqb c RBRACE); [|eauto].
  destruct (Z.eqb (b - 1) 0); [|eauto].
  destruct (loads (slice text start_idx (i + 1))) as [v|] eqn:E; [|eauto].
  injection H as <-. split; [exists v; exact E | eexists; reflexivity].
Qed.

Lemma extract_sound (text s : str) :
  _extract_json_object text = Some s -> exists v, loads s = Some v.
Proof.
  unfold _extract_json_object.
  destruct (strip_markdown text) as [|c t] eqn:Et; [discriminate|].
  destruct (find LBRACE (c :: t)) as [start|]; [|discriminate].
  destruct (scan _ _ _ _ _ _ _) as [r|] eqn:Es.
  - intros H; injection H as <-. apply (scan_sound _ _ _ _ _ _ _ _ Es).
  - destruct (loads (strip (skipn start (c :: t)))) as [v|] eqn:El; [|discriminate].
    intros H; injection H as <-. exists v; exact El.
Qed.

(** What the locator returns is a prefix of the stripped text from its
    first opening brace on. *)
Lemma extract_prefix (text s : str) :
  _extract_json_object text = Some s ->
  exists start k,
    find LBRACE (strip_markdown text) = Some start /\
    s = firstn k (skipn start (strip_markdown text)).
Proof.
  unfold _extract_json_object.
  destruct (strip_markdown text) as [|c t] eqn:Et; [discriminate|].
  destruct (find LBRACE (c :: t)) as [start|] eqn:Ef; [|discriminate].
  destruct (scan _ _ _ _ _ _ _) as [r|] eqn:Es.
  - intros H; injection H as <-. exists start.
    destruct (scan_sound _ _ _ _ _ _ _ _ Es) as [_ [j ->]].
    exists (j - start). split; reflexivity.
  - destruct (loads (strip (skipn start (c :: t)))) as [v|] eqn:El; [|discriminate].
    intros H; injection H as <-. exists start.
    destruct (find_skipn _ _ _ Ef) as [s' Hs']. rewrite Hs'.
    destruct (strip_prefix LBRACE s' eq_refl) as [k Hk].
    exists k. split; [reflexivity | exact Hk].
Qed.

Lemma no_prefix_loads_spec (r : str) :
  no_prefix_loads r = true -> forall k, loads (firstn k r) = None.
Proof.
  unfold no_prefix_loads. rewrite forallb_forall. intros H k.
  destruct (le_lt_dec k (length r)) as [Hk|Hk].
  - specialize (H k). rewrite in_seq in H.
    destruct (loads (firstn k r)); [|reflexivity].
    assert (false = true) by (apply H; lia). discriminate.
  - rewrite firstn_all2 by lia. specialize (H (length r)). rewrite in_seq in H.
    rewrite firstn_all in H.
    destruct (loads r); [|reflexivity].
    assert (false = true) by (apply H; lia). discriminate.
Qed.

(** C10. Whatever the locator returns other than [None] is a string the
    strict decoder accepts: the candidate found by the scan and the
    whole remainder alike are returned only after [json.loads] took
    them. *)
Theorem C10_located_is_strict_json (text json_str : str) :
  _extract_json_object text = Some json_str ->
  exists v, loads json_str = Some v.
Proof. apply extract_sound. Qed.

Lemma C10_located_is_strict_json_witness :
  _extract_json_object (qlit "see {'a': 'b {c}'} ok") = Some (qlit "{'a': 'b {c}'}") /\
  exists v, loads (qlit "{'a': 'b {c}'}") = Some v.
Proof.
  split; [vm_compute; reflexivity|].
  apply (C10_located_is_strict_json (qlit "see {'a': 'b {c}'} ok")).
  vm_compute; reflexivity.
Defined.



(** ** The ladder of tiers *)

(** C9. On a string the strict decoder accepts, the parser returns the
    strict decoding, whatever the later tiers would have made of it. *)
Theorem C9_strict_short_circuits (json_str : str) (v : json) :
  loads json_str = Some v ->
  _safe_parse_json json_str = v /\
  forall second third, parse_with second third json_str = v.
Proof.
  intros H.
  assert (G : forall second third, parse_with second third json_str = v).
  { intros second third. unfold parse_with.
    destruct json_str as [|c s]; [vm_compute in H; discriminate|].
    rewrite H. reflexivity. }
  split; [apply G | exact G].
Qed.

Lemma C9_strict_short_circuits_witness :
  _safe_parse_json (qlit "{'a': 'x  y'}") = JObj [(lit "a", JStr (lit "x  y"))] /\
  forall second third,
    parse_with second third (qlit "{'a': 'x  y'}") = JObj [(lit "a", JStr (lit "x  y"))].
Proof.
  apply (C9_strict_short_circuits (qlit "{'a': 'x  y'}")).
  vm_compute; reflexivity.
Defined.

(** ** The third tier *)

Lemma str_eqb_eq (a b : str) : str_eqb a b = true -> a = b.
Proof. unfold str_eqb. destruct (list_eq_dec N.eq_dec a b); [trivial|discriminate]. Qed.

Lemma str_eqb_refl (a : str) : str_eqb a a = true.
Proof. unfold str_eqb. destruct (list_eq_dec N.eq_dec a a); [reflexivity|contradiction]. Qed.

Ltac dict_keys H :=
  simpl in H;
  repeat match type of H with
         | (_ || _)%bool = true => apply orb_prop in H; destruct H as [H|H]
         | str_eqb _ _ = true => apply str_eqb_eq in H; subst; simpl; tauto
         | false = true => discriminate H
         end.

Lemma tier3_result_fields (json_str : str) :
  let result := tier3_result json_str in
  dict_get F_CATEGORY result
    = option_map JStr (search_group (scalar_field F_CATEGORY) json_str) /\
  dict_get F_TAGS result
    = option_map (fun g => JArr (map JStr (findall QUOTED g)))
                 (search_group TAGS_FIELD json_str) /\
  dict_get F_DESCRIPTION result
    = option_map JStr (search_group (scalar_field F_DESCRIPTION) json_str) /\
  dict_get F_MEMORY result
    = option_map (fun g => JStr (clean_memory g))
                 (search_group MEMORY_FIELD json_str) /\
  forall k, dict_mem k result = true -> In k required_fields.
Proof.
  cbv zeta. unfold tier3_result.
  destruct (search_group (scalar_field F_CATEGORY) json_str),
           (search_group TAGS_FIELD json_str),
           (search_group (scalar_field F_DESCRIPTION) json_str),
           (search_group MEMORY_FIELD json_str);
    (repeat split; try reflexivity; intros k H; dict_keys H).
Qed.

Lemma tier3_cases (json_str : str) :
  tier3 json_str = JObj (tier3_result json_str) /\
    search_group (scalar_field F_CATEGORY) json_str <> None /\
    search_group TAGS_FIELD json_str <> None /\
    search_group (scalar_field F_DESCRIPTION) json_str <> None /\
    search_group MEMORY_FIELD json_str <> None
  \/
  tier3 json_str = JNull /\
    (search_group (scalar_field F_CATEGORY) json_str = None \/
     search_group TAGS_FIELD json_str = None \/
     search_group (scalar_field F_DESCRIPTION) json_str = None \/
     search_group MEMORY_FIELD json_str = None).
Proof.
  unfold tier3, tier3_result.
  destruct (search_group (scalar_field F_CATEGORY) json_str),
           (search_group TAGS_FIELD json_str),
           (search_group (scalar_field F_DESCRIPTION) json_str),
           (search_group MEMORY_FIELD json_str);
    first [ left; repeat split; (reflexivity || discriminate)
          | right; split; [reflexivity | tauto] ].
Qed.

Lemma safe_parse_third (json_str : str) :
  loads json_str = None -> tier2 json_str = None ->
  _safe_parse_json json_str = tier3 json_str.
Proof.
  intros H1 H2. unfold _safe_parse_json, parse_with.
  destruct json_str as [|c s]; [reflexivity|].
  rewrite H1, H2. reflexivity.
Qed.

(** C5. The third tier puts a field into its result exactly when that
    field's pattern matched, with the text the pattern captured and
    nothing else; it returns the result when all four fields are there
    and [None] otherwise. *)
Theorem C5_tier3_all_or_nothing (json_str : str) :
  let category := search_group (scalar_field F_CATEGORY) json_str in
  let tags := search_group TAGS_FIELD json_str in
  let description := search_group (scalar_field F_DESCRIPTION) json_str in
  let memory := search_group MEMORY_FIELD json_str in
  let result := tier3_result json_str in
  (dict_get F_CATEGORY result = option_map JStr category /\
   dict_get F_TAGS result
     = option_map (fun g => JArr (map JStr (findall QUOTED g))) tags /\
   dict_get F_DESCRIPTION result = option_map JStr description /\
   dict_get F_MEMORY result = option_map (fun g => JStr (clean_memory g)) memory /\
   forall k, dict_mem k result = true -> In k required_fields) /\
  (tier3 json_str = JObj result /\
     category <> None /\ tags <> None /\ description <> None /\ memory <> None
   \/
   tier3 json_str = JNull /\
     (category = None \/ tags = None \/ description = None \/ memory = None)) /\
  (loads json_str = None -> tier2 json_str = None ->
   _safe_parse_json json_str = tier3 json_str).
Proof.
  cbv zeta. split; [|split].
  - apply tier3_result_fields.
  - apply tier3_cases.
  - apply safe_parse_third.
Qed.

(** ** White space in the memory field *)

Lemma lstrip_length (s : str) : length (lstrip s) <= length s.
Proof.
  induction s as [|c s IH]; simpl; [lia|].
  destruct (isspace c); simpl; lia.
Qed.

(** A greedy run of white space takes all there is. *)
Lemma greedy_space_accept (n : nat) :
  forall prev s c, length s <= n ->
    exists p, greedy (run Space) accept n prev s c = Some (Hit (lstrip s) p c).
Proof.
  induction n as [|n IH]; intros prev s c Hlen.
  - destruct s; [|simpl in Hlen; lia]. exists prev. reflexivity.
  - destruct s as [|y s].
    + exists prev. reflexivity.
    + simpl. destruct (isspace y) eqn:Ey.
      * assert (L : Nat.ltb (length s) (S (length s)) = true)
          by (apply Nat.ltb_lt; lia).
        change (match length s with 0 => true | S m' => Nat.leb (length s) m' end)
          with (Nat.ltb (length s) (S (length s))).
        rewrite L.
        destruct (IH (Some y) s c) as [p Hp]; [simpl in Hlen; lia|].
        simpl in Hp. rewrite Hp. exists p. reflexivity.
      * exists prev. reflexivity.
Qed.

Lemma match_plus_space (prev : option N) (s : str) :
  match s with
  | y :: s' =>
      if isspace y
      then exists p, match_here (Plus Space) prev s = Some (Hit (lstrip s') p [])
      else match_here (Plus Space) prev s = None
  | [] => match_here (Plus Space) prev s = None
  end.
Proof.
  destruct s as [|y s]; [reflexivity|].
  unfold match_here, Plus. simpl. destruct (isspace y); [|reflexivity].
  apply (greedy_space_accept (length s)). lia.
Qed.

Lemma collapse_true_lstrip (s : str) :
  collapse_from true s = collapse_from false (lstrip s).
Proof.
  induction s as [|c s IH]; simpl; [reflexivity|].
  destruct (isspace c) eqn:E; [exact IH|]. simpl. rewrite E. reflexivity.
Qed.

Lemma sub_from_S (fuel : nat) (r : regex) (repl : str) (prev : option N) (s : str) :
  sub_from (S fuel) r repl prev s =
  match match_here r prev s with
  | Some h =>
      if Nat.ltb (length (after h)) (length s)
      then repl ++ sub_from fuel r repl (before_after h) (after h)
      else match s with
           | [] => repl
           | c :: s' => repl ++ c :: sub_from fuel r repl (Some c) s'
           end
  | None =>
      match s with
      | [] => []
      | c :: s' => c :: sub_from fuel r repl (Some c) s'
      end
  end.
Proof. reflexivity. Qed.

Lemma sub_spaces_collapse (fuel : nat) :
  forall prev s, length s < fuel ->
    sub_from fuel (Plus Space) [SPACE] prev s = collapse_from false s.
Proof.
  induction fuel as [|fuel IH]; intros prev s Hlen; [lia|].
  pose proof (match_plus_space prev s) as M.
  rewrite sub_from_S.
  destruct s as [|y s].
  - rewrite M. reflexivity.
  - simpl collapse_from. destruct (isspace y).
    + destruct M as [p M]. rewrite M. simpl after. simpl before_after.
      pose proof (lstrip_length s) as L.
      assert (T : Nat.ltb (length (lstrip s)) (length (y :: s)) = true)
        by (apply Nat.ltb_lt; simpl; lia).
      rewrite T. rewrite IH by (simpl in Hlen; lia).
      rewrite collapse_true_lstrip. reflexivity.
    + rewrite M. rewrite IH by (simpl in Hlen; lia). reflexivity.
Qed.

Lemma sub_spaces (s : str) : sub (Plus Space) [SPACE] s = collapse_from false s.
Proof. unfold sub. apply sub_spaces_collapse. lia. Qed.

Lemma squeezed_weaken (s : str) : squeezed true s -> squeezed false s.
Proof.
  destruct s as [|c s]; simpl; [trivial|].
  destruct (isspace c); [|trivial]. intros (_ & H & _). discriminate.
Qed.

Lemma collapse_squeezed (s : str) :
  squeezed true (collapse_from true s) /\ squeezed false (collapse_from false s).
Proof.
  induction s as [|c s [IH1 IH2]]; simpl; [split; exact I|].
  destruct (isspace c) eqn:E; simpl.
  - split; [exact IH1|]. change (isspace SPACE) with true. cbv iota.
    repeat split. exact IH1.
  - rewrite E. split; exact IH2.
Qed.

Lemma squeezed_app (a m : str) :
  forall f, squeezed f (a ++ m) -> squeezed false m.
Proof.
  induction a as [|c a IH]; simpl; intros f H.
  - destruct f; [apply squeezed_weaken|]; exact H.
  - destruct (isspace c); [destruct H as (_ & _ & H)|]; eapply IH; exact H.
Qed.

Lemma squeezed_prefix (m b : str) :
  forall f, squeezed f (m ++ b) -> squeezed f m.
Proof.
  induction m as [|c m IH]; simpl; intros f H; [exact I|].
  destruct (isspace c).
  - destruct H as (H1 & H2 & H3). repeat split; trivial. eapply IH; exact H3.
  - eapply IH; exact H.
Qed.

Lemma squeezed_only_spaces (m : str) :
  forall f, squeezed f m -> forall c, In c m -> isspace c = true -> c = SPACE.
Proof.
  induction m as [|x m IH]; simpl; intros f H c Hin Hc; [contradiction|].
  destruct Hin as [->|Hin].
  - rewrite Hc in H. tauto.
  - destruct (isspace x); [destruct H as (_ & _ & H)|]; eapply IH; eauto.
Qed.

Lemma squeezed_no_double (m : str) :
  forall f a b, squeezed f m -> m <> a ++ SPACE :: SPACE :: b.
Proof.
  intros f a b H E. subst m. apply squeezed_app in H. simpl in H.
  change (isspace SPACE) with true in H. cbv iota in H.
  destruct H as (_ & _ & _ & H & _). discriminate.
Qed.

Lemma lstrip_no_lead (s : str) (c : N) (b : str) :
  lstrip s = c :: b -> isspace c = false.
Proof.
  induction s as [|x s IH]; simpl; [discriminate|].
  destruct (isspace x) eqn:E; [exact IH|].
  intros H; injection H as <- _. exact E.
Qed.

Lemma lstrip_split (s : str) : exists a, s = a ++ lstrip s.
Proof.
  destruct (lstrip_suffix s) as [k Hk]. exists (firstn k s).
  rewrite Hk. symmetry. apply firstn_skipn.
Qed.

Lemma rstrip_split (s : str) : exists b, s = rstrip s ++ b.
Proof.
  destruct (rstrip_prefix s) as [k Hk]. exists (skipn k s).
  rewrite Hk. symmetry. apply firstn_skipn.
Qed.

Lemma rstrip_no_trail (s a : str) (c : N) :
  rstrip s = a ++ [c] -> isspace c = false.
Proof.
  unfold rstrip. intros H.
  apply (f_equal (@rev N)) in H. rewrite rev_involutive, rev_app_distr in H.
  simpl in H. eapply lstrip_no_lead; exact H.
Qed.

(** [strip] of a squeezed text is normalised. *)
Lemma strip_squeezed_normalized (t : str) :
  squeezed false t -> ws_normalized (strip t).
Proof.
  intros H. unfold strip.
  destruct (lstrip_split t) as [a Ha].
  destruct (rstrip_split (lstrip t)) as [b Hb].
  assert (Hm : squeezed false (rstrip (lstrip t))).
  { rewrite Ha in H. apply squeezed_app in H. rewrite Hb in H.
    eapply squeezed_prefix; exact H. }
  repeat split.
  - eapply squeezed_only_spaces; exact Hm.
  - intros x y. eapply squeezed_no_double; exact Hm.
  - intros c y E. rewrite E in Hb. simpl in Hb.
    eapply lstrip_no_lead; exact Hb.
  - intros x c E. eapply rstrip_no_trail; exact E.
Qed.

Lemma clean_memory_normalized (memory : str) : ws_normalized (clean_memory memory).
Proof.
  unfold clean_memory. rewrite sub_spaces.
  apply strip_squeezed_normalized, collapse_squeezed.
Qed.

Lemma C5_tier3_all_or_nothing_witness :
  _safe_parse_json Samples.broken_record
    = JObj [(F_CATEGORY, JStr (lit "c"));
            (F_TAGS, JArr [JStr (lit "t1"); JStr (lit "t2")]);
            (F_DESCRIPTION, JStr (lit "d"));
            (F_MEMORY, JStr (lit "m x"))] /\
  _safe_parse_json Samples.partial_record = JNull.
Proof.
  split.
  - destruct (C5_tier3_all_or_nothing Samples.broken_record) as (_ & _ & H).
    rewrite H by (vm_compute; reflexivity). vm_compute; reflexivity.
  - destruct (C5_tier3_all_or_nothing Samples.partial_record) as (_ & _ & H).
    rewrite H by (vm_compute; reflexivity). vm_compute; reflexivity.
Defined.

(** C8, as stated, fails: a record the strict decoder reads is accepted
    as it is, with the two spaces of its memory. *)
Lemma C8_counterexample :
  exists d m,
    judge (Content Samples.strict_record) = Return (JObj d) /\
    dict_get F_MEMORY d = Some (JStr m) /\
    ~ ws_normalized m.
Proof.
  eexists. exists (lit "x  y"). split; [vm_compute; reflexivity|].
  split; [vm_compute; reflexivity|].
  intros (_ & H & _). apply (H (lit "x") (lit "y")). reflexivity.
Qed.

(** C8, amended. In every record the third tier of the parser produces,
    the memory field is white-space normalised: only plain spaces, never
    two in a row, none at either end. *)
Theorem C8_tier3_memory_normalized (json_str : str) (d : dict) :
  loads json_str = None -> tier2 json_str = None ->
  _safe_parse_json json_str = JObj d ->
  exists m, dict_get F_MEMORY d = Some (JStr m) /\ ws_normalized m.
Proof.
  intros H1 H2 H. rewrite (safe_parse_third _ H1 H2) in H.
  destruct (tier3_cases json_str) as [(E & _ & _ & _ & Hm) | (E & _)];
    rewrite E in H; [|discriminate].
  injection H as <-.
  destruct (tier3_result_fields json_str) as (_ & _ & _ & G & _).
  destruct (search_group MEMORY_FIELD json_str) as [g|]; [|contradiction].
  exists (clean_memory g). split; [exact G | apply clean_memory_normalized].
Qed.

Lemma C8_tier3_memory_normalized_witness :
  exists m,
    dict_get F_MEMORY
      [(F_CATEGORY, JStr (lit "c"));
       (F_TAGS, JArr [JStr (lit "t1"); JStr (lit "t2")]);
       (F_DESCRIPTION, JStr (lit "d"));
       (F_MEMORY, JStr (lit "m x"))] = Some (JStr m) /\ ws_normalized m.
Proof.
  apply (C8_tier3_memory_normalized Samples.broken_record);
    vm_compute; reflexivity.
Defined.

(** ** The retrying call *)

Lemma judge_failure (r : response) : failure r -> judge r = Retry true.
Proof.
  intros [ | c H | c s H1 H2 | c s H1 H2 H3]; simpl.
  - reflexivity.
  - rewrite H. reflexivity.
  - rewrite H1. destruct s; rewrite ?H2; reflexivity.
  - rewrite H1. destruct s; [reflexivity|]. rewrite H2, H3. reflexivity.
Qed.

Lemma judge_valid (r : response) (record : json) :
  valid r record <-> judge r = Return record.
Proof.
  split.
  - intros (c & s & -> & H1 & H2 & H3 & H4). simpl. rewrite H1.
    destruct s as [|x s].
    + subst record. discriminate H3.
    + rewrite H2, H3, H4. reflexivity.
  - destruct r as [ | | |c]; simpl; try discriminate.
    destruct (_extract_json_object c) as [[|x s]|] eqn:E; try discriminate.
    destruct (truthy (_safe_parse_json (x :: s))) eqn:T; [|discriminate].
    destruct (has_required (_safe_parse_json (x :: s))) as [[|]|] eqn:Hr;
      try discriminate.
    intros H; injection H as <-.
    exists c, (x :: s). repeat split; assumption.
Qed.

Lemma judge_invalid (r : response) :
  (forall record, ~ valid r record) -> exists paused, judge r = Retry paused.
Proof.
  intros H. destruct (judge r) as [v|p] eqn:E.
  - exfalso. apply (H v). apply judge_valid. exact E.
  - exists p. reflexivity.
Qed.

Lemma posts_app (a b : list event) : posts (a ++ b) = posts a + posts b.
Proof.
  induction a as [|e a IH]; simpl; [reflexivity|].
  destruct e; simpl; rewrite IH; reflexivity.
Qed.

Section RetryingCall.

Variable RS : Type.
Variable send : RS -> str -> response * RS.
Variable self : client.
Variable prompt : str.

Lemma replies_length (n : nat) : forall rs, length (replies send prompt n rs) = n.
Proof. induction n as [|n IH]; intros rs; simpl; [|rewrite IH]; reflexivity. Qed.

Lemma replies_firstn (k : nat) :
  forall n rs, k <= n -> firstn k (replies send prompt n rs) = replies send prompt k rs.
Proof.
  induction k as [|k IH]; intros n rs H; [reflexivity|].
  destruct n as [|n]; [lia|]. simpl. rewrite IH by lia. reflexivity.
Qed.

Lemma replies_nth (k : nat) :
  forall n rs, k < n ->
    nth_error (replies send prompt n rs) k = Some (fst (send (after_sends send prompt k rs) prompt)).
Proof.
  induction k as [|k IH]; intros n rs H; (destruct n as [|n]; [lia|]); simpl.
  - reflexivity.
  - apply IH. lia.
Qed.

Lemma posts_rounds (rs : list response) :
  forall attempt, posts (rounds self prompt attempt rs) = length rs.
Proof.
  induction rs as [|r rs IH]; intros attempt; simpl; [reflexivity|].
  rewrite posts_app, IH.
  replace (posts match judge r with
                 | Retry true => pause_events self attempt
                 | _ => []
                 end) with 0; [reflexivity|].
  destruct (judge r) as [|[|]]; try reflexivity.
  unfold pause_events. destruct (_ <? _)%Z; reflexivity.
Qed.

(** Listed failures while attempts remain: a call and a pause each. *)
Lemma rounds_paced (k : nat) :
  forall rs, length rs = k -> Forall failure rs ->
    rounds self prompt 0 rs = paced self prompt k.
Proof.
  unfold paced.
  assert (G : forall rs a, Forall failure rs ->
            rounds self prompt (Z.of_nat a) rs
            = flat_map (fun i => Post prompt :: pause_events self (Z.of_nat i))
                       (seq a (length rs))).
  { induction rs as [|r rs IH]; intros a HF; [reflexivity|].
    inversion HF as [|? ? Hr HF']; subst. simpl.
    rewrite (judge_failure _ Hr). f_equal. f_equal.
    replace (Z.of_nat a + 1)%Z with (Z.of_nat (S a)) by lia.
    apply IH. exact HF'. }
  intros rs <- HF. apply (G rs 0 HF).
Qed.

Lemma pause_trace (attempt : Z) (w : world RS) :
  pause self attempt w
  = World (remote w) (files w) (trace w ++ pause_events self attempt).
Proof.
  unfold pause, pause_events, sleep, log.
  destruct (_ <? _)%Z; [reflexivity|].
  rewrite app_nil_r. destruct w; reflexivity.
Qed.

(** One failed attempt. *)
Lemma attempts_retry (todo : nat) (attempt : Z) (w : world RS) (paused : bool) :
  judge (fst (send (remote w) prompt)) = Retry paused ->
  attempts send self prompt (S todo) attempt w
  = attempts send self prompt todo (attempt + 1)
      (World (snd (send (remote w) prompt)) (files w)
             (trace w ++ rounds self prompt attempt [fst (send (remote w) prompt)])).
Proof.
  intros H. simpl. unfold post.
  destruct (send (remote w) prompt) as [r rs]. simpl in *. rewrite H.
  destruct paused.
  - rewrite pause_trace. simpl. rewrite <- app_assoc, app_nil_r. reflexivity.
  - reflexivity.
Qed.

(** One attempt whose reply passes. *)
Lemma attempts_return (todo : nat) (attempt : Z) (w : world RS) (record : json) :
  judge (fst (send (remote w) prompt)) = Return record ->
  attempts send self prompt (S todo) attempt w
  = (record, World (snd (send (remote w) prompt)) (files w)
                   (trace w ++ [Post prompt])).
Proof.
  intros H. simpl. unfold post.
  destruct (send (remote w) prompt) as [r rs]. simpl in *. rewrite H.
  reflexivity.
Qed.

(** [k] failed attempts in a row. *)
Lemma attempts_failures (k : nat) :
  forall todo attempt w,
    (forall r, In r (replies send prompt k (remote w)) -> exists p, judge r = Retry p) ->
    attempts send self prompt (k + todo) attempt w
    = attempts send self prompt todo (attempt + Z.of_nat k)
        (World (after_sends send prompt k (remote w)) (files w)
               (trace w ++ rounds self prompt attempt (replies send prompt k (remote w)))).
Proof.
  induction k as [|k IH]; intros todo attempt w H.
  - simpl. rewrite app_nil_r, Z.add_0_r. destruct w; reflexivity.
  - destruct (H (fst (send (remote w) prompt))) as [p Hp]; [left; reflexivity|].
    change (S k + todo) with (S (k + todo)).
    rewrite (attempts_retry _ _ _ _ Hp).
    rewrite IH.
    + simpl remote. simpl files. simpl trace.
      replace (attempt + 1 + Z.of_nat k)%Z with (attempt + Z.of_nat (S k))%Z by lia.
      f_equal. f_equal. rewrite <- app_assoc. f_equal.
      simpl. rewrite Hp. rewrite <- !app_assoc. simpl. reflexivity.
    + intros r Hr. apply H. right. exact Hr.
Qed.

Lemma since_app (w : world RS) (rs : RS) (fs : store) (new : list event) :
  since w (World rs fs (trace w ++ new)) = new.
Proof.
  unfold since. simpl. rewrite skipn_app, Nat.sub_diag, skipn_all. reflexivity.
Qed.

(** The number of calls never exceeds the iterations left, and the files
    are not touched. *)
Lemma attempts_bound (todo : nat) :
  forall attempt w,
    exists new,
      trace (snd (attempts send self prompt todo attempt w)) = trace w ++ new /\
      posts new <= todo /\
      files (snd (attempts send self prompt todo attempt w)) = files w.
Proof.
  induction todo as [|todo IH]; intros attempt w.
  - exists []. simpl. rewrite app_nil_r. auto.
  - destruct (judge (fst (send (remote w) prompt))) as [v|p] eqn:E.
    + rewrite (attempts_return _ _ _ _ E). exists [Post prompt]. simpl.
      repeat split. lia.
    + rewrite (attempts_retry _ _ _ _ E).
      match goal with |- context [attempts _ _ _ todo ?a ?w'] =>
        destruct (IH a w') as (new & H1 & H2 & H3) end.
      exists (rounds self prompt attempt [fst (send (remote w) prompt)] ++ new).
      rewrite H1, H3. cbn [trace files].
      rewrite app_assoc, posts_app, posts_rounds. cbn [length].
      repeat split. lia.
Qed.

(** A reply that passes after [k] that do not. *)
Lemma call_llm_first_valid (w : world RS) (k : nat) (record : json) :
  k < Z.to_nat (max_retries self) ->
  (forall r, In r (replies send prompt k (remote w)) -> forall v, ~ valid r v) ->
  valid (fst (send (after_sends send prompt k (remote w)) prompt)) record ->
  call_llm send self prompt w
  = (record, World (snd (send (after_sends send prompt k (remote w)) prompt)) (files w)
                   (trace w ++ rounds self prompt 0 (replies send prompt k (remote w)) ++ [Post prompt])).
Proof.
  intros Hk Hbad Hgood. unfold call_llm.
  replace (Z.to_nat (max_retries self))
    with (k + S (Z.to_nat (max_retries self) - S k)) by lia.
  rewrite attempts_failures
    by (intros r Hr; apply judge_invalid; apply Hbad; exact Hr).
  apply judge_valid in Hgood.
  match goal with |- attempts _ _ _ (S ?t) ?a ?w' = _ =>
    rewrite (attempts_return t a w' record Hgood) end.
  cbn [remote files trace]. rewrite <- app_assoc. reflexivity.
Qed.

(** No reply passes. *)
Lemma call_llm_exhausted (w : world RS) :
  (forall r, In r (replies send prompt (Z.to_nat (max_retries self)) (remote w)) ->
             forall v, ~ valid r v) ->
  call_llm send self prompt w
  = (JNull, World (after_sends send prompt (Z.to_nat (max_retries self)) (remote w)) (files w)
                  (trace w ++ rounds self prompt 0 (replies send prompt (Z.to_nat (max_retries self))
                                                (remote w)))).
Proof.
  intros Hbad. unfold call_llm.
  replace (Z.to_nat (max_retries self))
    with (Z.to_nat (max_retries self) + 0) at 1 by lia.
  rewrite attempts_failures
    by (intros r Hr; apply judge_invalid; apply Hbad; exact Hr).
  reflexivity.
Qed.

End RetryingCall.

Lemma paced_before_last (self : client) (prompt : str) (k : nat) :
  k < Z.to_nat (max_retries self) ->
  paced self prompt k = concat (repeat (round self prompt) k).
Proof.
  intros Hk. unfold paced.
  assert (G : forall m a, a + m < Z.to_nat (max_retries self) ->
            flat_map (fun i => Post prompt :: pause_events self (Z.of_nat i)) (seq a m)
            = concat (repeat (round self prompt) m)).
  { induction m as [|m IH]; intros a H; [reflexivity|].
    simpl. rewrite IH by lia. unfold pause_events.
    destruct (Z.ltb_spec (Z.of_nat a) (max_retries self - 1)); [reflexivity|lia]. }
  apply G. lia.
Qed.

Lemma paced_all (self : client) (prompt : str) (n : nat) :
  S n = Z.to_nat (max_retries self) ->
  paced self prompt (S n) = concat (repeat (round self prompt) n) ++ [Post prompt].
Proof.
  intros Hn. unfold paced. rewrite seq_S, flat_map_app.
  change (flat_map _ (seq 0 n)) with (paced self prompt n).
  rewrite paced_before_last by lia. simpl. unfold pause_events.
  destruct (Z.ltb_spec (Z.of_nat n) (max_retries self - 1)); [lia|reflexivity].
Qed.

Lemma failure_invalid (r : response) : failure r -> forall v, ~ valid r v.
Proof.
  intros H v Hv. apply judge_failure in H. apply judge_valid in Hv.
  rewrite H in Hv. discriminate.
Qed.

Lemma In_replies_nth {RS : Type} (send : RS -> str -> response * RS)
      (prompt : str) (n k : nat) (rs : RS) (r : response) :
  k <= n -> In r (replies send prompt k rs) ->
  exists j, j < k /\ nth_error (replies send prompt n rs) j = Some r.
Proof.
  intros Hk Hin. apply In_nth_error in Hin. destruct Hin as [j Hj].
  assert (j < k).
  { rewrite <- (replies_length RS send prompt k rs). apply nth_error_Some.
    rewrite Hj. discriminate. }
  exists j. split; [assumption|].
  rewrite <- (replies_firstn RS send prompt k n rs Hk) in Hj.
  rewrite nth_error_firstn in Hj.
  destruct (Nat.ltb_spec j k); [exact Hj | lia].
Qed.

Lemma nth_replies_lt {RS : Type} (send : RS -> str -> response * RS)
      (prompt : str) (n k : nat) (rs : RS) (r : response) :
  nth_error (replies send prompt n rs) k = Some r -> k < n.
Proof.
  intros H. rewrite <- (replies_length RS send prompt n rs).
  apply nth_error_Some. rewrite H. discriminate.
Qed.



(** ** Fence stripping *)

Lemma last_of_snoc (prev : option N) (a : str) (c : N) :
  last_of prev (a ++ [c]) = Some c.
Proof. unfold last_of. rewrite rev_app_distr. reflexivity. Qed.

Lemma last_of_cons (prev : option N) (c : N) (a : str) :
  last_of prev (c :: a) = last_of (Some c) a.
Proof.
  unfold last_of. simpl. destruct (rev a) as [|x r] eqn:E; reflexivity.
Qed.

Lemma last_of_line_start (a : str) :
  match last_of None a with None => true | Some p => N.eqb p LF end = true ->
  a = [] \/ exists a', a = a' ++ [LF].
Proof.
  unfold last_of. destruct (rev a) as [|c r] eqn:E.
  - intros _. left. apply (f_equal (@rev N)) in E.
    rewrite rev_involutive in E. exact E.
  - intros H. apply N.eqb_eq in H. subst c. right. exists (rev r).
    apply (f_equal (@rev N)) in E. rewrite rev_involutive in E. exact E.
Qed.

Lemma starts_with_split (p s : str) :
  starts_with p s = true <-> exists b, s = p ++ b.
Proof.
  revert s; induction p as [|x p IH]; intros s; simpl.
  - split; [intros _; exists s; reflexivity | trivial].
  - destruct s as [|y s].
    + split; [discriminate | intros [b H]; discriminate].
    + split.
      * intros H. apply andb_prop in H. destruct H as [H1 H2].
        apply N.eqb_eq in H1. subst y. apply IH in H2. destruct H2 as [b ->].
        exists b. reflexivity.
      * intros [b H]. injection H as -> ->. rewrite N.eqb_refl. simpl.
        apply IH. exists b. reflexivity.
Qed.

(** If nothing matches at any position, [sub] leaves the text as it is. *)
Lemma sub_from_unmatched (r : regex) (repl : str) (fuel : nat) :
  forall prev s,
    length s < fuel ->
    (forall a b, s = a ++ b -> match_here r (last_of prev a) b = None) ->
    sub_from fuel r repl prev s = s.
Proof.
  induction fuel as [|fuel IH]; intros prev s Hlen H; [lia|].
  rewrite sub_from_S.
  pose proof (H [] s eq_refl) as H0. change (last_of prev []) with prev in H0.
  rewrite H0.
  destruct s as [|c s]; [reflexivity|]. f_equal.
  apply IH; [simpl in Hlen; lia|].
  intros a b E. rewrite <- (last_of_cons prev). apply H. rewrite E. reflexivity.
Qed.

Lemma sub_unmatched (r : regex) (repl s : str) :
  (forall a b, s = a ++ b -> match_here r (last_of None a) b = None) ->
  sub r repl s = s.
Proof. intros H. unfold sub. apply sub_from_unmatched; [lia | exact H]. Qed.

(** A greedy run of white space before any continuation: what it took is
    white space, and the continuation took over where it stopped. *)
Lemma greedy_space_inv (A : Type) (k : cont A) (n : nat) :
  forall prev s c a,
    greedy (run Space) k n prev s c = Some a ->
    exists w b p,
      s = w ++ b /\ Forall (fun x => isspace x = true) w /\ k p b c = Some a.
Proof.
  induction n as [|n IH]; intros prev s c a H.
  - exists [], s, prev. repeat split; [constructor | exact H].
  - simpl in H. destruct s as [|y s].
    + exists [], [], prev. repeat split; [constructor | exact H].
    + destruct (isspace y) eqn:Ey.
      * destruct (if Nat.ltb (length s) (length (y :: s))
                  then greedy (run Space) k n (Some y) s c else None)
          as [a'|] eqn:E.
        -- simpl in E, H. rewrite E in H. injection H as <-.
           destruct (Nat.ltb (length s) (S (length s))); [|discriminate].
           destruct (IH _ _ _ _ E) as (w & b & p & -> & Hw & Hk).
           exists (y :: w), b, p. repeat split; [constructor; assumption | exact Hk].
        -- simpl in E, H. rewrite E in H.
           exists [], (y :: s), prev. repeat split; [constructor | exact H].
      * exists [], (y :: s), prev. repeat split; [constructor | exact H].
Qed.

Lemma run_cat_bol (A : Type) (r : regex) (prev : option N) (s : str)
      (c : caps) (k : cont A) (a : A) :
  run (Cat Bol r) prev s c k = Some a ->
  match prev with None => true | Some p => N.eqb p LF end = true /\
  run r prev s c k = Some a.
Proof.
  simpl. destruct prev as [p|]; [|auto].
  destruct (N.eqb p LF); [auto | discriminate].
Qed.

Lemma run_cat_chr (A : Type) (x : N) (r : regex) (prev : option N) (s : str)
      (c : caps) (k : cont A) (a : A) :
  run (Cat (Chr x) r) prev s c k = Some a ->
  exists s', s = x :: s' /\ run r (Some x) s' c k = Some a.
Proof.
  simpl. destruct s as [|y s]; [discriminate|].
  destruct (N.eqb_spec y x) as [->|]; [|discriminate].
  intros H. exists s. auto.
Qed.

Lemma fence_open_match (prev : option N) (s : str) (h : hit) :
  match_here FENCE_OPEN prev s = Some h ->
  match prev with None => true | Some p => N.eqb p LF end = true /\
  exists b, s = FENCE ++ b.
Proof.
  unfold match_here. intros H.
  change (run FENCE_OPEN prev s [])
    with (run (A:=hit)
              (Cat Bol (Cat (Chr 96) (Cat (Chr 96) (Cat (Chr 96)
                 (Cat (Opt (Lits (lit "json"))) (Star Space))))))
              prev s []) in H.
  apply run_cat_bol in H. destruct H as [Hp H]. split; [exact Hp|].
  apply run_cat_chr in H. destruct H as (s1 & -> & H).
  apply run_cat_chr in H. destruct H as (s2 & -> & H).
  apply run_cat_chr in H. destruct H as (s3 & -> & H).
  exists s3. reflexivity.
Qed.

Lemma fence_close_match (prev : option N) (s : str) (h : hit) :
  match_here FENCE_CLOSE prev s = Some h ->
  exists w b,
    s = FENCE ++ w ++ b /\ Forall (fun c => isspace c = true) w /\
    (b = [] \/ exists b', b = LF :: b').
Proof.
  unfold match_here. intros H.
  change (run FENCE_CLOSE prev s [])
    with (run (A:=hit)
              (Cat (Chr 96) (Cat (Chr 96) (Cat (Chr 96) (Cat (Star Space) Eol))))
              prev s []) in H.
  apply run_cat_chr in H. destruct H as (s1 & -> & H).
  apply run_cat_chr in H. destruct H as (s2 & -> & H).
  apply run_cat_chr in H. destruct H as (s3 & -> & H).
  change (greedy (run (A:=hit) Space)
            (fun prev' s' c' =>
               run Eol prev' s' c' (fun prev' s' c' => Some (Hit s' prev' c')))
            (length s3) (Some 96%N) s3 [] = Some h) in H.
  apply greedy_space_inv in H. destruct H as (w & b & p & -> & Hw & Hk).
  exists w, b. repeat split; [exact Hw|].
  simpl in Hk. destruct b as [|y b]; [left; reflexivity|].
  destruct (N.eqb_spec y LF) as [->|]; [|discriminate].
  right. exists b. reflexivity.
Qed.

Lemma no_open_match (text : str) :
  ~ fence_starts_line text ->
  forall a b, text = a ++ b -> match_here FENCE_OPEN (last_of None a) b = None.
Proof.
  intros H a b E.
  destruct (match_here FENCE_OPEN (last_of None a) b) as [h|] eqn:M; [|reflexivity].
  exfalso. apply H. apply fence_open_match in M. destruct M as [Hp [b' ->]].
  exists a, b'. split; [exact E | apply last_of_line_start; exact Hp].
Qed.

Lemma no_close_match (text : str) :
  ~ fence_ends_line text ->
  forall a b, text = a ++ b -> match_here FENCE_CLOSE (last_of None a) b = None.
Proof.
  intros H a b E.
  destruct (match_here FENCE_CLOSE (last_of None a) b) as [h|] eqn:M; [|reflexivity].
  exfalso. apply H. apply fence_close_match in M.
  destruct M as (w & b' & -> & Hw & Hb).
  exists a, w, b'. repeat split; assumption.
Qed.

Lemma strip_markdown_fences_inside (text : str) :
  ~ fence_starts_line text -> ~ fence_ends_line text ->
  strip_markdown text = strip text.
Proof.
  intros H1 H2. unfold strip_markdown.
  rewrite (sub_unmatched _ _ _ (no_open_match _ H1)).
  rewrite (sub_unmatched _ _ _ (no_close_match _ H2)).
  reflexivity.
Qed.

Lemma starts_line_check_spec (s : str) :
  forall prev, starts_line_check prev s = false ->
  forall a b, s = a ++ FENCE ++ b ->
    match last_of prev a with None => true | Some p => N.eqb p LF end = false.
Proof.
  induction s as [|c s IH]; intros prev H a b E.
  - destruct a; discriminate.
  - destruct a as [|x a].
    + simpl in E. change (last_of prev []) with prev.
      cbn [starts_line_check] in H. apply orb_false_elim in H. destruct H as [H _].
      assert (S : starts_with FENCE (c :: s) = true)
        by (apply starts_with_split; exists b; exact E).
      rewrite S, andb_true_r in H. exact H.
    + injection E as <- E. rewrite last_of_cons.
      cbn [starts_line_check] in H. apply orb_false_elim in H. destruct H as [_ H].
      exact (IH _ H a b E).
Qed.

Lemma starts_line_check_sound (text : str) :
  starts_line_check None text = false -> ~ fence_starts_line text.
Proof.
  intros H (a & b & E & Ha).
  pose proof (starts_line_check_spec _ _ H _ _ E) as G.
  destruct Ha as [->|[a' ->]].
  - discriminate G.
  - rewrite last_of_snoc in G. discriminate G.
Qed.

Lemma eol_after_spaces_intro (w b : str) :
  Forall (fun c => isspace c = true) w ->
  (b = [] \/ exists b', b = LF :: b') ->
  eol_after_spaces (w ++ b) = true.
Proof.
  intros Hw Hb. induction Hw as [|c w Hc Hw IH]; simpl.
  - destruct Hb as [->|[b' ->]]; reflexivity.
  - rewrite Hc, IH. apply orb_true_r.
Qed.

Lemma ends_line_check_sound (text : str) :
  ends_line_check text = false -> ~ fence_ends_line text.
Proof.
  intros H (a & w & b & E & Hw & Hb). subst text.
  induction a as [|c a IH].
  - simpl in H. rewrite (eol_after_spaces_intro _ _ Hw Hb) in H. discriminate.
  - apply IH. change ((c :: a) ++ FENCE ++ w ++ b)
      with (c :: (a ++ FENCE ++ w ++ b)) in H.
    cbn [ends_line_check] in H. apply orb_false_elim in H. apply H.
Qed.

(** C7, as stated, fails: a fence on a line of its own in the middle of
    the text is removed, with the line break after it. *)
Lemma C7_counterexample :
  exists first middle last,
    contains FENCE middle = true /\
    contains FENCE (strip_markdown (first ++ [LF] ++ middle ++ [LF] ++ last)) = false /\
    strip_markdown (first ++ [LF] ++ middle ++ [LF] ++ last) = first ++ [LF] ++ last.
Proof.
  exists (lit "first"), (lit "```"), (lit "last").
  repeat split; vm_compute; reflexivity.
Qed.

(** C7, amended. The strip is anchored to lines, any line of the text:
    what it removes is a fence at the start of a line or a fence with
    only white space after it on its line. A text whose fences are all
    inside their lines, none starting a line and none ending one, comes
    out as it went in, but for the final [strip]. *)
Theorem C7_fences_inside_lines_survive (text : str) :
  ~ fence_starts_line text -> ~ fence_ends_line text ->
  strip_markdown text = strip text.
Proof. apply strip_markdown_fences_inside. Qed.

Lemma C7_fences_inside_lines_survive_witness :
  strip_markdown (qlit " {'d': 'use ```x``` here'} see ```y``` above")
  = qlit "{'d': 'use ```x``` here'} see ```y``` above".
Proof.
  rewrite (C7_fences_inside_lines_survive
             (qlit " {'d': 'use ```x``` here'} see ```y``` above")).
  - vm_compute; reflexivity.
  - apply starts_line_check_sound. vm_compute; reflexivity.
  - apply ends_line_check_sound. vm_compute; reflexivity.
Defined.

(** ** The driver: what a run does to the progress log and the results *)

Lemma steps_app (pn on : str) (s1 s2 s3 : status) (t1 t2 : list event) :
  steps pn on s1 t1 s2 -> steps pn on s2 t2 s3 -> steps pn on s1 (t1 ++ t2) s3.
Proof.
  intros H1 H2. induction H1 as [s|s1 e s2 t s2' Hs Ht IH]; simpl.
  - exact H2.
  - econstructor; [exact Hs | apply IH; exact H2].
Qed.

Lemma steps_one (pn on : str) (s1 s2 : status) (e : event) :
  step pn on s1 e s2 -> steps pn on s1 [e] s2.
Proof. intros H. econstructor; [exact H | constructor]. Qed.

(** The machine keeps the two lists in agreement, and the lists grow by
    what is appended. *)
Lemma steps_invariant (pn on : str) (s1 s2 : status) (t : list event) :
  steps pn on s1 t s2 ->
  forall p r, s1 = (Idle, p, r) ->
  forall p' r', s2 = (Idle, p', r') ->
    (consistent p r -> consistent p' r') /\
    p' = p ++ appended t /\ r' = r ++ appended_results t.
Proof.
  assert (G : forall s1 t s2, steps pn on s1 t s2 ->
    forall p' r', s2 = (Idle, p', r') ->
    match s1 with
    | (Idle, p, r) =>
        (consistent p r -> consistent p' r') /\
        p' = p ++ appended t /\ r' = r ++ appended_results t
    | (ResultAppended e, p, r) =>
        (consistent p r -> consistent p' r') /\
        (exists f t', t = AppendProcessed f :: t' /\
           p' = p ++ f :: appended t' /\ r' = r ++ e :: appended_results t')
    | (ProgressWritten, p, r) =>
        (consistent p r -> consistent p' r') /\
        p' = p ++ appended t /\ r' = r ++ appended_results t
    end).
  { clear. intros s1 t s2 H. induction H as [s|s1 e s2 t s3 Hs Ht IH];
      intros p' r' E.
    - subst s. rewrite !app_nil_r. auto.
    - specialize (IH p' r' E).
      destruct Hs; simpl.
      + exact IH.
      + exact IH.
      + destruct IH as (IH1 & f & t' & -> & -> & ->). simpl.
        repeat split; auto.
      + destruct IH as (IH1 & -> & ->). split.
        * intros C. apply IH1. unfold consistent in *.
          rewrite !map_app. simpl. congruence.
        * exists f, t. rewrite <- !app_assoc. auto.
      + exact IH.
      + exact IH. }
  intros H p r -> p' r' E. apply (G _ _ _ H p' r' E).
Qed.

(** Every write of the progress file is followed at once by the write of
    the result file, and what the two hold agrees. *)
Lemma steps_saves (pn on : str) (s1 s2 : status) (t : list event) :
  steps pn on s1 t s2 ->
  forall p r, s1 = (Idle, p, r) -> consistent p r ->
  forall p2 r2, s2 = (Idle, p2, r2) ->
  forall a name p' c b,
    t = a ++ Write name (ProgressData p' c) :: b ->
    name = pn /\ c = Z.of_nat (length p') /\
    exists r' b', b = Write on (ResultsData r') :: b' /\ consistent p' r'.
Proof.
  assert (G : forall s1 t s2, steps pn on s1 t s2 ->
    forall p2 r2, s2 = (Idle, p2, r2) ->
    forall a name p' c b,
      t = a ++ Write name (ProgressData p' c) :: b ->
      match s1 with
      | (Idle, p, r) => consistent p r
      | (ResultAppended e, p, r) => consistent p r
      | (ProgressWritten, p, r) => consistent p r
      end ->
      name = pn /\ c = Z.of_nat (length p') /\
      exists r' b', b = Write on (ResultsData r') :: b' /\ consistent p' r').
  { clear. intros s1 t s2 H. induction H as [s|s1 e s2 t s3 Hs Ht IH];
      intros p2 r2 E2 a name p' c b E C.
    - destruct a; discriminate.
    - destruct a as [|x a].
      + simpl in E. injection E as -> ->.
        inversion Hs; subst.
        inversion Ht as [|? ? ? ? ? Hs2 Ht2]; subst; try discriminate.
        inversion Hs2; subst.
        repeat split. eexists _, _. split; [reflexivity | exact C].
      + simpl in E. injection E as -> E.
        apply (IH p2 r2 E2 a name p' c b E).
        destruct Hs; try exact C.
        unfold consistent in *. rewrite !map_app. simpl. congruence. }
  intros H p r -> C p2 r2 E2 a name p' c b E.
  apply (G _ _ _ H p2 r2 E2 a name p' c b E). exact C.
Qed.

Section DriverProperties.

Variable RS : Type.
Variable send : RS -> str -> response * RS.
Variable conversation : Type.
Variable extract_conversation_data : str -> option conversation.
Variable make_prompt : conversation -> str.
Variable cfg : config.
Variable timestamp : str.

Let pn : str := progress_file cfg timestamp.
Let on : str := output_file cfg timestamp.

Let run_file := process_file send extract_conversation_data make_prompt cfg timestamp.
Let run_files := process_files send extract_conversation_data make_prompt cfg timestamp.

(** The retrying call only posts and sleeps. *)
Lemma attempts_steps (self : client) (prompt : str) (todo : nat) :
  forall attempt (w : world RS),
    exists new,
      trace (snd (attempts send self prompt todo attempt w)) = trace w ++ new /\
      files (snd (attempts send self prompt todo attempt w)) = files w /\
      appended new = [] /\
      forall p r, steps pn on (Idle, p, r) new (Idle, p, r).
Proof.
  induction todo as [|todo IH]; intros attempt w.
  - exists []. simpl. rewrite app_nil_r. repeat split. intros; constructor.
  - destruct (judge (fst (send (remote w) prompt))) as [v|paused] eqn:E.
    + rewrite (attempts_return _ _ _ _ _ _ _ _ E). exists [Post prompt]. simpl.
      repeat split. intros. apply steps_one. constructor.
    + rewrite (attempts_retry _ _ _ _ _ _ _ _ E).
      match goal with |- context [attempts _ _ _ todo ?a ?w'] =>
        destruct (IH a w') as (new & H1 & H2 & H3 & H4) end.
      exists (rounds self prompt attempt [fst (send (remote w) prompt)] ++ new).
      rewrite H1, H2. cbn [trace files]. rewrite app_assoc.
      assert (R : exists l, rounds self prompt attempt [fst (send (remote w) prompt)]
                            = Post prompt :: l /\
                            (l = [] \/ l = [Sleep (retry_interval self)])).
      { simpl. rewrite E. unfold pause_events.
        destruct paused; [destruct (_ <? _)%Z|]; eexists; split;
          try reflexivity; auto. }
      destruct R as (l & -> & Hl).
      repeat split.
      * simpl. destruct Hl as [->| ->]; exact H3.
      * intros p r. apply steps_app with (s2 := (Idle, p, r)); [|apply H4].
        econstructor; [constructor|].
        destruct Hl as [->| ->]; [constructor | apply steps_one; constructor].
Qed.

(** One file: the effects follow the discipline, whatever the outcome. *)
Lemma process_file_steps (total idx : nat) (file_path : str) (r : run_state RS) :
  exists new,
    trace (now (run_file total idx file_path r)) = trace (now r) ++ new /\
    steps pn on (Idle, processed_files r, results r) new
          (Idle, processed_files (run_file total idx file_path r),
                 results (run_file total idx file_path r)).
Proof.
  unfold run_file, process_file.
  destruct (extract_conversation_data file_path) as [cd|].
  2:{ exists []. simpl. rewrite app_nil_r. split; [reflexivity | constructor]. }
  unfold call_llm.
  destruct (attempts_steps (llm_client cfg) (make_prompt cd)
              (Z.to_nat (max_retries (llm_client cfg))) 0 (now r))
    as (new1 & H1 & _ & _ & H4).
  destruct (attempts send (llm_client cfg) (make_prompt cd)
              (Z.to_nat (max_retries (llm_client cfg))) 0 (now r))
    as [analysis_result w] eqn:E.
  cbn [snd] in H1.
  destruct (truthy analysis_result).
  - set (e := Entry (basename file_path) analysis_result).
    assert (S2 : steps pn on (Idle, processed_files r, results r)
                   (new1 ++ [AppendResult e; AppendProcessed file_path])
                   (Idle, processed_files r ++ [file_path], results r ++ [e])).
    { apply steps_app with (s2 := (Idle, processed_files r, results r)); [apply H4|].
      econstructor; [constructor|]. apply steps_one. constructor. reflexivity. }
    destruct (Z.of_nat (length (processed_files r ++ [file_path])) mod 10 =? 0)%Z.
    + assert (S3 : steps pn on (Idle, processed_files r, results r)
                     ((new1 ++ [AppendResult e; AppendProcessed file_path])
                      ++ [Write pn (ProgressData (processed_files r ++ [file_path])
                                      (Z.of_nat (length (processed_files r ++ [file_path]))));
                          Write on (ResultsData (results r ++ [e]))])
                     (Idle, processed_files r ++ [file_path], results r ++ [e])).
      { eapply steps_app; [exact S2|].
        econstructor; [constructor|]. apply steps_one. constructor. }
      destruct (Nat.ltb idx total); cbn; rewrite H1.
      * eexists. split; [rewrite <- !app_assoc; simpl; reflexivity|].
        pose proof (steps_app _ _ _ _ _ _ _ S3
                      (steps_one _ _ _ _ _
                         (step_sleep pn on _ _ (REQUEST_INTERVAL cfg)))) as S4.
        rewrite <- !app_assoc in S4. simpl in S4. exact S4.
      * eexists. split; [rewrite <- !app_assoc; simpl; reflexivity|].
        rewrite <- !app_assoc in S3. simpl in S3. exact S3.
    + destruct (Nat.ltb idx total); cbn; rewrite H1.
      * eexists. split; [rewrite <- !app_assoc; simpl; reflexivity|].
        pose proof (steps_app _ _ _ _ _ _ _ S2
                      (steps_one _ _ _ _ _
                         (step_sleep pn on _ _ (REQUEST_INTERVAL cfg)))) as S4.
        rewrite <- !app_assoc in S4. simpl in S4. exact S4.
      * eexists. split; [rewrite <- !app_assoc; simpl; reflexivity|].
        exact S2.
  - destruct (Nat.ltb idx total); cbn; rewrite H1.
    + eexists. split; [rewrite <- !app_assoc; reflexivity|].
      eapply steps_app; [apply H4 | apply steps_one; constructor].
    + eexists. split; [reflexivity | apply H4].
Qed.

Lemma process_files_steps (total : nat) (todo : list str) :
  forall idx (r : run_state RS),
    exists new,
      trace (now (run_files total idx todo r)) = trace (now r) ++ new /\
      steps pn on (Idle, processed_files r, results r) new
            (Idle, processed_files (run_files total idx todo r),
                   results (run_files total idx todo r)).
Proof.
  induction todo as [|f todo IH]; intros idx r.
  - exists []. simpl. rewrite app_nil_r. split; [reflexivity | constructor].
  - destruct (process_file_steps total idx f r) as (new1 & H1 & S1).
    destruct (IH (S idx) (run_file total idx f r)) as (new2 & H2 & S2).
    exists (new1 ++ new2). split.
    + unfold run_files in *. simpl. fold run_file. rewrite H2, H1, app_assoc.
      reflexivity.
    + eapply steps_app; [exact S1|]. unfold run_files in *. simpl. exact S2.
Qed.

End DriverProperties.

Lemma path_join_suffix (a b : str) (c : N) :
  N.eqb c SLASH = false -> exists x, path_join a (c :: b) = x ++ c :: b.
Proof.
  intros H. unfold path_join. rewrite H.
  destruct (rev a) as [|l r].
  - exists []. reflexivity.
  - destruct (N.eqb l SLASH).
    + exists a. reflexivity.
    + exists (a ++ [SLASH]). rewrite <- app_assoc. reflexivity.
Qed.

(** The two files of a run have different names. *)
Lemma names_differ (cfg : config) (timestamp : str) :
  progress_file cfg timestamp <> output_file cfg timestamp.
Proof.
  unfold progress_file, output_file. intros E.
  destruct (path_join_suffix (PROGRESS_DIR cfg)
              (lit "rogress_" ++ timestamp ++ lit ".json") 112 eq_refl) as [x Hx].
  destruct (path_join_suffix (OUTPUT_DIR cfg)
              (lit "nalysis_results_" ++ timestamp ++ lit ".json") 97 eq_refl) as [y Hy].
  change (lit "progress_" ++ timestamp ++ lit ".json")
    with (112%N :: lit "rogress_" ++ timestamp ++ lit ".json") in E.
  change (lit "analysis_results_" ++ timestamp ++ lit ".json")
    with (97%N :: lit "nalysis_results_" ++ timestamp ++ lit ".json") in E.
  rewrite Hx, Hy in E.
  change (x ++ 112%N :: lit "rogress_" ++ timestamp ++ lit ".json")
    with (x ++ lit "progre" ++ [115%N] ++ (lit "s_" ++ timestamp ++ lit ".json")) in E.
  change (y ++ 97%N :: lit "nalysis_results_" ++ timestamp ++ lit ".json")
    with (y ++ lit "analysis_resul" ++ [116%N]
            ++ (lit "s_" ++ timestamp ++ lit ".json")) in E.
  remember (lit "s_" ++ timestamp ++ lit ".json") as T eqn:ET. clear ET.
  rewrite !app_assoc in E. apply app_inv_tail in E.
  apply app_inj_tail in E. destruct E as [_ E]. discriminate E.
Qed.

Lemma str_in_In (f : str) (l : list str) : str_in f l = true <-> In f l.
Proof.
  unfold str_in. rewrite existsb_exists. split.
  - intros (x & Hx & E). apply str_eqb_eq in E. subst. exact Hx.
  - intros H. exists f. split; [exact H | apply str_eqb_refl].
Qed.

Lemma firstn_subset (A : Type) (k : nat) (l : list A) (x : A) :
  In x (firstn k l) -> In x l.
Proof.
  intros H. rewrite <- (firstn_skipn k l). apply in_or_app. left. exact H.
Qed.

Lemma py_take_In (A : Type) (n : Z) (l : list A) (x : A) :
  In x (py_take n l) -> In x l.
Proof.
  unfold py_take. destruct (n <? 0)%Z; apply firstn_subset.
Qed.

Lemma str_eqb_neq (a b : str) : a <> b -> str_eqb a b = false.
Proof.
  intros H. unfold str_eqb.
  destruct (list_eq_dec N.eq_dec a b); [contradiction | reflexivity].
Qed.

Section DriverRuns.

Variable RS : Type.
Variable send : RS -> str -> response * RS.
Variable conversation : Type.
Variable extract_conversation_data : str -> option conversation.
Variable make_prompt : conversation -> str.
Variable cfg : config.
Variable timestamp : str.
Variable all_files : list str.

Let pn : str := progress_file cfg timestamp.
Let on : str := output_file cfg timestamp.
Let run_main := main send extract_conversation_data make_prompt cfg timestamp all_files.

(** The work list holds files of the corpus that the loaded progress
    does not. *)
Lemma remaining_spec (loaded : list str) (f : str) :
  In f (remaining cfg all_files loaded) -> In f all_files /\ ~ In f loaded.
Proof.
  unfold remaining. intros H.
  assert (G : In f (filter (fun f => negb (str_in f loaded)) all_files)).
  { destruct (TEST_MODE cfg); [eapply py_take_In; exact H | exact H]. }
  apply filter_In in G. destruct G as [G1 G2]. split; [exact G1|].
  intros Hin. apply str_in_In in Hin. rewrite Hin in G2. discriminate.
Qed.

(** When the loaded progress covers the corpus, the work list is empty. *)
Lemma remaining_nil (loaded : list str) :
  (forall f, In f all_files -> In f loaded) -> remaining cfg all_files loaded = [].
Proof.
  intros H. destruct (remaining cfg all_files loaded) as [|f l] eqn:E; [reflexivity|].
  exfalso. destruct (remaining_spec loaded f) as [H1 H2].
  - rewrite E. left. reflexivity.
  - apply H2, H, H1.
Qed.

(** What a run does, in one statement: its effects follow the discipline
    from the loaded lists to the final ones, and the final ones are what
    the two files hold at the end. *)
Lemma main_steps (w : world RS) :
  exists new P R,
    trace (run_main w) = trace w ++ new /\
    steps pn on (Idle, load_progress pn w, load_existing_results on w) new
          (Idle, P, R) /\
    load_progress pn (run_main w) = P /\
    load_existing_results on (run_main w) = R.
Proof.
  unfold run_main, main. fold pn on.
  destruct (remaining cfg all_files (load_progress pn w)) as [|f l] eqn:E.
  - exists [], (load_progress pn w), (load_existing_results on w).
    rewrite app_nil_r. repeat split. constructor.
  - set (r0 := Run (load_progress pn w) (load_existing_results on w) 0 0 w).
    destruct (process_files_steps RS send conversation extract_conversation_data
                make_prompt cfg timestamp (length (f :: l)) (f :: l) 1 r0)
      as (new & H1 & S1).
    fold pn on in S1.
    set (r1 := process_files send extract_conversation_data make_prompt cfg
                 timestamp (length (f :: l)) 1 (f :: l) r0) in *.
    exists (new ++ [Write pn (ProgressData (processed_files r1)
                                 (Z.of_nat (length (processed_files r1))));
                    Write on (ResultsData (results r1))]),
           (processed_files r1), (results r1).
    repeat split.
    + unfold save_results, save_progress. cbn [trace]. rewrite H1.
      rewrite <- !app_assoc. reflexivity.
    + eapply steps_app; [exact S1|].
      econstructor; [constructor|]. apply steps_one. constructor.
    + unfold load_progress, save_results, save_progress, write. cbn [files].
      rewrite (str_eqb_neq pn on (names_differ cfg timestamp)).
      rewrite str_eqb_refl. reflexivity.
    + unfold load_existing_results, save_results, save_progress, write. cbn [files].
      rewrite str_eqb_refl. reflexivity.
Qed.

End DriverRuns.

Lemma steps_split (pn on : str) (a : list event) :
  forall s1 e b s3,
    steps pn on s1 (a ++ e :: b) s3 ->
    exists s2 s2', steps pn on s1 a s2 /\ step pn on s2 e s2' /\ steps pn on s2' b s3.
Proof.
  induction a as [|x a IH]; intros s1 e b s3 H; simpl in H.
  - inversion H; subst. eexists _, _. repeat split; [constructor | eassumption | assumption].
  - inversion H as [|? ? s ? ? Hs Ht]; subst.
    destruct (IH _ _ _ _ Ht) as (s2 & s2' & H1 & H2 & H3).
    exists s2, s2'. repeat split; [econstructor; eassumption | assumption | assumption].
Qed.

Lemma steps_last (pn on : str) (s1 s2 : status) (a : list event) :
  steps pn on s1 a s2 ->
  (a = [] /\ s1 = s2) \/
  exists a' e s, a = a' ++ [e] /\ steps pn on s1 a' s /\ step pn on s e s2.
Proof.
  intros H. induction H as [s|s1 e s2 t s3 Hs Ht IH].
  - left. auto.
  - right. destruct IH as [[-> ->] | (a' & e' & s & -> & H1 & H2)].
    + exists [], e, s1. repeat split; [constructor | exact Hs].
    + exists (e :: a'), e', s. repeat split; [econstructor; eassumption | exact H2].
Qed.

(** In the effects of the machine between two idle states, a result is
    appended just before its path, and the result file is written just
    after the progress file: never one without the other. *)
Lemma steps_pairs (pn on : str) (p r p' r' : list _) (t : list event) :
  steps pn on (Idle, p, r) t (Idle, p', r') ->
  (forall a e b, t = a ++ AppendResult e :: b ->
     exists f b', b = AppendProcessed f :: b' /\ file_name e = basename f) /\
  (forall a f b, t = a ++ AppendProcessed f :: b ->
     exists a' e, a = a' ++ [AppendResult e] /\ file_name e = basename f) /\
  (forall a name x c b, t = a ++ Write name (ProgressData x c) :: b ->
     name = pn /\ c = Z.of_nat (length x) /\
     exists y b', b = Write on (ResultsData y) :: b') /\
  (forall a name y b, t = a ++ Write name (ResultsData y) :: b ->
     name = on /\
     exists a' x, a = a' ++ [Write pn (ProgressData x (Z.of_nat (length x)))]).
Proof.
  intros H. split; [|split; [|split]].
  - intros a e b ->. apply steps_split in H.
    destruct H as (s2 & s2' & _ & H2 & H3). inversion H2; subst.
    inversion H3 as [|? ? ? ? ? Hs Ht]; subst. inversion Hs; subst.
    eexists _, _. split; [reflexivity | assumption].
  - intros a f b ->. apply steps_split in H.
    destruct H as (s2 & s2' & H1 & H2 & _). inversion H2; subst.
    apply steps_last in H1.
    destruct H1 as [[_ E] | (a' & e' & s & -> & _ & Hs)]; [discriminate|].
    inversion Hs; subst. exists a', e. split; [reflexivity | assumption].
  - intros a name x c b ->. apply steps_split in H.
    destruct H as (s2 & s2' & _ & H2 & H3).
    inversion H2; subst. inversion H3 as [|? ? ? ? ? Hs Ht]; subst.
    inversion Hs; subst. split; [reflexivity|]. split; [reflexivity|].
    eexists _, _. reflexivity.
  - intros a name y b ->. apply steps_split in H.
    destruct H as (s2 & s2' & H1 & H2 & _).
    inversion H2; subst. split; [reflexivity|]. apply steps_last in H1.
    destruct H1 as [[_ E] | (a' & e' & s & -> & _ & Hs)]; [discriminate|].
    inversion Hs; subst. eexists _, _. reflexivity.
Qed.

(** A file whose record cannot be read or whose extraction fails leaves
    the two lists and the files as they were. *)
Lemma process_file_failed {RS : Type} (send : RS -> str -> response * RS)
      {conversation : Type} (extract_conversation_data : str -> option conversation)
      (make_prompt : conversation -> str) (cfg : config) (timestamp : str)
      (total idx : nat) (file_path : str) (r : run_state RS) :
  (extract_conversation_data file_path = None \/
   exists cd, extract_conversation_data file_path = Some cd /\
              truthy (fst (call_llm send (llm_client cfg) (make_prompt cd) (now r))) = false) ->
  let r' := process_file send extract_conversation_data make_prompt cfg timestamp
                         total idx file_path r in
  processed_files r' = processed_files r /\ results r' = results r /\
  files (now r') = files (now r).
Proof.
  intros H. cbv zeta. unfold process_file.
  destruct H as [-> | (cd & -> & H)]; [repeat split|].
  destruct (attempts_bound RS send (llm_client cfg) (make_prompt cd)
              (Z.to_nat (max_retries (llm_client cfg))) 0 (now r)) as (new & _ & _ & F).
  fold (call_llm send (llm_client cfg) (make_prompt cd) (now r)) in F.
  destruct (call_llm send (llm_client cfg) (make_prompt cd) (now r)) as [res w].
  cbn [fst snd] in *. rewrite H.
  destruct (Nat.ltb idx total); cbn; auto.
Qed.







(** ** The brace scanner on well-formed JSON *)

Lemma scan_step (text : str) (start_idx : nat) (c : N) (rest : str) (i : nat)
      (b : Z) (ins esc : bool) :
  closes (b, ins, esc) c = false ->
  scan text start_idx (c :: rest) i b ins esc
  = match next (b, ins, esc) c with
    | (b', ins', esc') => scan text start_idx rest (S i) b' ins' esc'
    end.
Proof.
  unfold closes, next. simpl.
  destruct esc; [reflexivity|].
  destruct (N.eqb c BACKSLASH); [reflexivity|].
  destruct (N.eqb c QUOTE); [reflexivity|].
  destruct ins; simpl; [reflexivity|].
  destruct (N.eqb c LBRACE); [reflexivity|].
  destruct (N.eqb c RBRACE); [|reflexivity].
  destruct (Z.eqb (b - 1) 0); [discriminate | reflexivity].
Qed.

(** Over a quiet stretch the scan just moves on. *)
Lemma scan_quiet (text : str) (start_idx : nat) (a : str) :
  forall rest i b ins esc b' ins' esc',
    quiet (b, ins, esc) a = Some (b', ins', esc') ->
    scan text start_idx (a ++ rest) i b ins esc
    = scan text start_idx rest (i + length a) b' ins' esc'.
Proof.
  induction a as [|c a IH]; intros rest i b ins esc b' ins' esc' H.
  - simpl in *. injection H as -> -> ->. rewrite Nat.add_0_r. reflexivity.
  - cbn [quiet] in H. destruct (closes (b, ins, esc) c) eqn:C; [discriminate|].
    change ((c :: a) ++ rest) with (c :: (a ++ rest)).
    rewrite (scan_step _ _ _ _ _ _ _ _ C).
    destruct (next (b, ins, esc) c) as [[b1 ins1] esc1].
    rewrite (IH _ _ _ _ _ _ _ _ H). simpl length.
    replace (S i + length a) with (i + S (length a)) by lia. reflexivity.
Qed.

(** At a closing brace that brings the depth to zero the candidate is
    tried, and returned when it decodes. *)
Lemma scan_closes (text : str) (start_idx : nat) (rest : str) (i : nat) (v : json) :
  loads (slice text start_idx (i + 1)) = Some v ->
  scan text start_idx (RBRACE :: rest) i 1 false false
  = Some (slice text start_idx (i + 1)).
Proof. intros H. simpl. rewrite H. reflexivity. Qed.

Lemma quiet_app (a b : str) :
  forall st, quiet st (a ++ b)
             = match quiet st a with
               | Some st' => quiet st' b
               | None => None
               end.
Proof.
  induction a as [|c a IH]; intros st; simpl; [reflexivity|].
  destruct (closes st c); [reflexivity | apply IH].
Qed.

Lemma quiet_plain (w : str) :
  Forall (fun c => plain c = true) w ->
  forall d ins, quiet (d, ins, false) w = Some (d, ins, false).
Proof.
  induction 1 as [|c w Hc Hw IH]; intros d ins; simpl; [reflexivity|].
  unfold plain in Hc. apply negb_true_iff in Hc.
  apply orb_false_elim in Hc. destruct Hc as [Hc _].
  apply orb_false_elim in Hc. destruct Hc as [Hc H4].
  apply orb_false_elim in Hc. destruct Hc as [Hc H3].
  apply orb_false_elim in Hc. destruct Hc as [H1 H2].
  rewrite H1, H2, H3, H4. simpl.
  rewrite !andb_false_r. simpl.
  destruct ins; simpl; apply IH.
Qed.

Lemma inert_plain (w : str) : Forall (fun c => plain c = true) w -> inert w.
Proof. intros H d _. apply quiet_plain. exact H. Qed.

Lemma inert_app (a b : str) : inert a -> inert b -> inert (a ++ b).
Proof.
  intros Ha Hb d Hd. rewrite quiet_app, (Ha d Hd). apply Hb. exact Hd.
Qed.

Lemma inert_nil : inert [].
Proof. intros d _. reflexivity. Qed.

(** An object between its braces is inert when what is between them is. *)
Lemma inert_braces (c : str) : inert c -> inert (LBRACE :: c ++ [RBRACE]).
Proof.
  intros Hc d Hd. simpl.
  rewrite quiet_app, (Hc (d + 1)%Z) by lia. simpl.
  destruct (Z.eqb_spec (d + 1 - 1) 0) as [E|_]; [lia|].
  replace (d + 1 - 1)%Z with d by lia. reflexivity.
Qed.

(** *** Backticks *)

Lemma plain_not_backtick (c : N) : plain c = true -> N.eqb c BACKTICK = false.
Proof.
  unfold plain. intros H. apply negb_true_iff in H.
  apply orb_false_elim in H. apply H.
Qed.

Lemma guarded_app (a b : str) : guarded a = true -> guarded (a ++ b) = true.
Proof.
  induction a as [|c a IH]; cbn [guarded app]; [discriminate|].
  destruct (isspace c); [|reflexivity].
  intros H. apply andb_prop in H. destruct H as [H1 H2].
  rewrite H1, (IH H2). reflexivity.
Qed.

Lemma tame_weaken (s : str) (p : bool) : tame true s = true -> tame p s = true.
Proof.
  destruct s as [|c s]; cbn [tame]; [reflexivity|].
  destruct (N.eqb c BACKTICK); cbn [negb andb]; [discriminate | trivial].
Qed.

Lemma tame_app (a b : str) :
  forall p, tame p a = true -> tame true b = true -> tame p (a ++ b) = true.
Proof.
  induction a as [|c a IH]; intros p Ha Hb.
  - apply tame_weaken. exact Hb.
  - cbn [tame app] in *. apply andb_prop in Ha. destruct Ha as [H1 H2].
    rewrite (IH _ H2 Hb), andb_true_r.
    destruct (N.eqb c BACKTICK); [|reflexivity].
    apply andb_prop in H1. destruct H1 as [H1 H3].
    rewrite H1, (guarded_app _ b H3). reflexivity.
Qed.

Lemma tame_plain (w : str) :
  Forall (fun c => plain c = true) w -> forall p, tame p w = true.
Proof.
  induction 1 as [|c w Hc Hw IH]; intros p; cbn [tame]; [reflexivity|].
  rewrite (plain_not_backtick c Hc), IH. reflexivity.
Qed.

(** A backtick of a tame text is not at the start of a line, and it is
    guarded. *)
Lemma tame_at (a b : str) :
  forall prev, tame (line_start prev) (a ++ BACKTICK :: b) = true ->
    line_start (last_of prev a) = false /\ guarded b = true.
Proof.
  induction a as [|c a IH]; intros prev H.
  - cbn [tame app] in H. change (last_of prev []) with prev.
    change (N.eqb BACKTICK BACKTICK) with true in H. cbv iota in H.
    apply andb_prop in H. destruct H as [H _].
    apply andb_prop in H. destruct H as [H1 H2].
    apply negb_true_iff in H1. auto.
  - cbn [tame app] in H. apply andb_prop in H. destruct H as [_ H].
    rewrite last_of_cons. apply (IH (Some c)). exact H.
Qed.

Lemma tidy_plain (w : str) : Forall (fun c => plain c = true) w -> tidy w.
Proof. intros H. split; [apply inert_plain | apply tame_plain]; exact H. Qed.

Lemma tidy_app (a b : str) : tidy a -> tidy b -> tidy (a ++ b).
Proof.
  intros [Ha Ta] [Hb Tb]. split; [apply inert_app | apply tame_app]; assumption.
Qed.

(** An object between its braces is tidy when what is between them is. *)
Lemma tidy_braces (c : str) : tidy c -> tidy (LBRACE :: c ++ [RBRACE]).
Proof.
  intros [Hc Tc]. split; [apply inert_braces; exact Hc|].
  apply (tame_app [LBRACE]); [reflexivity|].
  apply tame_app; [exact Tc | reflexivity].
Qed.

(** *** Strings *)

Lemma body_quote : string_body [QUOTE].
Proof. intros d. reflexivity. Qed.

Lemma body_char (x : N) (c : str) :
  N.eqb x QUOTE = false -> N.eqb x BACKSLASH = false ->
  string_body c -> string_body (x :: c).
Proof.
  intros H1 H2 Hc d. simpl. rewrite H1, H2. simpl. apply Hc.
Qed.

Lemma body_escape (e : N) (c : str) : string_body c -> string_body (BACKSLASH :: e :: c).
Proof. intros Hc d. simpl. apply Hc. Qed.

Lemma rest_quote : string_rest [QUOTE].
Proof. split; [apply body_quote | split; reflexivity]. Qed.

Lemma rest_char (x : N) (c : str) :
  N.eqb x QUOTE = false -> N.eqb x BACKSLASH = false -> N.eqb x LF = false ->
  string_rest c -> string_rest (x :: c).
Proof.
  intros H1 H2 H3 (Hb & Hg & Ht). split; [apply body_char; assumption|].
  split.
  - cbn [guarded]. rewrite H3, Hg. destruct (isspace x); reflexivity.
  - cbn [tame]. rewrite H3, Hg, Ht. destruct (N.eqb x BACKTICK); reflexivity.
Qed.

Lemma rest_escape (e : N) (c : str) :
  N.eqb e LF = false -> string_rest c -> string_rest (BACKSLASH :: e :: c).
Proof.
  intros H3 (Hb & Hg & Ht). split; [apply body_escape; exact Hb|].
  split; [reflexivity|].
  change (tame false (BACKSLASH :: e :: c)) with (tame false (e :: c)).
  cbn [tame]. rewrite H3, Hg, Ht. destruct (N.eqb e BACKTICK); reflexivity.
Qed.

Lemma unescape_char (e x : N) : unescape e = Some x -> N.eqb e LF = false.
Proof.
  intros H. destruct (N.eqb_spec e LF) as [->|]; [discriminate H | reflexivity].
Qed.

Lemma hex_digit_char (x v : N) :
  hex_digit x = Some v ->
  N.eqb x QUOTE = false /\ N.eqb x BACKSLASH = false /\ N.eqb x LF = false.
Proof.
  unfold hex_digit, QUOTE, BACKSLASH, LF.
  destruct (N.leb_spec 48 x), (N.leb_spec x 57), (N.leb_spec 97 x),
           (N.leb_spec x 102), (N.leb_spec 65 x), (N.leb_spec x 70);
    simpl; intros E; try discriminate E;
    (split; [|split]; apply N.eqb_neq; lia).
Qed.

Lemma hex4_chars (a b c d v : N) (s : str) :
  hex4 a b c d = Some v -> string_rest s -> string_rest (a :: b :: c :: d :: s).
Proof.
  unfold hex4. intros H Hs.
  destruct (hex_digit a) eqn:Ea; [|discriminate].
  destruct (hex_digit b) eqn:Eb; [|discriminate].
  destruct (hex_digit c) eqn:Ec; [|discriminate].
  destruct (hex_digit d) eqn:Ed; [|discriminate].
  apply hex_digit_char in Ea, Eb, Ec, Ed.
  apply rest_char; [tauto | tauto | tauto |].
  apply rest_char; [tauto | tauto | tauto |].
  apply rest_char; [tauto | tauto | tauto |].
  apply rest_char; [tauto | tauto | tauto | exact Hs].
Qed.

Lemma cons_fst_some (x : N) (o : option (str * str)) (t r : str) :
  cons_fst x o = Some (t, r) -> exists t', o = Some (t', r) /\ t = x :: t'.
Proof.
  destruct o as [[t' r']|]; simpl; [|discriminate].
  intros H; injection H as <- <-. exists t'. auto.
Qed.

Lemma low_escape_shape (s : str) (lo : N) (rest : str) :
  low_escape s = Some (lo, rest) ->
  exists g1 g2 g3 g4,
    s = BACKSLASH :: 117%N :: g1 :: g2 :: g3 :: g4 :: rest /\
    hex4 g1 g2 g3 g4 = Some lo.
Proof.
  unfold low_escape.
  destruct s as [|b [|u [|g1 [|g2 [|g3 [|g4 s']]]]]]; try discriminate.
  destruct (N.eqb_spec b BACKSLASH) as [->|]; [|discriminate].
  destruct (N.eqb_spec u 117) as [->|]; [|discriminate]. simpl.
  destruct (hex4 g1 g2 g3 g4) as [lo'|] eqn:E; [|discriminate].
  destruct (is_low_surrogate lo'); [|discriminate].
  intros H; injection H as <- <-. exists g1, g2, g3, g4. auto.
Qed.

Lemma scanstring_body (n : nat) :
  forall s t r, length s <= n -> scanstring s = Some (t, r) ->
    exists c, s = c ++ r /\ string_rest c.
Proof.
  induction n as [|n IH]; intros s t r Hlen H.
  - destruct s; [discriminate | simpl in Hlen; lia].
  - destruct s as [|c0 r0]; [discriminate|].
    simpl in Hlen. cbn [scanstring] in H.
    destruct (N.eqb c0 QUOTE) eqn:Q.
    { injection H as <- <-. apply N.eqb_eq in Q. subst c0.
      exists [QUOTE]. split; [reflexivity | apply rest_quote]. }
    destruct (N.eqb c0 BACKSLASH) eqn:B.
    + apply N.eqb_eq in B. subst c0.
      destruct r0 as [|e r1]; [discriminate|]. simpl in Hlen.
      destruct (N.eqb e 117) eqn:U.
      * destruct r1 as [|h1 [|h2 [|h3 [|h4 r2]]]]; try discriminate.
        simpl in Hlen.
        destruct (hex4 h1 h2 h3 h4) as [u|] eqn:Hx; [|discriminate].
        assert (G : forall t', scanstring r2 = Some (t', r) ->
                    exists c, BACKSLASH :: e :: h1 :: h2 :: h3 :: h4 :: r2 = c ++ r
                              /\ string_rest c).
        { intros t' H'. destruct (IH r2 t' r) as (c & -> & Hc); [lia | exact H'|].
          exists (BACKSLASH :: e :: h1 :: h2 :: h3 :: h4 :: c).
          split; [reflexivity|].
          apply rest_escape; [apply N.eqb_eq in U; subst e; reflexivity|].
          eapply hex4_chars; eassumption. }
        destruct r2 as [|b [|u' [|g1 [|g2 [|g3 [|g4 r3]]]]]];
          try (apply cons_fst_some in H; destruct H as (t' & H & _);
               apply (G t' H)).
        destruct (is_high_surrogate u);
          [|apply cons_fst_some in H; destruct H as (t' & H & _); apply (G t' H)].
        destruct (low_escape (b :: u' :: g1 :: g2 :: g3 :: g4 :: r3))
          as [[lo rest]|] eqn:L;
          [|apply cons_fst_some in H; destruct H as (t' & H & _); apply (G t' H)].
        apply cons_fst_some in H. destruct H as (t' & H & _).
        apply low_escape_shape in L.
        destruct L as (k1 & k2 & k3 & k4 & L & Hlo).
        injection L as -> -> -> -> -> ->.
        destruct (IH r3 t' r) as (c & -> & Hc); [simpl in Hlen; lia | exact H|].
        exists (BACKSLASH :: e :: h1 :: h2 :: h3 :: h4
                  :: BACKSLASH :: 117%N :: k1 :: k2 :: k3 :: k4 :: c).
        split; [reflexivity|].
        apply rest_escape; [apply N.eqb_eq in U; subst e; reflexivity|].
        eapply hex4_chars; [eassumption|].
        apply rest_escape; [reflexivity|]. eapply hex4_chars; eassumption.
      * destruct (unescape e) as [x|] eqn:Ue; [|discriminate].
        apply unescape_char in Ue.
        apply cons_fst_some in H. destruct H as (t' & H & _).
        destruct (IH r1 t' r) as (c & -> & Hc); [lia | exact H|].
        exists (BACKSLASH :: e :: c). split; [reflexivity|].
        apply rest_escape; assumption.
    + destruct (N.leb_spec c0 31) as [|C]; [discriminate|].
      assert (N.eqb c0 LF = false) by (apply N.eqb_neq; unfold LF; lia).
      apply cons_fst_some in H. destruct H as (t' & H & _).
      destruct (IH r0 t' r) as (c & -> & Hc); [lia | exact H|].
      exists (c0 :: c). split; [reflexivity|].
      apply rest_char; assumption.
Qed.

(** A whole string, opening quote included, is tidy. *)
Lemma string_tidy (s t r : str) :
  scanstring s = Some (t, r) -> exists c, QUOTE :: s = c ++ r /\ tidy c.
Proof.
  intros H. destruct (scanstring_body (length s) s t r (le_n _) H)
    as (c & -> & Hc & _ & Ht).
  exists (QUOTE :: c). split; [reflexivity|]. split.
  - intros d _. simpl. apply Hc.
  - exact Ht.
Qed.

(** *** White space, numbers, constants *)

Lemma is_ws_plain (c : N) : is_ws c = true -> plain c = true.
Proof.
  unfold is_ws. intros H.
  repeat (apply orb_prop in H; destruct H as [H|H]);
    apply N.eqb_eq in H; subst c; reflexivity.
Qed.

Lemma is_digit_plain (c : N) : is_digit c = true -> plain c = true.
Proof.
  unfold is_digit, plain, QUOTE, BACKSLASH, LBRACE, RBRACE, BACKTICK. intros H.
  apply andb_prop in H. destruct H as [H1 H2].
  apply N.leb_le in H1, H2.
  destruct (N.eqb_spec c 34), (N.eqb_spec c 92), (N.eqb_spec c 123),
           (N.eqb_spec c 125), (N.eqb_spec c 96); simpl; try reflexivity; lia.
Qed.

Lemma skip_ws_split (s : str) :
  exists w, s = w ++ skip_ws s /\ Forall (fun c => plain c = true) w.
Proof.
  induction s as [|c s (w & IH & Hw)]; simpl.
  - exists []. split; [reflexivity | constructor].
  - destruct (is_ws c) eqn:E.
    + exists (c :: w). split; [simpl; rewrite <- IH; reflexivity|].
      constructor; [apply is_ws_plain; exact E | exact Hw].
    + exists []. split; [reflexivity | constructor].
Qed.

Lemma digits_split (s : str) :
  forall d r, digits s = (d, r) -> s = d ++ r /\ Forall (fun c => plain c = true) d.
Proof.
  induction s as [|c s IH]; simpl; intros d r H.
  - injection H as <- <-. split; [reflexivity | constructor].
  - destruct (is_digit c) eqn:E.
    + destruct (digits s) as [d' r'] eqn:D. injection H as <- <-.
      destruct (IH d' r' eq_refl) as [-> Hd].
      split; [reflexivity|]. constructor; [apply is_digit_plain; exact E | exact Hd].
    + injection H as <- <-. split; [reflexivity | constructor].
Qed.

Lemma int_part_split (s d r : str) :
  int_part s = Some (d, r) -> s = d ++ r /\ Forall (fun c => plain c = true) d.
Proof.
  unfold int_part. destruct s as [|c s]; [discriminate|].
  destruct (N.eqb_spec c 48) as [->|_].
  - intros H; injection H as <- <-. split; [reflexivity|].
    constructor; [reflexivity | constructor].
  - destruct (is_digit c) eqn:E; [|discriminate].
    intros H. apply digits_split.
    injection H. intros H'. exact H'.
Qed.

Lemma frac_part_split (s d r : str) :
  frac_part s = (d, r) -> exists p, s = p ++ r /\ Forall (fun c => plain c = true) p.
Proof.
  unfold frac_part.
  assert (G : (d, r) = ([], s) -> exists p, s = p ++ r /\ Forall (fun c => plain c = true) p).
  { intros H; injection H as -> ->. exists []. split; [reflexivity | constructor]. }
  destruct s as [|p [|c s]]; try (intros H; apply G; symmetry; exact H).
  destruct (N.eqb_spec p 46) as [->|_]; cbn [andb];
    [|intros H; apply G; symmetry; exact H].
  destruct (is_digit c) eqn:E; [|intros H; apply G; symmetry; exact H].
  intros H. cbn [tl] in H.
  apply (digits_split (c :: s)) in H. destruct H as [H Hd].
  exists (46%N :: d). split; [simpl; rewrite H; reflexivity|].
  constructor; [reflexivity | exact Hd].
Qed.

Lemma exp_part_split (s : str) (neg : bool) (ds r : str) :
  exp_part s = Some (neg, ds, r) ->
  exists p, s = p ++ r /\ Forall (fun c => plain c = true) p.
Proof.
  unfold exp_part. destruct s as [|e s1]; [discriminate|].
  destruct (N.eqb e 101 || N.eqb e 69) eqn:Ee; [|discriminate].
  assert (Pe : plain e = true).
  { apply orb_prop in Ee. destruct Ee as [Ee|Ee]; apply N.eqb_eq in Ee; subst e;
      reflexivity. }
  destruct s1 as [|c s2]; [discriminate|].
  destruct (N.eqb c 45 || N.eqb c 43) eqn:Ec.
  - assert (Pc : plain c = true).
    { apply orb_prop in Ec. destruct Ec as [Ec|Ec]; apply N.eqb_eq in Ec; subst c;
        reflexivity. }
    destruct s2 as [|d s3]; [discriminate|].
    destruct (is_digit d); [|discriminate].
    destruct (digits (d :: s3)) as [ds' r'] eqn:D.
    intros H; injection H as _ <- <-.
    apply digits_split in D. destruct D as [D Hd].
    exists (e :: c :: ds'). split; [simpl; rewrite D; reflexivity|].
    constructor; [exact Pe|]. constructor; [exact Pc | exact Hd].
  - destruct (is_digit c); [|discriminate].
    destruct (digits (c :: s2)) as [ds' r'] eqn:D.
    intros H; injection H as _ <- <-.
    apply digits_split in D. destruct D as [D Hd].
    exists (e :: ds'). split; [simpl; rewrite D; reflexivity|].
    constructor; [exact Pe | exact Hd].
Qed.

Lemma match_number_split (s : str) (v : json) (r : str) :
  match_number s = Some (v, r) ->
  exists c, s = c ++ r /\ Forall (fun x => plain x = true) c.
Proof.
  unfold match_number.
  assert (S0 : exists m s0,
            (match s with
             | c :: s' => if N.eqb c 45 then (true, s') else (false, s)
             | [] => (false, s)
             end) = (fst (match s with
                          | c :: s' => if N.eqb c 45 then (true, s') else (false, s)
                          | [] => (false, s)
                          end), s0)
            /\ s = m ++ s0 /\ Forall (fun x => plain x = true) m).
  { destruct s as [|c s']; [exists [], []; repeat split; constructor|].
    destruct (N.eqb_spec c 45) as [->|_].
    - exists [45%N], s'. repeat split. constructor; [reflexivity | constructor].
    - exists [], (c :: s'). repeat split. constructor. }
  destruct S0 as (m & s0 & E & -> & Hm). rewrite E. clear E.
  destruct (int_part s0) as [[ip s1]|] eqn:I; [|discriminate].
  apply int_part_split in I. destruct I as [-> Hi].
  destruct (frac_part s1) as [fp s2] eqn:F.
  apply frac_part_split in F. destruct F as (pf & -> & Hf).
  assert (G : forall c2 r2, s2 = c2 ++ r2 -> Forall (fun x => plain x = true) c2 ->
              exists c, m ++ ip ++ pf ++ s2 = c ++ r2
                        /\ Forall (fun x => plain x = true) c).
  { intros c2 r2 -> H2. exists (m ++ ip ++ pf ++ c2).
    split; [rewrite <- !app_assoc; reflexivity|].
    repeat (apply Forall_app; split); assumption. }
  destruct (exp_part s2) as [[[eneg ed] s3]|] eqn:X.
  - apply exp_part_split in X. destruct X as (pe & X & He).
    destruct fp; intros H; injection H as _ <-; apply (G pe s3 X He).
  - destruct fp; intros H; injection H as _ <-;
      apply (G [] s2 eq_refl); constructor.
Qed.

Lemma starts_with_skipn (p s : str) :
  starts_with p s = true -> s = p ++ skipn (length p) s.
Proof.
  intros H. apply starts_with_split in H. destruct H as [b ->].
  rewrite skipn_app, Nat.sub_diag, skipn_all. reflexivity.
Qed.

(** *** Values *)

Lemma constant_tidy (p s : str) :
  starts_with p s = true -> Forall (fun c => plain c = true) p ->
  exists c, s = c ++ skipn (length p) s /\ tidy c.
Proof.
  intros H Hp. exists p. split; [apply starts_with_skipn; exact H|].
  apply tidy_plain. exact Hp.
Qed.

Ltac plain_chars := repeat (constructor; [reflexivity|]); constructor.

(** What each of the three mutually recursive readers consumes is tidy;
    the members of an object end with its closing brace, which is left
    out of the tidy part. *)
Lemma readers_tidy (n : nat) :
  (forall s v r, scan_once n s = Some (v, r) -> exists c, s = c ++ r /\ tidy c) /\
  (forall acc s v r, parse_members n acc s = Some (v, r) ->
                     exists c, s = c ++ RBRACE :: r /\ tidy c) /\
  (forall acc s v r, parse_elements n acc s = Some (v, r) ->
                     exists c, s = c ++ r /\ tidy c).
Proof.
  induction n as [|n (IHv & IHm & IHe)].
  - repeat split; intros; discriminate.
  - split; [|split].
    + (* scan_once *)
      intros s v r H. cbn [scan_once] in H.
      destruct s as [|c s']; [discriminate|].
      destruct (N.eqb_spec c QUOTE) as [->|_].
      { destruct (scanstring s') as [[t r']|] eqn:S; [|discriminate].
        injection H as _ <-. eapply string_tidy. exact S. }
      destruct (N.eqb_spec c LBRACE) as [->|_].
      { destruct (skip_ws_split s') as (w & Es & Hw).
        destruct (skip_ws s') as [|c2 r2] eqn:K; [discriminate|].
        destruct (N.eqb_spec c2 RBRACE) as [->|_].
        - injection H as _ <-. exists (LBRACE :: w ++ [RBRACE]).
          split; [rewrite Es; simpl; rewrite <- app_assoc; reflexivity|].
          apply tidy_braces, tidy_plain, Hw.
        - destruct (IHm _ _ _ _ H) as (cm & Em & Hm).
          exists (LBRACE :: (w ++ cm) ++ [RBRACE]).
          split; [rewrite Es, Em; simpl; rewrite <- !app_assoc; reflexivity|].
          apply tidy_braces, tidy_app; [apply tidy_plain, Hw | exact Hm]. }
      destruct (N.eqb_spec c LBRACKET) as [->|_].
      { destruct (skip_ws_split s') as (w & Es & Hw).
        destruct (skip_ws s') as [|c2 r2] eqn:K; [discriminate|].
        destruct (N.eqb_spec c2 RBRACKET) as [->|_].
        - injection H as _ <-. exists (LBRACKET :: w ++ [RBRACKET]).
          split; [rewrite Es; simpl; rewrite <- app_assoc; reflexivity|].
          apply (tidy_app [LBRACKET]); [apply tidy_plain; plain_chars|].
          apply tidy_app; apply tidy_plain; [exact Hw | plain_chars].
        - destruct (IHe _ _ _ _ H) as (ce & Ee & He).
          exists (LBRACKET :: w ++ ce).
          split; [rewrite Es, Ee; simpl; rewrite <- !app_assoc; reflexivity|].
          apply (tidy_app [LBRACKET]); [apply tidy_plain; plain_chars|].
          apply tidy_app; [apply tidy_plain, Hw | exact He]. }
      destruct (starts_with (lit "null") (c :: s')) eqn:L1.
      { injection H as _ <-. apply (constant_tidy (lit "null")); [exact L1 | plain_chars]. }
      destruct (starts_with (lit "true") (c :: s')) eqn:L2.
      { injection H as _ <-. apply (constant_tidy (lit "true")); [exact L2 | plain_chars]. }
      destruct (starts_with (lit "false") (c :: s')) eqn:L3.
      { injection H as _ <-. apply (constant_tidy (lit "false")); [exact L3 | plain_chars]. }
      destruct (starts_with (lit "NaN") (c :: s')) eqn:L4.
      { injection H as _ <-. apply (constant_tidy (lit "NaN")); [exact L4 | plain_chars]. }
      destruct (starts_with (lit "Infinity") (c :: s')) eqn:L5.
      { injection H as _ <-. apply (constant_tidy (lit "Infinity")); [exact L5 | plain_chars]. }
      destruct (starts_with (lit "-Infinity") (c :: s')) eqn:L6.
      { injection H as _ <-. apply (constant_tidy (lit "-Infinity")); [exact L6 | plain_chars]. }
      apply match_number_split in H. destruct H as (cn & E & Hn).
      exists cn. split; [exact E | apply tidy_plain, Hn].
    + (* parse_members *)
      intros acc s v r H. cbn [parse_members] in H.
      destruct s as [|c s']; [discriminate|].
      destruct (N.eqb_spec c QUOTE) as [->|_]; [|discriminate].
      destruct (scanstring s') as [[key r1]|] eqn:S; [|discriminate].
      apply string_tidy in S. destruct S as (ck & Ek & Hk).
      destruct (skip_ws_split r1) as (w1 & E1 & Hw1).
      destruct (skip_ws r1) as [|c1 r2] eqn:K1; [discriminate|].
      destruct (N.eqb_spec c1 COLON) as [->|_]; [|discriminate].
      destruct (skip_ws_split r2) as (w2 & E2 & Hw2).
      destruct (scan_once n (skip_ws r2)) as [[val r3]|] eqn:V; [|discriminate].
      apply IHv in V. destruct V as (cv & Ev & Hv).
      destruct (skip_ws_split r3) as (w3 & E3 & Hw3).
      destruct (skip_ws r3) as [|c3 r4] eqn:K3; [discriminate|].
      assert (Pre : tidy (ck ++ w1 ++ [COLON] ++ w2 ++ cv ++ w3)).
      { repeat apply tidy_app; try assumption;
          apply tidy_plain; (assumption || plain_chars). }
      assert (Es : QUOTE :: s' = (ck ++ w1 ++ [COLON] ++ w2 ++ cv ++ w3) ++ c3 :: r4).
      { rewrite Ek, E1, E2, Ev, E3. rewrite <- !app_assoc. reflexivity. }
      destruct (N.eqb_spec c3 RBRACE) as [->|_].
      * injection H as _ <-. eexists. split; [exact Es | exact Pre].
      * destruct (N.eqb_spec c3 COMMA) as [->|_]; [|discriminate].
        destruct (skip_ws_split r4) as (w4 & E4 & Hw4).
        apply IHm in H. destruct H as (cm & Em & Hm).
        exists ((ck ++ w1 ++ [COLON] ++ w2 ++ cv ++ w3) ++ [COMMA] ++ w4 ++ cm).
        split; [rewrite Es, E4, Em; rewrite <- !app_assoc; reflexivity|].
        repeat apply tidy_app; try assumption;
          apply tidy_plain; (assumption || plain_chars).
    + (* parse_elements *)
      intros acc s v r H. cbn [parse_elements] in H.
      destruct (scan_once n s) as [[val r1]|] eqn:V; [|discriminate].
      apply IHv in V. destruct V as (cv & Ev & Hv).
      destruct (skip_ws_split r1) as (w1 & E1 & Hw1).
      destruct (skip_ws r1) as [|c1 r2] eqn:K1; [discriminate|].
      destruct (N.eqb_spec c1 RBRACKET) as [->|_].
      * injection H as _ <-. exists (cv ++ w1 ++ [RBRACKET]).
        split; [rewrite Ev, E1; rewrite <- !app_assoc; reflexivity|].
        repeat apply tidy_app; try assumption;
          apply tidy_plain; (assumption || plain_chars).
      * destruct (N.eqb_spec c1 COMMA) as [->|_]; [|discriminate].
        destruct (skip_ws_split r2) as (w2 & E2 & Hw2).
        apply IHe in H. destruct H as (ce & Ee & He).
        exists (cv ++ w1 ++ [COMMA] ++ w2 ++ ce).
        split; [rewrite Ev, E1, E2, Ee; rewrite <- !app_assoc; reflexivity|].
        repeat apply tidy_app; try assumption;
          apply tidy_plain; (assumption || plain_chars).
Qed.

(** *** Fuel *)

Lemma skip_ws_length (s : str) : length (skip_ws s) <= length s.
Proof.
  destruct (skip_ws_split s) as (w & E & _).
  rewrite E at 2. rewrite length_app. lia.
Qed.

Lemma scanstring_length (s t r : str) :
  scanstring s = Some (t, r) -> length r <= length s.
Proof.
  intros H. destruct (scanstring_body (length s) s t r (le_n _) H) as (c & -> & _).
  rewrite length_app. lia.
Qed.

Lemma scan_once_length (n : nat) (s : str) (v : json) (r : str) :
  scan_once n s = Some (v, r) -> length r <= length s.
Proof.
  intros H. destruct (readers_tidy n) as (Hv & _ & _).
  destruct (Hv _ _ _ H) as (c & -> & _). rewrite length_app. lia.
Qed.

(** With twice the length of the text as fuel, and one more for the two
    loops, the readers never run out of it: more fuel changes nothing. *)
Lemma readers_fuel (n : nat) :
  (forall s m, 2 * length s <= n -> 2 * length s <= m ->
               scan_once n s = scan_once m s) /\
  (forall acc s m, 2 * length s + 1 <= n -> 2 * length s + 1 <= m ->
                   parse_members n acc s = parse_members m acc s) /\
  (forall acc s m, 2 * length s + 1 <= n -> 2 * length s + 1 <= m ->
                   parse_elements n acc s = parse_elements m acc s).
Proof.
  induction n as [|n (IHv & IHm & IHe)].
  - split; [|split]; intros; try lia.
    destruct s; [|simpl in *; lia]. destruct m; reflexivity.
  - split; [|split].
    + intros s m Hn Hm.
      destruct s as [|c s']; [destruct m; reflexivity|].
      destruct m as [|m]; [simpl in Hm; lia|].
      cbn [scan_once].
      destruct (N.eqb c QUOTE); [reflexivity|].
      destruct (N.eqb c LBRACE).
      { pose proof (skip_ws_length s') as L.
        destruct (skip_ws s') as [|c2 r2] eqn:K; [reflexivity|].
        destruct (N.eqb c2 RBRACE); [reflexivity|].
        apply IHm; simpl in *; lia. }
      destruct (N.eqb c LBRACKET).
      { pose proof (skip_ws_length s') as L.
        destruct (skip_ws s') as [|c2 r2] eqn:K; [reflexivity|].
        destruct (N.eqb c2 RBRACKET); [reflexivity|].
        apply IHe; simpl in *; lia. }
      reflexivity.
    + intros acc s m Hn Hm.
      destruct m as [|m]; [lia|].
      cbn [parse_members].
      destruct s as [|c s']; [reflexivity|].
      destruct (N.eqb c QUOTE); [|reflexivity].
      destruct (scanstring s') as [[key r1]|] eqn:S; [|reflexivity].
      apply scanstring_length in S.
      pose proof (skip_ws_length r1) as L1.
      destruct (skip_ws r1) as [|c1 r2] eqn:K1; [reflexivity|].
      destruct (N.eqb c1 COLON); [|reflexivity].
      pose proof (skip_ws_length r2) as L2.
      rewrite (IHv (skip_ws r2) m) by (simpl in *; lia).
      destruct (scan_once m (skip_ws r2)) as [[val r3]|] eqn:V; [|reflexivity].
      apply scan_once_length in V.
      pose proof (skip_ws_length r3) as L3.
      destruct (skip_ws r3) as [|c3 r4] eqn:K3; [reflexivity|].
      destruct (N.eqb c3 RBRACE); [reflexivity|].
      destruct (N.eqb c3 COMMA); [|reflexivity].
      pose proof (skip_ws_length r4) as L4.
      apply IHm; simpl in *; lia.
    + intros acc s m Hn Hm.
      destruct m as [|m]; [lia|].
      cbn [parse_elements].
      rewrite (IHv s m) by lia.
      destruct (scan_once m s) as [[val r1]|] eqn:V; [|reflexivity].
      apply scan_once_length in V.
      pose proof (skip_ws_length r1) as L1.
      destruct (skip_ws r1) as [|c1 r2] eqn:K1; [reflexivity|].
      destruct (N.eqb c1 RBRACKET); [reflexivity|].
      destruct (N.eqb c1 COMMA); [|reflexivity].
      pose proof (skip_ws_length r2) as L2.
      apply IHe; simpl in *; lia.
Qed.

(** The decoder does not depend on the fuel [loads] gives it. *)
Lemma loads_fuel (s : str) (n : nat) :
  2 * length s <= n ->
  loads s = match scan_once n (skip_ws s) with
            | Some (v, r) => match skip_ws r with
                             | [] => Some v
                             | _ :: _ => None
                             end
            | None => None
            end.
Proof.
  intros Hn. unfold loads.
  destruct (readers_fuel (S (2 * length s))) as (Hv & _ & _).
  pose proof (skip_ws_length s) as L.
  rewrite (Hv (skip_ws s) n) by lia. reflexivity.
Qed.

(** *** The object the text starts with *)

Lemma skip_ws_nil (r : str) :
  skip_ws r = [] -> Forall (fun c => is_ws c = true) r.
Proof.
  induction r as [|c r IH]; simpl; intros H; [constructor|].
  destruct (is_ws c) eqn:E; [|discriminate].
  constructor; [exact E | apply IH; exact H].
Qed.

(** Nothing but white space after a closing brace, in a text that ends
    with a closing brace: there is nothing after it. *)
Lemma closing_brace_last (x r body : str) :
  x ++ RBRACE :: r = body ++ [RBRACE] ->
  Forall (fun c => is_ws c = true) r ->
  r = [] /\ x = body.
Proof.
  intros E Hr. destruct (exists_last (l := RBRACE :: r)) as (l' & z & El);
    [discriminate|].
  destruct r as [|c r].
  - split; [reflexivity|]. apply app_inj_tail in E. apply E.
  - exfalso.
    assert (Z : is_ws z = true).
    { rewrite Forall_forall in Hr. apply Hr.
      destruct l' as [|y l']; simpl in El; injection El as _ El.
      - destruct r; discriminate.
      - rewrite El. apply in_or_app. right. left. reflexivity. }
    rewrite El, app_assoc in E. apply app_inj_tail in E. destruct E as [_ E].
    subst z. discriminate Z.
Qed.

(** What lies between the braces of a strictly decodable object is
    tidy: its own braces are in strings or in balanced pairs, and its
    backticks are in strings, which hold no line feed. *)
Lemma object_body_tidy (body : str) (v : json) :
  loads (LBRACE :: body ++ [RBRACE]) = Some v -> tidy body.
Proof.
  unfold loads.
  change (skip_ws (LBRACE :: body ++ [RBRACE])) with (LBRACE :: body ++ [RBRACE]).
  destruct (scan_once _ _) as [[v' r]|] eqn:S; [|discriminate].
  destruct (skip_ws r) eqn:K; [|discriminate]. intros _.
  apply skip_ws_nil in K.
  cbn [scan_once] in S. change (N.eqb LBRACE QUOTE) with false in S.
  change (N.eqb LBRACE LBRACE) with true in S. cbv iota in S.
  destruct (skip_ws_split (body ++ [RBRACE])) as (w & Es & Hw).
  destruct (skip_ws (body ++ [RBRACE])) as [|c2 r2] eqn:K2; [discriminate|].
  destruct (N.eqb_spec c2 RBRACE) as [->|_].
  - injection S as _ <-. symmetry in Es.
    destruct (closing_brace_last _ _ _ Es K) as [_ <-].
    apply tidy_plain, Hw.
  - destruct (readers_tidy (2 * length (LBRACE :: body ++ [RBRACE]))) as (_ & Hm & _).
    apply Hm in S. destruct S as (cm & Em & Hcm).
    rewrite Em, app_assoc in Es. symmetry in Es.
    destruct (closing_brace_last _ _ _ Es K) as [_ <-].
    apply tidy_app; [apply tidy_plain, Hw | exact Hcm].
Qed.

Lemma find_first (c : N) (pre rest : str) :
  find c pre = None -> find c (pre ++ c :: rest) = Some (length pre).
Proof.
  induction pre as [|x pre IH]; simpl; intros H.
  - rewrite N.eqb_refl. reflexivity.
  - destruct (N.eqb x c); [discriminate|].
    destruct (find c pre); [discriminate|]. rewrite IH; reflexivity.
Qed.

(** The locator on a stripped text whose first opening brace starts a
    strictly decodable object. *)
Lemma extract_first_object (text pre body suf : str) (v : json) :
  strip_markdown text = pre ++ (LBRACE :: body ++ [RBRACE]) ++ suf ->
  find LBRACE pre = None ->
  loads (LBRACE :: body ++ [RBRACE]) = Some v ->
  _extract_json_object text = Some (LBRACE :: body ++ [RBRACE]).
Proof.
  intros Ht Hpre Hv. unfold _extract_json_object. rewrite Ht.
  set (obj := LBRACE :: body ++ [RBRACE]) in *.
  set (t := pre ++ obj ++ suf).
  assert (Hf : find LBRACE t = Some (length pre)).
  { unfold t, obj. apply find_first. exact Hpre. }
  assert (Hs : skipn (length pre) t = obj ++ suf).
  { unfold t. rewrite skipn_app, Nat.sub_diag, skipn_all. reflexivity. }
  assert (Hj : slice t (length pre) (S (length pre) + length body + 1) = obj).
  { unfold slice. rewrite Hs.
    assert (L : length obj = S (length body + 1))
      by (unfold obj; cbn [length]; rewrite length_app; reflexivity).
    replace (S (length pre) + length body + 1 - length pre) with (length obj)
      by (rewrite L; lia).
    rewrite firstn_app, Nat.sub_diag, firstn_all. cbn [firstn]. apply app_nil_r. }
  assert (R : scan t (length pre) (obj ++ suf) (length pre) 0 false false = Some obj).
  { unfold obj. change ((LBRACE :: body ++ [RBRACE]) ++ suf)
      with (LBRACE :: (body ++ [RBRACE]) ++ suf).
    rewrite scan_step by reflexivity. cbn [next].
    change (N.eqb LBRACE BACKSLASH) with false.
    change (N.eqb LBRACE QUOTE) with false.
    change (N.eqb LBRACE LBRACE) with true. cbv iota. cbn [negb].
    rewrite <- app_assoc.
    rewrite (scan_quiet t (length pre) body _ _ _ _ _ 1%Z false false)
      by (apply (object_body_tidy body v Hv); lia).
    change ([RBRACE] ++ suf) with (RBRACE :: suf).
    rewrite (scan_closes t (length pre) suf _ v);
      fold obj; rewrite Hj; [reflexivity | exact Hv]. }
  destruct t as [|c0 t0] eqn:Et.
  - unfold t in Et. destruct pre; discriminate.
  - rewrite Hf, Hs, R. reflexivity.
Qed.

(** *** The fence patterns around the object *)

Lemma last_of_app (prev : option N) (a b : str) :
  last_of prev (a ++ b) = last_of (last_of prev a) b.
Proof.
  revert prev. induction a as [|c a IH]; intros prev; [reflexivity|].
  change ((c :: a) ++ b) with (c :: a ++ b). rewrite !last_of_cons. apply IH.
Qed.

Lemma not_in_app_r (x : N) (a b : str) : ~ In x (a ++ b) -> ~ In x b.
Proof. intros H G. apply H, in_or_app. right. exact G. Qed.

Lemma find_none (c : N) (s : str) : find c s = None <-> ~ In c s.
Proof.
  induction s as [|x s IH]; simpl.
  - split; [intros _ [] | reflexivity].
  - destruct (N.eqb_spec x c) as [->|Hx].
    + split; [discriminate | intros H; exfalso; apply H; left; reflexivity].
    + destruct (find c s).
      * split; [discriminate|]. intros H. exfalso.
        assert (G : ~ In c s) by (intros G; apply H; right; exact G).
        apply IH in G. discriminate G.
      * split; [|reflexivity]. intros _ [E|E]; [contradiction|].
        destruct IH as [IH _]. exact (IH eq_refl E).
Qed.

(** A loop over a body that consumes no [x] stops before the first [x]. *)
Lemma greedy_avoids (A : Type) (x : N) (rest : str)
      (body : option N -> str -> caps -> cont A -> option A) (k : cont A) :
  (forall prev w c (k' : cont A) a,
      ~ In x w -> body prev (w ++ x :: rest) c k' = Some a ->
      exists w1 w2 c',
        w = w1 ++ w2 /\ k' (last_of prev w1) (w2 ++ x :: rest) c' = Some a) ->
  forall n prev w c a,
    ~ In x w -> greedy body k n prev (w ++ x :: rest) c = Some a ->
    exists w1 w2 c',
      w = w1 ++ w2 /\ k (last_of prev w1) (w2 ++ x :: rest) c' = Some a.
Proof.
  intros Hb. induction n as [|n IH]; intros prev w c a Hw H.
  - exists [], w, c. split; [reflexivity | exact H].
  - cbn [greedy] in H.
    destruct (body prev (w ++ x :: rest) c
                (fun prev' s' c' =>
                   if Nat.ltb (length s') (length (w ++ x :: rest))
                   then greedy body k n prev' s' c' else None))
      as [a'|] eqn:E.
    + injection H as ->. apply Hb in E; [|exact Hw].
      destruct E as (w1 & w2 & c' & -> & E). cbv beta in E.
      destruct (Nat.ltb _ _); [|discriminate].
      apply IH in E; [|apply (not_in_app_r x w1); exact Hw].
      destruct E as (w3 & w4 & c'' & -> & E).
      exists (w1 ++ w3), w4, c''. split; [apply app_assoc|].
      rewrite last_of_app. exact E.
    + exists [], w, c. split; [reflexivity | exact H].
Qed.

Lemma lazy_avoids (A : Type) (x : N) (rest : str)
      (body : option N -> str -> caps -> cont A -> option A) (k : cont A) :
  (forall prev w c (k' : cont A) a,
      ~ In x w -> body prev (w ++ x :: rest) c k' = Some a ->
      exists w1 w2 c',
        w = w1 ++ w2 /\ k' (last_of prev w1) (w2 ++ x :: rest) c' = Some a) ->
  forall n prev w c a,
    ~ In x w -> lazy body k n prev (w ++ x :: rest) c = Some a ->
    exists w1 w2 c',
      w = w1 ++ w2 /\ k (last_of prev w1) (w2 ++ x :: rest) c' = Some a.
Proof.
  intros Hb. induction n as [|n IH]; intros prev w c a Hw H; cbn [lazy] in H.
  - destruct (k prev (w ++ x :: rest) c) as [a'|] eqn:E; [|discriminate].
    injection H as ->. exists [], w, c. split; [reflexivity | exact E].
  - destruct (k prev (w ++ x :: rest) c) as [a'|] eqn:E.
    + injection H as ->. exists [], w, c. split; [reflexivity | exact E].
    + apply Hb in H; [|exact Hw].
      destruct H as (w1 & w2 & c' & -> & H). cbv beta in H.
      destruct (Nat.ltb _ _); [|discriminate].
      apply IH in H; [|apply (not_in_app_r x w1); exact Hw].
      destruct H as (w3 & w4 & c'' & -> & H).
      exists (w1 ++ w3), w4, c''. split; [apply app_assoc|].
      rewrite last_of_app. exact H.
Qed.

(** A match of a pattern that consumes no [x], started before the first
    [x] of the text, ends before it. *)
Lemma run_avoids (A : Type) (x : N) (rest : str) (r : regex) :
  avoids x r = true ->
  forall prev w c (k : cont A) a,
    ~ In x w -> run r prev (w ++ x :: rest) c k = Some a ->
    exists w1 w2 c',
      w = w1 ++ w2 /\ k (last_of prev w1) (w2 ++ x :: rest) c' = Some a.
Proof.
  induction r as [|y| | |cs| | |r1 IH1 r2 IH2|r1 IH1 r2 IH2|r IH|r IH|i r IH];
    intros Hav prev w c k a Hw H; cbn [avoids] in Hav; cbn [run] in H.
  - exists [], w, c. split; [reflexivity | exact H].
  - destruct w as [|z w]; cbn [app] in H.
    + apply negb_true_iff in Hav. rewrite N.eqb_sym, Hav in H. discriminate.
    + destruct (N.eqb z y); [|discriminate].
      exists [z], w, c. split; [reflexivity | exact H].
  - discriminate.
  - destruct w as [|z w]; cbn [app] in H.
    + apply negb_true_iff in Hav. rewrite Hav in H. discriminate.
    + destruct (isspace z); [|discriminate].
      exists [z], w, c. split; [reflexivity | exact H].
  - destruct w as [|z w]; cbn [app] in H.
    + rewrite Hav in H. discriminate.
    + destruct (mem z cs); [discriminate|].
      exists [z], w, c. split; [reflexivity | exact H].
  - exists [], w, c. split; [reflexivity|].
    destruct prev as [p|]; [|exact H].
    destruct (N.eqb p LF); [exact H | discriminate].
  - exists [], w, c. split; [reflexivity|].
    destruct (w ++ x :: rest) as [|z t]; [exact H|].
    destruct (N.eqb z LF); [exact H | discriminate].
  - apply andb_prop in Hav. destruct Hav as [Ha1 Ha2].
    apply (IH1 Ha1) in H; [|exact Hw].
    destruct H as (w1 & w2 & c' & -> & H). cbv beta in H.
    apply (IH2 Ha2) in H; [|apply (not_in_app_r x w1); exact Hw].
    destruct H as (w3 & w4 & c'' & -> & H).
    exists (w1 ++ w3), w4, c''. split; [apply app_assoc|].
    rewrite last_of_app. exact H.
  - apply andb_prop in Hav. destruct Hav as [Ha1 Ha2].
    destruct (run r1 prev (w ++ x :: rest) c k) as [a'|] eqn:E.
    + injection H as ->. exact (IH1 Ha1 _ _ _ _ _ Hw E).
    + exact (IH2 Ha2 _ _ _ _ _ Hw H).
  - apply (greedy_avoids A x rest (run (A:=A) r) k (IH Hav) _ _ _ _ _ Hw H).
  - apply (lazy_avoids A x rest (run (A:=A) r) k (IH Hav) _ _ _ _ _ Hw H).
  - apply (IH Hav) in H; [|exact Hw].
    destruct H as (w1 & w2 & c' & -> & H). cbv beta in H.
    exists w1, w2. eexists. split; [reflexivity | exact H].
Qed.

Lemma match_here_avoids (x : N) (r : regex) (prev : option N)
      (w rest : str) (h : hit) :
  avoids x r = true -> ~ In x w ->
  match_here r prev (w ++ x :: rest) = Some h ->
  exists w1 w2,
    w = w1 ++ w2 /\ after h = w2 ++ x :: rest /\ before_after h = last_of prev w1.
Proof.
  intros Hav Hw H. unfold match_here in H.
  apply (run_avoids hit x rest r Hav) in H; [|exact Hw].
  destruct H as (w1 & w2 & c' & -> & H). injection H as <-.
  exists w1, w2. repeat split.
Qed.

(** Where nothing matches from inside a stretch of text, [sub] copies
    what is left of it. *)
Lemma sub_from_inside (r : regex) (repl obj : str) :
  (forall a b prev suf, obj = a ++ b -> b <> [] ->
     match_here r (last_of prev a) (b ++ suf) = None) ->
  forall b a fuel prev suf, obj = a ++ b ->
    exists suf', sub_from fuel r repl (last_of prev a) (b ++ suf) = b ++ suf'.
Proof.
  intros Hn. induction b as [|c b IH]; intros a fuel prev suf E.
  - eexists. reflexivity.
  - destruct fuel as [|fuel]; [exists suf; reflexivity|].
    rewrite sub_from_S, (Hn a (c :: b) prev suf E) by discriminate.
    cbn [app].
    destruct (IH (a ++ [c]) fuel prev suf) as [suf' E'];
      [rewrite <- app_assoc; exact E|].
    rewrite last_of_snoc in E'. exists suf'. rewrite E'. reflexivity.
Qed.

(** [sub] with a pattern that consumes no [x] and matches nowhere from
    inside the stretch that starts at the first [x]: that stretch is kept
    as it is, and no [x] comes before it. *)
Lemma sub_from_around (r : regex) (x : N) (obj : str) :
  avoids x r = true ->
  (forall a b prev suf, x :: obj = a ++ b -> b <> [] ->
     match_here r (last_of prev a) (b ++ suf) = None) ->
  forall fuel pre prev suf, ~ In x pre ->
    exists pre' suf',
      sub_from fuel r [] prev (pre ++ (x :: obj) ++ suf) = pre' ++ (x :: obj) ++ suf'
      /\ ~ In x pre'.
Proof.
  intros Hav Hn. induction fuel as [|fuel IH]; intros pre prev suf Hpre.
  - exists pre, suf. split; [reflexivity | exact Hpre].
  - rewrite sub_from_S. destruct pre as [|c pre].
    + cbn [app].
      pose proof (Hn [] (x :: obj) prev suf eq_refl) as M.
      change (last_of prev []) with prev in M. cbn [app] in M.
      rewrite M by discriminate.
      destruct (sub_from_inside r [] (x :: obj) Hn obj [x] fuel prev suf eq_refl)
        as [suf' E].
      change (last_of prev [x]) with (Some x) in E. rewrite E.
      exists [], suf'. split; [reflexivity | intros []].
    + assert (Hc : c <> x) by (intros ->; apply Hpre; left; reflexivity).
      assert (Hp : ~ In x pre) by (intros G; apply Hpre; right; exact G).
      assert (Step : exists pre' suf',
                 c :: sub_from fuel r [] (Some c) (pre ++ (x :: obj) ++ suf)
                 = pre' ++ (x :: obj) ++ suf' /\ ~ In x pre').
      { destruct (IH pre (Some c) suf Hp) as (p' & s' & E & Hp').
        exists (c :: p'), s'. split; [rewrite E; reflexivity|].
        intros [G|G]; [exact (Hc G) | exact (Hp' G)]. }
      destruct (match_here r prev ((c :: pre) ++ (x :: obj) ++ suf)) as [h|] eqn:M.
      * change ((c :: pre) ++ (x :: obj) ++ suf)
          with ((c :: pre) ++ x :: obj ++ suf) in M.
        apply match_here_avoids in M; [|exact Hav | exact Hpre].
        destruct M as (w1 & w2 & Ew & Ea & Eb). rewrite Ea, Eb.
        destruct (Nat.ltb _ _).
        -- cbn [app].
           destruct (IH w2 (last_of prev w1) suf) as (p' & s' & E & Hp').
           { apply (not_in_app_r x w1). rewrite <- Ew. exact Hpre. }
           exists p', s'. split; [exact E | exact Hp'].
        -- cbn [app]. exact Step.
      * cbn [app]. exact Step.
Qed.

(** Inside tame text the opening pattern matches nowhere. *)
Lemma no_fence_open_inside (obj : str) :
  tame true obj = true ->
  forall a b prev suf, obj = a ++ b -> b <> [] ->
    match_here FENCE_OPEN (last_of prev a) (b ++ suf) = None.
Proof.
  intros Ht a b prev suf E Hb.
  destruct (match_here FENCE_OPEN (last_of prev a) (b ++ suf)) as [h|] eqn:M;
    [exfalso | reflexivity].
  apply fence_open_match in M. destruct M as [Hp [b' Eb]].
  destruct b as [|c b]; [contradiction|].
  injection Eb as -> Eb. subst obj.
  apply (tame_weaken _ (line_start prev)) in Ht.
  apply tame_at in Ht. destruct Ht as [Hl _].
  unfold line_start in Hl. rewrite Hl in Hp. discriminate.
Qed.

Lemma guarded_no_eol (x : str) :
  guarded x = true ->
  forall w b suf, x ++ suf = w ++ b ->
    Forall (fun c => isspace c = true) w ->
    (b = [] \/ exists b', b = LF :: b') -> False.
Proof.
  induction x as [|c x IH]; cbn [guarded]; [discriminate|].
  intros Hg w b suf E Hw Hb.
  destruct w as [|y w]; cbn [app] in E.
  - destruct Hb as [->|[b' ->]]; [discriminate E|].
    injection E as -> _. change (isspace LF) with true in Hg.
    discriminate Hg.
  - injection E as -> E. inversion Hw as [|? ? Hy Hw']; subst.
    rewrite Hy in Hg. apply andb_prop in Hg. destruct Hg as [_ Hg].
    exact (IH Hg w b suf E Hw' Hb).
Qed.

Lemma guarded_cons (x : str) : guarded x = true -> exists c x', x = c :: x'.
Proof. destruct x as [|c x']; [discriminate | intros _; exists c, x'; reflexivity]. Qed.

(** Inside tame text the closing pattern matches nowhere. *)
Lemma no_fence_close_inside (obj : str) :
  tame true obj = true ->
  forall a b prev suf, obj = a ++ b -> b <> [] ->
    match_here FENCE_CLOSE (last_of prev a) (b ++ suf) = None.
Proof.
  intros Ht a b prev suf E Hb.
  destruct (match_here FENCE_CLOSE (last_of prev a) (b ++ suf)) as [h|] eqn:M;
    [exfalso | reflexivity].
  apply fence_close_match in M. destruct M as (w & b' & Eb & Hw & Hb').
  apply (tame_weaken _ (line_start None)) in Ht.
  destruct b as [|c b]; [contradiction|].
  injection Eb as -> Eb. subst obj.
  pose proof (tame_at a b None Ht) as [_ G1].
  destruct (guarded_cons b G1) as (c1 & b1 & ->).
  injection Eb as -> Eb.
  pose proof (tame_at (a ++ [BACKTICK]) b1 None) as T2.
  rewrite <- app_assoc in T2. destruct (T2 Ht) as [_ G2].
  destruct (guarded_cons b1 G2) as (c2 & b2 & ->).
  injection Eb as -> Eb.
  pose proof (tame_at ((a ++ [BACKTICK]) ++ [BACKTICK]) b2 None) as T3.
  rewrite <- !app_assoc in T3. destruct (T3 Ht) as [_ G3].
  exact (guarded_no_eol b2 G3 w b' suf Eb Hw Hb').
Qed.

Lemma lstrip_around (pre rest : str) (x : N) :
  isspace x = false ->
  exists pre', lstrip (pre ++ x :: rest) = pre' ++ x :: rest
               /\ forall y, In y pre' -> In y pre.
Proof.
  intros Hx. induction pre as [|c pre (p' & E & Hp')]; cbn [app lstrip].
  - rewrite Hx. exists []. split; [reflexivity | trivial].
  - destruct (isspace c).
    + exists p'. split; [exact E|]. intros y Hy. right. apply Hp'. exact Hy.
    + exists (c :: pre). split; [reflexivity | trivial].
Qed.

Lemma rstrip_around (s suf : str) (x : N) :
  isspace x = false ->
  exists suf', rstrip (s ++ x :: suf) = s ++ x :: suf'.
Proof.
  intros Hx. unfold rstrip. rewrite rev_app_distr. cbn [rev].
  rewrite <- app_assoc. cbn [app].
  destruct (lstrip_around (rev suf) (rev s) x Hx) as (p' & E & _).
  rewrite E, rev_app_distr. cbn [rev].
  rewrite rev_involutive, <- app_assoc. exists (rev p'). reflexivity.
Qed.

(** The first three statements of the locator leave an object with tame
    text where it is, as the stretch that starts at the first opening
    brace. *)
Lemma strip_markdown_around (pre body suf : str) :
  ~ In LBRACE pre -> tame true (LBRACE :: body ++ [RBRACE]) = true ->
  exists pre' suf',
    strip_markdown (pre ++ (LBRACE :: body ++ [RBRACE]) ++ suf)
    = pre' ++ (LBRACE :: body ++ [RBRACE]) ++ suf'
    /\ ~ In LBRACE pre'.
Proof.
  intros Hpre Ht. unfold strip_markdown, sub.
  destruct (sub_from_around FENCE_OPEN LBRACE (body ++ [RBRACE]) eq_refl
              (no_fence_open_inside _ Ht)
              (S (length (pre ++ (LBRACE :: body ++ [RBRACE]) ++ suf)))
              pre None suf Hpre) as (p1 & s1 & E1 & H1).
  rewrite E1.
  destruct (sub_from_around FENCE_CLOSE LBRACE (body ++ [RBRACE]) eq_refl
              (no_fence_close_inside _ Ht)
              (S (length (p1 ++ (LBRACE :: body ++ [RBRACE]) ++ s1)))
              p1 None s1 H1) as (p2 & s2 & E2 & H2).
  rewrite E2. unfold strip.
  destruct (lstrip_around p2 ((body ++ [RBRACE]) ++ s2) LBRACE eq_refl)
    as (p3 & E3 & H3).
  change (p2 ++ (LBRACE :: body ++ [RBRACE]) ++ s2)
    with (p2 ++ LBRACE :: (body ++ [RBRACE]) ++ s2).
  rewrite E3.
  replace (p3 ++ LBRACE :: (body ++ [RBRACE]) ++ s2)
    with ((p3 ++ LBRACE :: body) ++ RBRACE :: s2)
    by (rewrite <- !app_assoc; reflexivity).
  destruct (rstrip_around (p3 ++ LBRACE :: body) s2 RBRACE eq_refl) as (s3 & E4).
  rewrite E4. exists p3, s3. split.
  - cbn [app]. rewrite <- !app_assoc. reflexivity.
  - intros G. apply H2, H3. exact G.
Qed.

(** The locator on a text whose first opening brace starts a strictly
    decodable object. *)
Lemma extract_object_in_text (pre body suf : str) (v : json) :
  find LBRACE pre = None ->
  loads (LBRACE :: body ++ [RBRACE]) = Some v ->
  _extract_json_object (pre ++ (LBRACE :: body ++ [RBRACE]) ++ suf)
  = Some (LBRACE :: body ++ [RBRACE]).
Proof.
  intros Hpre Hv.
  destruct (strip_markdown_around pre body suf) as (p' & s' & E & Hp').
  - apply find_none. exact Hpre.
  - apply tidy_braces. apply (object_body_tidy body v Hv).
  - apply (extract_first_object _ p' body s' v E); [|exact Hv].
    apply find_none. exact Hp'.
Qed.

(** C1, as stated, fails: braces in the prose before the object make the
    scan start too early, and it finds nothing. *)
Lemma C1_counterexample :
  exists pre obj suf,
    qlit "Format {x}. Result: {'description': 'a {b} c'}" = pre ++ obj ++ suf /\
    loads obj = Some (JObj [(lit "description", JStr (lit "a {b} c"))]) /\
    _extract_json_object (qlit "Format {x}. Result: {'description': 'a {b} c'}") = None.
Proof.
  exists (lit "Format {x}. Result: "), (qlit "{'description': 'a {b} c'}"), [].
  repeat split; vm_compute; reflexivity.
Qed.

(** C1, amended. When the first opening brace of the text starts a
    well-formed JSON object, the locator returns exactly the span of that
    object, which decodes to it, whatever braces its string values hold
    and whatever fences, prose or braces surround it after that first
    brace. In the scan the character after a backslash is skipped, a
    double quote that is not skipped toggles the in-string flag and no
    other character changes it, and inside a string no other character
    changes anything: braces there leave the depth alone. *)
Theorem C1_first_object_located (text pre body suf : str) (v : json) :
  text = pre ++ (LBRACE :: body ++ [RBRACE]) ++ suf ->
  find LBRACE pre = None ->
  loads (LBRACE :: body ++ [RBRACE]) = Some v ->
  (_extract_json_object text = Some (LBRACE :: body ++ [RBRACE]) /\
   parse_located (_extract_json_object text) = v) /\
  (forall t start c rest i b ins,
      scan t start (c :: rest) i b ins true = scan t start rest (S i) b ins false) /\
  (forall t start rest i b ins,
      scan t start (BACKSLASH :: rest) i b ins false
      = scan t start rest (S i) b ins true) /\
  (forall t start rest i b ins,
      scan t start (QUOTE :: rest) i b ins false
      = scan t start rest (S i) b (negb ins) false) /\
  (forall t start c rest i b,
      c <> QUOTE -> c <> BACKSLASH ->
      scan t start (c :: rest) i b true false = scan t start rest (S i) b true false).
Proof.
  intros -> Hpre Hv.
  pose proof (extract_object_in_text pre body suf v Hpre Hv) as E.
  split; [split; [exact E|]|].
  - rewrite E. unfold parse_located, _safe_parse_json, parse_with.
    rewrite Hv. reflexivity.
  - split; [|split; [|split]].
    + intros. reflexivity.
    + intros. reflexivity.
    + intros. reflexivity.
    + intros t start c rest i b H1 H2. simpl.
      destruct (N.eqb_spec c BACKSLASH); [contradiction|].
      destruct (N.eqb_spec c QUOTE); [contradiction|]. reflexivity.
Qed.

Lemma C1_first_object_located_witness :
  _extract_json_object
    (lit "Here:" ++ [LF] ++ lit "```json" ++ [LF]
       ++ qlit "{'description': 'a {b} c', 'n': {'k': '}'}}" ++ [LF]
       ++ lit "```" ++ [LF] ++ lit "done {")
  = Some (qlit "{'description': 'a {b} c', 'n': {'k': '}'}}").
Proof.
  apply (C1_first_object_located
           (lit "Here:" ++ [LF] ++ lit "```json" ++ [LF]
              ++ qlit "{'description': 'a {b} c', 'n': {'k': '}'}}" ++ [LF]
              ++ lit "```" ++ [LF] ++ lit "done {")
           (lit "Here:" ++ [LF] ++ lit "```json" ++ [LF])
           (qlit "'description': 'a {b} c', 'n': {'k': '}'}")
           ([LF] ++ lit "```" ++ [LF] ++ lit "done {")
           (JObj [(lit "description", JStr (lit "a {b} c"));
                  (lit "n", JObj [(lit "k", JStr (lit "}"))])])).
  - vm_compute; reflexivity.
  - reflexivity.
  - vm_compute; reflexivity.
Defined.

(* ===================================================================== *)
(** * Part IV: further properties of the code                            *)
(* ===================================================================== *)

(** ** The locator: when it finds nothing, and the shape of what it finds *)

Lemma In_skipn_in (A : Type) (k : nat) (l : list A) (x : A) :
  In x (skipn k l) -> In x l.
Proof.
  intros H. rewrite <- (firstn_skipn k l). apply in_or_app. right. exact H.
Qed.

(** A loop calls what follows it on an end of the text it was given. *)
Lemma greedy_suffix (A : Type)
      (body : option N -> str -> caps -> cont A -> option A) (k : cont A) :
  (forall prev s c (k' : cont A) a,
      body prev s c k' = Some a ->
      exists p s' prev' c', s = p ++ s' /\ k' prev' s' c' = Some a) ->
  forall n prev s c a,
    greedy body k n prev s c = Some a ->
    exists p s' prev' c', s = p ++ s' /\ k prev' s' c' = Some a.
Proof.
  intros Hb. induction n as [|n IH]; intros prev s c a H.
  - exists [], s, prev, c. split; [reflexivity | exact H].
  - cbn [greedy] in H.
    destruct (body prev s c
                (fun prev' s' c' =>
                   if Nat.ltb (length s') (length s)
                   then greedy body k n prev' s' c' else None))
      as [a'|] eqn:E.
    + injection H as ->. apply Hb in E.
      destruct E as (p & s' & prev' & c' & -> & E). cbv beta in E.
      destruct (Nat.ltb _ _); [|discriminate].
      apply IH in E. destruct E as (p2 & s2 & prev2 & c2 & -> & E).
      exists (p ++ p2), s2, prev2, c2. split; [apply app_assoc | exact E].
    + exists [], s, prev, c. split; [reflexivity | exact H].
Qed.

Lemma lazy_suffix (A : Type)
      (body : option N -> str -> caps -> cont A -> option A) (k : cont A) :
  (forall prev s c (k' : cont A) a,
      body prev s c k' = Some a ->
      exists p s' prev' c', s = p ++ s' /\ k' prev' s' c' = Some a) ->
  forall n prev s c a,
    lazy body k n prev s c = Some a ->
    exists p s' prev' c', s = p ++ s' /\ k prev' s' c' = Some a.
Proof.
  intros Hb. induction n as [|n IH]; intros prev s c a H; cbn [lazy] in H.
  - destruct (k prev s c) as [a'|] eqn:E; [|discriminate].
    injection H as ->. exists [], s, prev, c. split; [reflexivity | exact E].
  - destruct (k prev s c) as [a'|] eqn:E.
    + injection H as ->. exists [], s, prev, c. split; [reflexivity | exact E].
    + apply Hb in H. destruct H as (p & s' & prev' & c' & -> & H). cbv beta in H.
      destruct (Nat.ltb _ _); [|discriminate].
      apply IH in H. destruct H as (p2 & s2 & prev2 & c2 & -> & H).
      exists (p ++ p2), s2, prev2, c2. split; [apply app_assoc | exact H].
Qed.

(** The matcher moves forward in the text: what comes after a match is
    an end of the text the match started on. *)
Lemma run_suffix (A : Type) (r : regex) :
  forall prev s c (k : cont A) a,
    run r prev s c k = Some a ->
    exists p s' prev' c', s = p ++ s' /\ k prev' s' c' = Some a.
Proof.
  induction r as [|y| | |cs| | |r1 IH1 r2 IH2|r1 IH1 r2 IH2|r IH|r IH|i r IH];
    intros prev s c k a H; cbn [run] in H.
  - exists [], s, prev, c. split; [reflexivity | exact H].
  - destruct s as [|z s]; [discriminate|].
    destruct (N.eqb z y); [|discriminate].
    exists [z], s, (Some z), c. split; [reflexivity | exact H].
  - destruct s as [|z s]; [discriminate|].
    exists [z], s, (Some z), c. split; [reflexivity | exact H].
  - destruct s as [|z s]; [discriminate|].
    destruct (isspace z); [|discriminate].
    exists [z], s, (Some z), c. split; [reflexivity | exact H].
  - destruct s as [|z s]; [discriminate|].
    destruct (mem z cs); [discriminate|].
    exists [z], s, (Some z), c. split; [reflexivity | exact H].
  - exists [], s, prev, c. split; [reflexivity|].
    destruct prev as [p|]; [|exact H].
    destruct (N.eqb p LF); [exact H | discriminate].
  - exists [], s, prev, c. split; [reflexivity|].
    destruct s as [|z t]; [exact H|].
    destruct (N.eqb z LF); [exact H | discriminate].
  - apply IH1 in H. destruct H as (p & s' & prev' & c' & -> & H). cbv beta in H.
    apply IH2 in H. destruct H as (p2 & s2 & prev2 & c2 & -> & H).
    exists (p ++ p2), s2, prev2, c2. split; [apply app_assoc | exact H].
  - destruct (run r1 prev s c k) as [a'|] eqn:E.
    + injection H as ->. exact (IH1 _ _ _ _ _ E).
    + exact (IH2 _ _ _ _ _ H).
  - exact (greedy_suffix A (run (A:=A) r) k IH _ _ _ _ _ H).
  - exact (lazy_suffix A (run (A:=A) r) k IH _ _ _ _ _ H).
  - apply IH in H. destruct H as (p & s' & prev' & c' & -> & H). cbv beta in H.
    exists p, s', prev'. eexists. split; [reflexivity | exact H].
Qed.

Lemma match_here_suffix (r : regex) (prev : option N) (s : str) (h : hit) :
  match_here r prev s = Some h -> exists p, s = p ++ after h.
Proof.
  unfold match_here. intros H. apply run_suffix in H.
  destruct H as (p & s' & prev' & c' & -> & H). injection H as <-.
  exists p. reflexivity.
Qed.

(** Removing the matches of a pattern brings no new character in. *)
Lemma sub_from_chars (r : regex) (x : N) (fuel : nat) :
  forall prev s, In x (sub_from fuel r [] prev s) -> In x s.
Proof.
  induction fuel as [|fuel IH]; intros prev s H; [exact H|].
  rewrite sub_from_S in H.
  destruct (match_here r prev s) as [h|] eqn:M.
  - destruct (match_here_suffix _ _ _ _ M) as [p Ep].
    destruct (Nat.ltb _ _).
    + cbn [app] in H. apply IH in H. rewrite Ep. apply in_or_app. right. exact H.
    + destruct s as [|c s]; [exact H|]. cbn [app] in H.
      destruct H as [H|H]; [left; exact H | right; exact (IH _ _ H)].
  - destruct s as [|c s]; [exact H|].
    destruct H as [H|H]; [left; exact H | right; exact (IH _ _ H)].
Qed.

Lemma strip_chars (x : N) (s : str) : In x (strip s) -> In x s.
Proof.
  unfold strip. intros H.
  destruct (rstrip_prefix (lstrip s)) as [k Hk]. rewrite Hk in H.
  apply firstn_subset in H.
  destruct (lstrip_suffix s) as [j Hj]. rewrite Hj in H.
  exact (In_skipn_in _ _ _ _ H).
Qed.

(** The first three statements of the locator only remove characters. *)
Lemma strip_markdown_chars (x : N) (text : str) :
  In x (strip_markdown text) -> In x text.
Proof.
  unfold strip_markdown, sub. intros H.
  apply strip_chars in H. apply sub_from_chars in H. apply sub_from_chars in H.
  exact H.
Qed.

Lemma extract_no_brace (text : str) :
  find LBRACE text = None -> _extract_json_object text = None.
Proof.
  intros H. unfold _extract_json_object.
  destruct (strip_markdown text) as [|c t] eqn:Et; [reflexivity|].
  destruct (find LBRACE (c :: t)) as [start|] eqn:Ef; [|reflexivity].
  exfalso. apply find_none in H. apply H.
  apply strip_markdown_chars. rewrite Et.
  destruct (find_skipn _ _ _ Ef) as [s' Hs'].
  apply (In_skipn_in _ start). rewrite Hs'. left. reflexivity.
Qed.

(** X1. A text without an opening brace gives [None]: the stripping of
    fences and white space only removes characters, so it brings no
    brace in, and without one the locator stops at line 35. *)
Theorem X1_no_brace_not_found (text : str) :
  find LBRACE text = None -> _extract_json_object text = None.
Proof. apply extract_no_brace. Qed.

Lemma X1_no_brace_not_found_witness :
  _extract_json_object (lit "```json" ++ [LF] ++ lit "sorry, no data" ++ [LF] ++ lit "```")
  = None.
Proof.
  apply (X1_no_brace_not_found
           (lit "```json" ++ [LF] ++ lit "sorry, no data" ++ [LF] ++ lit "```")).
  reflexivity.
Defined.

Lemma skipn_S_cons (A : Type) (i : nat) :
  forall (l : list A) c r, skipn i l = c :: r -> skipn (S i) l = r.
Proof.
  induction i as [|i IH]; intros l c r H.
  - simpl in H. subst l. reflexivity.
  - destruct l as [|x l]; [discriminate|]. simpl in H. apply IH in H. exact H.
Qed.

Lemma firstn_S_skipn (A : Type) (n : nat) :
  forall (l : list A) c r, skipn n l = c :: r -> firstn (S n) l = firstn n l ++ [c].
Proof.
  induction n as [|n IH]; intros l c r H.
  - simpl in H. subst l. reflexivity.
  - destruct l as [|x l]; [discriminate|]. simpl in H.
    change (firstn (S (S n)) (x :: l)) with (x :: firstn (S n) l).
    rewrite (IH _ _ _ H). reflexivity.
Qed.

(** The candidate the scan returns ends with the closing brace it was
    tried at. *)
Lemma scan_last (text : str) (start_idx : nat) (rest : str) :
  forall i b ins esc s,
    skipn i text = rest -> start_idx <= i ->
    scan text start_idx rest i b ins esc = Some s ->
    exists a, s = a ++ [RBRACE].
Proof.
  induction rest as [|c rest IH]; intros i b ins esc s Hr Hi H;
    cbn [scan] in H; [discriminate|].
  assert (Hn : skipn (S i) text = rest) by (eapply skipn_S_cons; exact Hr).
  assert (Go : forall b' ins' esc',
             scan text start_idx rest (S i) b' ins' esc' = Some s ->
             exists a, s = a ++ [RBRACE]).
  { intros b' ins' esc' G. apply (IH (S i) b' ins' esc' s Hn); [lia | exact G]. }
  destruct esc; [eauto|].
  destruct (N.eqb c BACKSLASH); [eauto|].
  destruct (N.eqb c QUOTE); [eauto|].
  destruct (negb ins); [|eauto].
  destruct (N.eqb c LBRACE); [eauto|].
  destruct (N.eqb_spec c RBRACE) as [->|]; [|eauto].
  destruct (Z.eqb (b - 1) 0); [|eauto].
  destruct (loads (slice text start_idx (i + 1))) as [v|] eqn:E; [|eauto].
  injection H as <-. unfold slice.
  replace (i + 1 - start_idx) with (S (i - start_idx)) by lia.
  exists (firstn (i - start_idx) (skipn start_idx text)).
  apply (firstn_S_skipn _ _ _ _ rest).
  rewrite skipn_skipn. replace (i - start_idx + start_idx) with i by lia.
  exact Hr.
Qed.

(** What the locator returns ends with a character that is no white
    space. *)
Lemma located_ends (text s : str) :
  _extract_json_object text = Some s ->
  exists a c, s = a ++ [c] /\ isspace c = false.
Proof.
  unfold _extract_json_object.
  destruct (strip_markdown text) as [|c0 t] eqn:Et; [discriminate|].
  destruct (find LBRACE (c0 :: t)) as [start|] eqn:Ef; [|discriminate].
  destruct (scan _ _ _ _ _ _ _) as [r|] eqn:Es.
  - intros H; injection H as <-.
    destruct (scan_last _ _ _ _ _ _ _ _ eq_refl (le_n _) Es) as [a ->].
    exists a, RBRACE. split; reflexivity.
  - destruct (loads (strip (skipn start (c0 :: t)))) as [v|] eqn:El; [|discriminate].
    intros H; injection H as <-.
    destruct (exists_last (l := strip (skipn start (c0 :: t)))) as (a & c & E).
    + intros E. rewrite E in El. discriminate El.
    + exists a, c. split; [exact E|].
      unfold strip in E. exact (rstrip_no_trail _ _ _ E).
Qed.

Lemma members_object (n : nat) :
  forall acc s v r, parse_members n acc s = Some (v, r) -> exists d, v = JObj d.
Proof.
  induction n as [|n IH]; intros acc s v r H; [discriminate|].
  cbn [parse_members] in H.
  destruct s as [|c s']; [discriminate|].
  destruct (N.eqb c QUOTE); [|discriminate].
  destruct (scanstring s') as [[key r1]|]; [|discriminate].
  destruct (skip_ws r1) as [|c1 r2]; [discriminate|].
  destruct (N.eqb c1 COLON); [|discriminate].
  destruct (scan_once n (skip_ws r2)) as [[val r3]|]; [|discriminate].
  destruct (skip_ws r3) as [|c3 r4]; [discriminate|].
  destruct (N.eqb c3 RBRACE).
  - injection H as <- _. eexists. reflexivity.
  - destruct (N.eqb c3 COMMA); [|discriminate]. exact (IH _ _ _ _ H).
Qed.

(** A text that starts with an opening brace and that the decoder
    accepts is an object, closed by a brace with only white space after
    it. *)
Lemma loads_object_text (t : str) (v : json) :
  loads (LBRACE :: t) = Some v ->
  exists d x r,
    v = JObj d /\ t = x ++ RBRACE :: r /\ Forall (fun c => is_ws c = true) r.
Proof.
  unfold loads.
  change (skip_ws (LBRACE :: t)) with (LBRACE :: t).
  destruct (scan_once _ _) as [[v' r]|] eqn:S; [|discriminate].
  destruct (skip_ws r) eqn:K; [|discriminate]. intros H. injection H as ->.
  apply skip_ws_nil in K.
  cbn [scan_once] in S. change (N.eqb LBRACE QUOTE) with false in S.
  change (N.eqb LBRACE LBRACE) with true in S. cbv iota in S.
  destruct (skip_ws_split t) as (w & Es & Hw).
  destruct (skip_ws t) as [|c2 r2] eqn:K2; [discriminate|].
  destruct (N.eqb_spec c2 RBRACE) as [->|_].
  - injection S as <- <-. exists [], w, r2. repeat split; assumption.
  - destruct (members_object _ _ _ _ _ S) as [d ->].
    destruct (readers_tidy (2 * length (LBRACE :: t))) as (_ & Hm & _).
    apply Hm in S. destruct S as (cm & Em & _).
    exists d, (w ++ cm), r. repeat split; [|exact K].
    rewrite Es, Em, <- app_assoc. reflexivity.
Qed.

Lemma is_ws_isspace (c : N) : is_ws c = true -> isspace c = true.
Proof.
  unfold is_ws. intros H.
  repeat (apply orb_prop in H; destruct H as [H|H]);
    apply N.eqb_eq in H; subst c; reflexivity.
Qed.

Lemma find_firstn_none (c : N) (s : str) :
  forall i, find c s = Some i -> find c (firstn i s) = None.
Proof.
  induction s as [|x s IH]; intros i H; [discriminate|].
  simpl in H. destruct (N.eqb x c) eqn:E.
  - injection H as <-. reflexivity.
  - destruct (find c s) as [j|]; [|discriminate]. injection H as <-.
    simpl. rewrite E, (IH j eq_refl). reflexivity.
Qed.

(** What the locator returns: the span of an object, from the first
    opening brace of the stripped text to a closing brace. *)
Lemma located_shape (text j : str) :
  _extract_json_object text = Some j ->
  exists pre body suf d,
    strip_markdown text = pre ++ j ++ suf /\
    find LBRACE pre = None /\
    j = LBRACE :: body ++ [RBRACE] /\
    loads j = Some (JObj d).
Proof.
  intros H.
  destruct (extract_sound _ _ H) as [v Hv].
  destruct (extract_prefix _ _ H) as (start & k & Hf & Hj).
  destruct (located_ends _ _ H) as (a & c & Ea & Hc).
  destruct (find_skipn _ _ _ Hf) as [s' Hs'].
  assert (Hsplit : strip_markdown text
                   = firstn start (strip_markdown text) ++ j
                     ++ skipn k (skipn start (strip_markdown text))).
  { rewrite Hj, firstn_skipn, firstn_skipn. reflexivity. }
  rewrite Hs' in Hj.
  destruct k as [|k]; [simpl in Hj; subst j; destruct a; discriminate|].
  cbn [firstn] in Hj.
  rewrite Hj in Hv. destruct (loads_object_text _ _ Hv) as (d & x & r & -> & Ex & Hr).
  assert (R : r = []).
  { destruct r as [|z r]; [reflexivity|]. exfalso.
    destruct (exists_last (l := z :: r)) as (r' & z' & Er); [discriminate|].
    assert (Z : is_ws z' = true).
    { rewrite Forall_forall in Hr. apply Hr. rewrite Er.
      apply in_or_app. right. left. reflexivity. }
    rewrite Hj, Ex, Er in Ea.
    change (LBRACE :: x ++ RBRACE :: r' ++ [z'])
      with ((LBRACE :: x) ++ (RBRACE :: r') ++ [z']) in Ea.
    rewrite app_assoc in Ea. apply app_inj_tail in Ea. destruct Ea as [_ <-].
    apply is_ws_isspace in Z. rewrite Z in Hc. discriminate. }
  subst r.
  exists (firstn start (strip_markdown text)), x,
         (skipn (S k) (skipn start (strip_markdown text))), d.
  split; [exact Hsplit|]. split; [apply find_firstn_none; exact Hf|].
  rewrite Hj, Ex. split; [reflexivity|]. rewrite <- Ex. exact Hv.
Qed.

(** X2. Whatever the locator returns is the span of an object: it starts
    at the first opening brace of the stripped text, ends with a closing
    brace, lies in that text as one piece, and decodes to a dictionary,
    never to a list, a string or a number. *)
Theorem X2_located_is_object_span (text json_str : str) :
  _extract_json_object text = Some json_str ->
  exists pre body suf d,
    strip_markdown text = pre ++ json_str ++ suf /\
    find LBRACE pre = None /\
    json_str = LBRACE :: body ++ [RBRACE] /\
    loads json_str = Some (JObj d).
Proof. apply located_shape. Qed.

Lemma X2_located_is_object_span_witness :
  exists pre body suf d,
    strip_markdown (qlit "see [1, 2] {'a': 'b {c}'} ok") = pre ++ qlit "{'a': 'b {c}'}" ++ suf /\
    find LBRACE pre = None /\
    qlit "{'a': 'b {c}'}" = LBRACE :: body ++ [RBRACE] /\
    loads (qlit "{'a': 'b {c}'}") = Some (JObj d).
Proof.
  apply (X2_located_is_object_span (qlit "see [1, 2] {'a': 'b {c}'} ok")).
  vm_compute; reflexivity.
Defined.

Lemma located_again (text j : str) :
  _extract_json_object text = Some j -> _extract_json_object j = Some j.
Proof.
  intros H. destruct (located_shape _ _ H) as (pre & body & suf & d & _ & _ & -> & Hd).
  pose proof (extract_object_in_text [] body [] (JObj d) eq_refl Hd) as E.
  cbn [app] in E. rewrite app_nil_r in E. exact E.
Qed.

(** X3. The locator is idempotent: applied to a text it returned, it
    returns that text again. *)
Theorem X3_locator_idempotent (text json_str : str) :
  _extract_json_object text = Some json_str ->
  _extract_json_object json_str = Some json_str.
Proof. apply located_again. Qed.

Lemma X3_locator_idempotent_witness :
  _extract_json_object (qlit "{'a': '```'}") = Some (qlit "{'a': '```'}").
Proof.
  apply (X3_locator_idempotent
           (lit "```json" ++ [LF] ++ qlit "{'a': '```'}" ++ [LF] ++ lit "``` done")).
  vm_compute; reflexivity.
Defined.

(** ** The retrying call: what it returns and what it does *)

(** A reply is accepted only as the strict decoding of what the locator
    found in it, a dictionary with the four fields. *)
Lemma judge_return (r : response) (v : json) :
  judge r = Return v ->
  exists content j d,
    r = Content content /\ _extract_json_object content = Some j /\
    loads j = Some (JObj d) /\ v = JObj d /\
    (forall f, In f required_fields -> dict_mem f d = true).
Proof.
  destruct r as [| | |content]; try discriminate. cbn [judge].
  destruct (_extract_json_object content) as [j|] eqn:E; [|discriminate].
  destruct (located_shape _ _ E) as (pre & body & suf & d & _ & _ & Ej & Hd).
  destruct j as [|c j']; [discriminate|].
  assert (P : _safe_parse_json (c :: j') = JObj d).
  { unfold _safe_parse_json, parse_with. rewrite Hd. reflexivity. }
  rewrite P. destruct (truthy (JObj d)); [|discriminate].
  destruct (has_required (JObj d)) as [[|]|] eqn:R; try discriminate.
  intros H; injection H as <-.
  exists content, (c :: j'), d. repeat split; try assumption.
  intros f Hf. unfold has_required in R. cbn [py_in] in R. injection R as R.
  apply andb_prop in R. destruct R as [R1 R].
  apply andb_prop in R. destruct R as [R2 R].
  apply andb_prop in R. destruct R as [R3 R].
  apply andb_prop in R. destruct R as [R4 _].
  destruct Hf as [<-|[<-|[<-|[<-|[]]]]]; assumption.
Qed.

Lemma attempts_result (RS : Type) (send : RS -> str -> response * RS)
      (self : client) (prompt : str) (todo : nat) :
  forall attempt w,
    fst (attempts send self prompt todo attempt w) = JNull \/
    exists r, In r (replies send prompt todo (remote w)) /\
              judge r = Return (fst (attempts send self prompt todo attempt w)).
Proof.
  induction todo as [|todo IH]; intros attempt w; [left; reflexivity|].
  destruct (judge (fst (send (remote w) prompt))) as [v|p] eqn:E.
  - right. rewrite (attempts_return RS send self prompt _ _ _ _ E).
    exists (fst (send (remote w) prompt)). split; [left; reflexivity | exact E].
  - rewrite (attempts_retry RS send self prompt _ _ _ _ E).
    match goal with |- context [attempts _ _ _ todo ?a ?w'] =>
      destruct (IH a w') as [H|(r & Hr & Hj)] end.
    + left. exact H.
    + right. exists r. split; [right; exact Hr | exact Hj].
Qed.

(** X4. What the retrying call returns is [None] or a record that comes
    from one of the replies it received: the strict decoding of the text
    the locator found in that reply, a non-empty dictionary that holds
    the four required fields. The second and third tier of the parser
    never decide what the call returns. *)
Theorem X4_call_returns_strict_record
        {RS : Type} (send : RS -> str -> response * RS)
        (self : client) (prompt : str) (w : world RS) :
  let record := fst (call_llm send self prompt w) in
  record = JNull \/
  exists content json_str d,
    In (Content content)
       (replies send prompt (Z.to_nat (max_retries self)) (remote w)) /\
    _extract_json_object content = Some json_str /\
    loads json_str = Some (JObj d) /\
    record = JObj d /\
    (forall second third, parse_with second third json_str = record) /\
    (forall field, In field required_fields -> dict_mem field d = true) /\
    truthy record = true.
Proof.
  cbv zeta. unfold call_llm.
  destruct (attempts_result RS send self prompt (Z.to_nat (max_retries self)) 0 w)
    as [H|(r & Hr & Hj)]; [left; exact H | right].
  apply judge_return in Hj.
  destruct Hj as (content & j & d & -> & He & Hl & Hv & Hf).
  exists content, j, d. rewrite Hv.
  split; [exact Hr|]. split; [exact He|]. split; [exact Hl|].
  split; [reflexivity|]. split; [|split; [exact Hf|]].
  - intros second third. unfold parse_with. rewrite Hl.
    destruct j; [discriminate Hl | reflexivity].
  - pose proof (Hf F_CATEGORY (or_introl eq_refl)) as G.
    destruct d; [discriminate G | reflexivity].
Qed.

Lemma attempts_events (RS : Type) (send : RS -> str -> response * RS)
      (self : client) (prompt : str) (todo : nat) :
  forall attempt w,
    (attempt + Z.of_nat todo = max_retries self)%Z ->
    exists new,
      trace (snd (attempts send self prompt todo attempt w)) = trace w ++ new /\
      Forall (fun e => e = Post prompt \/ e = Sleep (retry_interval self)) new /\
      (todo = 0 -> new = []) /\
      (0 < todo -> exists a, new = a ++ [Post prompt]).
Proof.
  induction todo as [|todo IH]; intros attempt w Ha.
  - exists []. simpl. rewrite app_nil_r.
    repeat split; [constructor | lia].
  - destruct (judge (fst (send (remote w) prompt))) as [v|p] eqn:E.
    + rewrite (attempts_return RS send self prompt _ _ _ _ E).
      exists [Post prompt]. cbn [snd trace].
      repeat split; [repeat constructor | discriminate |].
      intros _. exists []. reflexivity.
    + rewrite (attempts_retry RS send self prompt _ _ _ _ E).
      match goal with |- context [attempts _ _ _ todo ?a ?w'] =>
        destruct (IH a w') as (new & H1 & H2 & H3 & H4); [lia|] end.
      exists (rounds self prompt attempt [fst (send (remote w) prompt)] ++ new).
      rewrite H1. cbn [trace]. rewrite <- app_assoc.
      split; [reflexivity|]. cbn [rounds]. rewrite E.
      assert (P : Forall (fun e => e = Post prompt \/ e = Sleep (retry_interval self))
                         (pause_events self attempt)).
      { unfold pause_events.
        destruct (_ <? _)%Z;
          [constructor; [right; reflexivity | constructor] | constructor]. }
      split; [|split; [discriminate|]].
      * constructor; [left; reflexivity|]. rewrite app_nil_r.
        apply Forall_app. split; [destruct p; [exact P | constructor] | exact H2].
      * intros _. destruct todo as [|todo].
        -- rewrite (H3 eq_refl). exists []. rewrite !app_nil_r.
           unfold pause_events.
           destruct (Z.ltb_spec attempt (max_retries self - 1)); [lia|].
           destruct p; reflexivity.
        -- destruct H4 as [a ->]; [lia|].
           eexists. rewrite app_nil_r.
           change (Post prompt :: ?x ++ a ++ [Post prompt])
             with ((Post prompt :: x) ++ a ++ [Post prompt]).
           rewrite app_assoc. reflexivity.
Qed.

(** X5. The events of a retrying call are requests with the prompt and
    pauses of [retry_interval], nothing else; the call never ends on a
    pause: when anything happened, the last event is a request. With a
    budget of zero or less nothing happens at all and the result is
    [None]. *)
Theorem X5_call_never_ends_on_pause
        {RS : Type} (send : RS -> str -> response * RS)
        (self : client) (prompt : str) (w : world RS) :
  let out := call_llm send self prompt w in
  let new := since w (snd out) in
  trace (snd out) = trace w ++ new /\
  Forall (fun e => e = Post prompt \/ e = Sleep (retry_interval self)) new /\
  (new = [] \/ exists a, new = a ++ [Post prompt]) /\
  ((max_retries self <= 0)%Z -> out = (JNull, w)).
Proof.
  cbv zeta. unfold call_llm.
  destruct (Z.leb_spec (max_retries self) 0) as [Hm|Hm].
  - replace (Z.to_nat (max_retries self)) with 0 by lia.
    cbn [attempts snd]. unfold since. rewrite skipn_all, app_nil_r.
    repeat split; [constructor | left; reflexivity].
  - destruct (attempts_events RS send self prompt (Z.to_nat (max_retries self)) 0 w)
      as (new & H1 & H2 & _ & H4); [lia|].
    assert (S : since w (snd (attempts send self prompt
                                (Z.to_nat (max_retries self)) 0 w)) = new).
    { unfold since. rewrite H1, skipn_app, Nat.sub_diag, skipn_all. reflexivity. }
    rewrite S. split; [exact H1|]. split; [exact H2|].
    split; [right; apply H4; lia | lia].
Qed.

Lemma X5_call_never_ends_on_pause_witness :
  call_llm scripted (Client 0 2) (lit "p") (start four_failures)
  = (JNull, start four_failures).
Proof.
  apply (X5_call_never_ends_on_pause scripted (Client 0 2) (lit "p")
                                     (start four_failures)).
  simpl. lia.
Defined.

(** ** The second tier of the parser *)

Lemma replace_fuel_self (old : str) (fuel : nat) :
  forall s, replace_fuel fuel old old s = s.
Proof.
  induction fuel as [|fuel IH]; intros s; [reflexivity|].
  cbn [replace_fuel]. destruct s as [|c s]; [reflexivity|].
  destruct (starts_with old (c :: s)) eqn:E.
  - rewrite IH. symmetry. apply starts_with_skipn. exact E.
  - rewrite IH. reflexivity.
Qed.

Lemma replace_fuel_absent (old new : str) (fuel : nat) :
  forall s, contains old s = false -> replace_fuel fuel old new s = s.
Proof.
  induction fuel as [|fuel IH]; intros s H; [reflexivity|].
  cbn [replace_fuel]. destruct s as [|c s]; [reflexivity|].
  cbn [contains] in H. apply orb_false_elim in H. destruct H as [H1 H2].
  rewrite H1, (IH s H2). reflexivity.
Qed.

Lemma tier2_fixed_replace (json_str : str) :
  tier2_fixed json_str = replace TIER2_OLD [APOS] json_str.
Proof.
  unfold tier2_fixed, replace at 2 3. rewrite !replace_fuel_self. reflexivity.
Qed.

(** X6. The second tier decodes a text that differs from its input only
    where the input holds the literal the third [replace] looks for (a
    comma, a space, a single quote between double quotes, and the text
    that follows it on line 105): the first two calls replace the
    double quote by itself. On an input without that literal the second
    tier decodes the very text the first tier refused, and fails as it
    did: the parser then returns what the third tier makes of the
    input. *)
Theorem X6_second_tier_changes_nothing (json_str : str) :
  contains TIER2_OLD json_str = false ->
  tier2_fixed json_str = json_str /\
  tier2 json_str = loads json_str /\
  (loads json_str = None -> _safe_parse_json json_str = tier3 json_str).
Proof.
  intros H.
  assert (E : tier2_fixed json_str = json_str).
  { rewrite tier2_fixed_replace. unfold replace.
    apply replace_fuel_absent. exact H. }
  split; [exact E|]. unfold tier2. rewrite E. split; [reflexivity|].
  intros Hl. apply safe_parse_third; [exact Hl|]. unfold tier2. rewrite E. exact Hl.
Qed.

Lemma X6_second_tier_changes_nothing_witness :
  tier2_fixed Samples.broken_record = Samples.broken_record /\
  tier2 Samples.broken_record = loads Samples.broken_record /\
  (loads Samples.broken_record = None ->
   _safe_parse_json Samples.broken_record = tier3 Samples.broken_record).
Proof.
  apply (X6_second_tier_changes_nothing Samples.broken_record).
  vm_compute; reflexivity.
Defined.

Lemma X4_call_returns_strict_record_witness :
  let record := fst (call_llm scripted (Client 2 1) (lit "p")
                              (start [RequestException; Content Samples.strict_record])) in
  record = JNull \/
  exists content json_str d,
    In (Content content)
       (replies scripted (lit "p") 2 [RequestException; Content Samples.strict_record]) /\
    _extract_json_object content = Some json_str /\
    loads json_str = Some (JObj d) /\
    record = JObj d /\
    (forall second third, parse_with second third json_str = record) /\
    (forall field, In field required_fields -> dict_mem field d = true) /\
    truthy record = true.
Proof.
  exact (X4_call_returns_strict_record scripted (Client 2 1) (lit "p")
           (start [RequestException; Content Samples.strict_record])).
Defined.

(** ** The driver: counts, requests, names *)

Section DriverCounts.

Variable RS : Type.
Variable send : RS -> str -> response * RS.
Variable conversation : Type.
Variable extract_conversation_data : str -> option conversation.
Variable make_prompt : conversation -> str.
Variable cfg : config.
Variable timestamp : str.

Let run_file := process_file send extract_conversation_data make_prompt cfg timestamp.
Let run_files := process_files send extract_conversation_data make_prompt cfg timestamp.

(** One file is counted once, as a success with one more result and one
    more path, or as a failure with neither. *)
Lemma process_file_counts (total idx : nat) (file_path : str) (r : run_state RS) :
  let r' := run_file total idx file_path r in
  (success_count r' = success_count r + 1 /\ fail_count r' = fail_count r /\
   length (results r') = S (length (results r)) /\
   length (processed_files r') = S (length (processed_files r)))%Z
  \/
  (success_count r' = success_count r /\ fail_count r' = fail_count r + 1 /\
   results r' = results r /\ processed_files r' = processed_files r)%Z.
Proof.
  cbv zeta. unfold run_file, process_file.
  destruct (extract_conversation_data file_path) as [cd|];
    [|right; repeat split].
  destruct (call_llm send (llm_client cfg) (make_prompt cd) (now r))
    as [analysis_result w].
  destruct (truthy analysis_result).
  - left. destruct (Nat.ltb idx total);
      cbn [success_count fail_count results processed_files];
      rewrite !length_app; cbn [length]; repeat split; lia.
  - right. destruct (Nat.ltb idx total); repeat split.
Qed.

Lemma process_files_counts (total : nat) (todo : list str) :
  forall idx (r : run_state RS),
    let r' := run_files total idx todo r in
    (success_count r' + fail_count r'
     = success_count r + fail_count r + Z.of_nat (length todo))%Z /\
    (Z.of_nat (length (results r'))
     = Z.of_nat (length (results r)) + (success_count r' - success_count r))%Z /\
    (Z.of_nat (length (processed_files r'))
     = Z.of_nat (length (processed_files r)) + (success_count r' - success_count r))%Z /\
    (success_count r <= success_count r')%Z /\
    (fail_count r <= fail_count r')%Z.
Proof.
  induction todo as [|f todo IH]; intros idx r; cbv zeta.
  - unfold run_files. cbn [process_files length]. lia.
  - unfold run_files. cbn [process_files length]. fold run_files. fold run_file.
    specialize (IH (S idx) (run_file total idx f r)). cbv zeta in IH.
    destruct IH as (I1 & I2 & I3 & I4 & I5).
    destruct (process_file_counts total idx f r)
      as [(A1 & A2 & A3 & A4)|(A1 & A2 & A3 & A4)].
    + rewrite A3 in I2. rewrite A4 in I3. lia.
    + rewrite A3 in I2. rewrite A4 in I3. lia.
Qed.

(** The requests one file costs. *)
Lemma process_file_posts (total idx : nat) (file_path : str) (r : run_state RS) :
  exists new,
    trace (now (run_file total idx file_path r)) = trace (now r) ++ new /\
    posts new <= Z.to_nat (MAX_RETRIES cfg).
Proof.
  unfold run_file, process_file.
  destruct (extract_conversation_data file_path) as [cd|].
  2:{ exists []. simpl. rewrite app_nil_r. split; [reflexivity | lia]. }
  unfold call_llm.
  destruct (attempts_bound RS send (llm_client cfg) (make_prompt cd)
              (Z.to_nat (max_retries (llm_client cfg))) 0 (now r))
    as (new1 & H1 & H2 & _).
  destruct (attempts send (llm_client cfg) (make_prompt cd)
              (Z.to_nat (max_retries (llm_client cfg))) 0 (now r))
    as [analysis_result w] eqn:E.
  cbn [snd] in H1. cbn [llm_client max_retries] in H2.
  destruct (truthy analysis_result);
    [destruct (Z.of_nat (length (processed_files r ++ [file_path])) mod 10 =? 0)%Z|];
    destruct (Nat.ltb idx total); cbn; rewrite H1;
    (eexists; split; [rewrite <- ?app_assoc; reflexivity|]);
    rewrite ?posts_app; simpl; lia.
Qed.

Lemma process_files_posts (total : nat) (todo : list str) :
  forall idx (r : run_state RS),
    exists new,
      trace (now (run_files total idx todo r)) = trace (now r) ++ new /\
      posts new <= length todo * Z.to_nat (MAX_RETRIES cfg).
Proof.
  induction todo as [|f todo IH]; intros idx r.
  - exists []. unfold run_files. simpl. rewrite app_nil_r. split; [reflexivity | lia].
  - unfold run_files. cbn [process_files]. fold run_files. fold run_file.
    destruct (IH (S idx) (run_file total idx f r)) as (new2 & H2 & P2).
    destruct (process_file_posts total idx f r) as (new1 & H1 & P1).
    exists (new1 ++ new2). rewrite H2, H1, <- app_assoc.
    split; [reflexivity|]. rewrite posts_app. cbn [length]. lia.
Qed.

End DriverCounts.


Lemma py_take_length (A : Type) (n : Z) (l : list A) :
  (0 <= n)%Z -> length (py_take n l) <= Z.to_nat n.
Proof.
  intros H. unfold py_take. destruct (Z.ltb_spec n 0) as [|_]; [lia|].
  rewrite length_firstn. lia.
Qed.

(** X8. A run sends at most [MAX_RETRIES] requests for each file of its
    work list; in test mode, with a count that is not negative, the work
    list holds at most [TEST_FILE_COUNT] files, so the run sends at most
    [TEST_FILE_COUNT * MAX_RETRIES] requests. *)
Theorem X8_requests_of_a_run_bounded
        {RS : Type} (send : RS -> str -> response * RS)
        {conversation : Type} (extract_conversation_data : str -> option conversation)
        (make_prompt : conversation -> str) (cfg : config) (timestamp : str)
        (all_files : list str) (w : world RS) :
  let w' := main send extract_conversation_data make_prompt cfg timestamp all_files w in
  let work := remaining cfg all_files (load_progress (progress_file cfg timestamp) w) in
  posts (since w w') <= length work * Z.to_nat (MAX_RETRIES cfg) /\
  (TEST_MODE cfg = true -> (0 <= TEST_FILE_COUNT cfg)%Z ->
   length work <= Z.to_nat (TEST_FILE_COUNT cfg) /\
   posts (since w w') <= Z.to_nat (TEST_FILE_COUNT cfg) * Z.to_nat (MAX_RETRIES cfg)).
Proof.
  cbv zeta.
  assert (P : posts (since w (main send extract_conversation_data make_prompt cfg
                                   timestamp all_files w))
              <= length (remaining cfg all_files
                           (load_progress (progress_file cfg timestamp) w))
                 * Z.to_nat (MAX_RETRIES cfg)).
  { unfold main.
    destruct (remaining cfg all_files (load_progress (progress_file cfg timestamp) w))
      as [|f l] eqn:E.
    - unfold since. rewrite skipn_all. simpl. lia.
    - destruct (process_files_posts RS send conversation extract_conversation_data
                  make_prompt cfg timestamp (length (f :: l)) (f :: l) 1
                  (Run (load_progress (progress_file cfg timestamp) w)
                       (load_existing_results (output_file cfg timestamp) w) 0 0 w))
        as (new & H1 & H2).
      cbn [now] in H1.
      unfold since, save_results, save_progress. cbn [trace]. rewrite H1.
      rewrite <- !app_assoc, skipn_app, Nat.sub_diag, skipn_all. cbn [skipn app].
      rewrite posts_app. cbn [posts]. rewrite Nat.add_0_r. exact H2. }
  split; [exact P|]. intros Ht Hc.
  assert (L : length (remaining cfg all_files
                        (load_progress (progress_file cfg timestamp) w))
              <= Z.to_nat (TEST_FILE_COUNT cfg)).
  { unfold remaining. rewrite Ht. apply py_take_length. exact Hc. }
  split; [exact L|]. nia.
Qed.

Lemma X8_requests_of_a_run_bounded_witness :
  let cfg := Config (lit "out") (lit "progress") 2 1 1 true 1 in
  let w := start [RequestException; RequestException; RequestException] in
  let w' := main scripted Example.read Example.prompt_of cfg Example.stamp
                 [lit "data/empathy/a.json"; lit "data/empathy/b.json"] w in
  posts (since w w') <= 1 * 2.
Proof.
  cbv zeta.
  destruct (X8_requests_of_a_run_bounded scripted Example.read Example.prompt_of
              (Config (lit "out") (lit "progress") 2 1 1 true 1) Example.stamp
              [lit "data/empathy/a.json"; lit "data/empathy/b.json"]
              (start [RequestException; RequestException; RequestException]))
    as [_ H].
  cbv zeta in H. apply H; [reflexivity | simpl; lia].
Defined.

Lemma until_slash_app (a x : str) :
  ~ In SLASH a -> until_slash (a ++ SLASH :: x) = a.
Proof.
  induction a as [|c a IH]; intros H; cbn [app until_slash].
  - rewrite N.eqb_refl. reflexivity.
  - destruct (N.eqb_spec c SLASH) as [->|_]; [exfalso; apply H; left; reflexivity|].
    rewrite IH; [reflexivity|]. intros G. apply H. right. exact G.
Qed.

Lemma until_slash_all (a : str) : ~ In SLASH a -> until_slash a = a.
Proof.
  induction a as [|c a IH]; intros H; cbn [until_slash]; [reflexivity|].
  destruct (N.eqb_spec c SLASH) as [->|_]; [exfalso; apply H; left; reflexivity|].
  rewrite IH; [reflexivity|]. intros G. apply H. right. exact G.
Qed.

Lemma basename_join (root file : str) :
  ~ In SLASH file -> basename (path_join root file) = file.
Proof.
  intros H. unfold basename.
  assert (Hr : ~ In SLASH (rev file)) by (rewrite <- in_rev; exact H).
  unfold path_join. destruct file as [|c f].
  - destruct (rev root) as [|l r] eqn:E; [reflexivity|].
    destruct (N.eqb_spec l SLASH) as [->|Hl].
    + rewrite E. cbn [until_slash]. rewrite N.eqb_refl. reflexivity.
    + rewrite rev_app_distr. cbn [rev app until_slash]. rewrite N.eqb_refl.
      reflexivity.
  - destruct (N.eqb_spec c SLASH) as [->|_]; [exfalso; apply H; left; reflexivity|].
    destruct (rev root) as [|l r] eqn:E.
    + rewrite (until_slash_all _ Hr). apply rev_involutive.
    + destruct (N.eqb_spec l SLASH) as [->|Hl].
      * rewrite rev_app_distr, E, (until_slash_app _ _ Hr). apply rev_involutive.
      * rewrite rev_app_distr.
        change (rev (SLASH :: c :: f)) with (rev (c :: f) ++ [SLASH]).
        rewrite <- app_assoc. cbn [app].
        rewrite (until_slash_app _ _ Hr). apply rev_involutive.
Qed.

(** X9. The name recorded with a result is the name the file has in its
    directory: [os.path.basename] of [os.path.join(root, file)] is
    [file], for a file name without a slash and any directory. *)
Theorem X9_result_keeps_file_name (root file : str) :
  ~ In SLASH file -> basename (path_join root file) = file.
Proof. apply basename_join. Qed.

Lemma X9_result_keeps_file_name_witness :
  basename (path_join (lit "data/empathy") (lit "a.json")) = lit "a.json".
Proof.
  apply (X9_result_keeps_file_name (lit "data/empathy") (lit "a.json")).
  intros H. repeat (destruct H as [H|H]; [discriminate H|]). exact H.
Defined.


(** ** Finding the conversation files *)

Lemma str_leb_refl (a : str) : str_leb a a = true.
Proof.
  induction a as [|x a IH]; [reflexivity|]. cbn [str_leb].
  rewrite N.ltb_irrefl, N.eqb_refl. exact IH.
Qed.

Lemma str_leb_total (a : str) :
  forall b, str_leb a b = false -> str_leb b a = true.
Proof.
  induction a as [|x a IH]; intros b H; [discriminate|].
  destruct b as [|y b]; [reflexivity|]. cbn [str_leb] in *.
  destruct (N.ltb_spec x y); [discriminate|].
  destruct (N.ltb_spec y x); [reflexivity|].
  destruct (N.eqb_spec x y), (N.eqb_spec y x); try lia.
  apply IH. exact H.
Qed.

Lemma str_leb_trans (a : str) :
  forall b c, str_leb a b = true -> str_leb b c = true -> str_leb a c = true.
Proof.
  induction a as [|x a IH]; intros b c H1 H2; [reflexivity|].
  destruct b as [|y b]; [discriminate|]. destruct c as [|z c]; [discriminate|].
  cbn [str_leb] in *.
  destruct (N.ltb_spec x z); [reflexivity|].
  destruct (N.ltb_spec x y).
  - destruct (N.ltb_spec y z); [lia|].
    destruct (N.eqb_spec y z); [lia | discriminate].
  - destruct (N.eqb_spec x y) as [->|]; [|discriminate].
    destruct (N.ltb_spec y z); [lia|].
    destruct (N.eqb_spec y z) as [->|]; [|discriminate].
    exact (IH _ _ H1 H2).
Qed.

Lemma str_leb_antisym (a : str) :
  forall b, str_leb a b = true -> str_leb b a = true -> a = b.
Proof.
  induction a as [|x a IH]; intros b H1 H2.
  - destruct b; [reflexivity | discriminate].
  - destruct b as [|y b]; [discriminate|]. cbn [str_leb] in *.
    destruct (N.ltb_spec x y).
    + destruct (N.ltb_spec y x); [lia|].
      destruct (N.eqb_spec y x); [lia | discriminate].
    + destruct (N.eqb_spec x y) as [->|]; [|discriminate].
      rewrite N.ltb_irrefl, N.eqb_refl in H2.
      rewrite (IH _ H1 H2). reflexivity.
Qed.

Lemma insert_perm (x : str) (l : list str) : Permutation (insert x l) (x :: l).
Proof.
  induction l as [|y l IH]; cbn [insert]; [apply Permutation_refl|].
  destruct (str_leb x y); [apply Permutation_refl|].
  apply Permutation_trans with (y :: x :: l);
    [apply perm_skip; exact IH | apply perm_swap].
Qed.

Lemma sorted_perm (l : list str) : Permutation (sorted l) l.
Proof.
  induction l as [|x l IH]; [apply perm_nil|].
  unfold sorted. cbn [fold_right]. fold (sorted l).
  apply Permutation_trans with (x :: sorted l);
    [apply insert_perm | apply perm_skip; exact IH].
Qed.

Lemma insert_ordered (x : str) (l : list str) :
  StronglySorted str_le l -> StronglySorted str_le (insert x l).
Proof.
  induction 1 as [|y l Hs IH Hy]; cbn [insert].
  - constructor; constructor.
  - destruct (str_leb x y) eqn:E.
    + constructor; [constructor; assumption|].
      constructor; [exact E|].
      rewrite Forall_forall in *. intros z Hz.
      exact (str_leb_trans _ _ _ E (Hy z Hz)).
    + constructor; [exact IH|].
      rewrite Forall_forall in *. intros z Hz.
      apply (Permutation_in _ (insert_perm x l)) in Hz.
      destruct Hz as [<-|Hz]; [apply str_leb_total; exact E | exact (Hy z Hz)].
Qed.

Lemma sorted_ordered (l : list str) : StronglySorted str_le (sorted l).
Proof.
  induction l as [|x l IH]; [constructor|].
  unfold sorted. cbn [fold_right]. apply insert_ordered. exact IH.
Qed.

(** Two ordered lists with the same elements are the same list. *)
Lemma ordered_unique (l1 : list str) :
  forall l2, StronglySorted str_le l1 -> StronglySorted str_le l2 ->
             Permutation l1 l2 -> l1 = l2.
Proof.
  induction l1 as [|a l1 IH]; intros l2 H1 H2 P.
  - apply Permutation_nil in P. subst. reflexivity.
  - destruct l2 as [|b l2];
      [apply Permutation_sym, Permutation_nil in P; discriminate|].
    apply StronglySorted_inv in H1. destruct H1 as [S1 F1].
    apply StronglySorted_inv in H2. destruct H2 as [S2 F2].
    rewrite Forall_forall in F1, F2.
    assert (Hab : str_leb a b = true).
    { assert (G : In b (a :: l1))
        by (apply (Permutation_in _ (Permutation_sym P)); left; reflexivity).
      destruct G as [<-|G]; [apply str_leb_refl | exact (F1 b G)]. }
    assert (Hba : str_leb b a = true).
    { assert (G : In a (b :: l2)) by (apply (Permutation_in _ P); left; reflexivity).
      destruct G as [<-|G]; [apply str_leb_refl | exact (F2 a G)]. }
    pose proof (str_leb_antisym _ _ Hab Hba) as ->.
    apply Permutation_cons_inv in P. rewrite (IH l2 S1 S2 P). reflexivity.
Qed.

Lemma sorted_of_perm (l l' : list str) : Permutation l l' -> sorted l = sorted l'.
Proof.
  intros P. apply ordered_unique; try apply sorted_ordered.
  apply Permutation_trans with l; [apply sorted_perm|].
  apply Permutation_trans with l'; [exact P | apply Permutation_sym, sorted_perm].
Qed.

Lemma filter_perm (A : Type) (f : A -> bool) (l l' : list A) :
  Permutation l l' -> Permutation (filter f l) (filter f l').
Proof.
  induction 1 as [|x l l' P IH|x y l|l l' l'' P1 IH1 P2 IH2]; cbn [filter].
  - apply perm_nil.
  - destruct (f x); [apply perm_skip|]; exact IH.
  - destruct (f x), (f y); try apply Permutation_refl. apply perm_swap.
  - eapply Permutation_trans; eassumption.
Qed.

(** X11. The list of conversation files is in ascending order, and a
    path is in it exactly when it joins a directory whose path contains
    [empathy] with one of its files whose name ends in [.json] and not
    in [_analysis.json]. *)
Theorem X11_files_found (walk : list (str * list str * list str)) :
  StronglySorted str_le (find_all_json_files walk) /\
  forall file_path,
    In file_path (find_all_json_files walk) <->
    exists root dirs files file,
      In (root, dirs, files) walk /\ In file files /\
      contains (lit "empathy") root = true /\
      ends_with (lit ".json") file = true /\
      ends_with (lit "_analysis.json") file = false /\
      file_path = path_join root file.
Proof.
  unfold find_all_json_files. split; [apply sorted_ordered|].
  intros p. split.
  - intros H. apply (Permutation_in _ (sorted_perm _)) in H.
    apply in_flat_map in H. destruct H as ([[root dirs] files] & Hw & H).
    destruct (contains (lit "empathy") root) eqn:Ec; [|contradiction].
    apply in_map_iff in H. destruct H as (file & <- & H).
    apply filter_In in H. destruct H as [Hf H].
    apply andb_prop in H. destruct H as [H1 H2]. apply negb_true_iff in H2.
    exists root, dirs, files, file. repeat split; assumption.
  - intros (root & dirs & files & file & Hw & Hf & Ec & H1 & H2 & ->).
    apply (Permutation_in _ (Permutation_sym (sorted_perm _))).
    apply in_flat_map. exists (root, dirs, files). split; [exact Hw|].
    rewrite Ec. apply in_map. apply filter_In. split; [exact Hf|].
    rewrite H1, H2. reflexivity.
Qed.

(** X12. The list of conversation files does not depend on the order in
    which the directories are walked, nor on the order in which the
    files of a directory are listed. *)
Theorem X12_files_found_whatever_the_order
        (walk walk' : list (str * list str * list str)) :
  Permutation walk walk' \/ same_files walk walk' ->
  find_all_json_files walk = find_all_json_files walk'.
Proof.
  intros H. unfold find_all_json_files. apply sorted_of_perm.
  destruct H as [P|F].
  - apply Permutation_flat_map. exact P.
  - induction F as [|[[root dirs] files] [[root' dirs'] files'] l l' [Hr Hp] F IH];
      [apply perm_nil|].
    cbn [flat_map]. cbn [fst snd] in Hr, Hp. subst root'.
    apply Permutation_app; [|exact IH].
    destruct (contains (lit "empathy") root); [|apply perm_nil].
    apply Permutation_map, filter_perm. exact Hp.
Qed.

Lemma X12_files_found_whatever_the_order_witness :
  find_all_json_files
    [(lit "d/empathy", [lit "x"], [lit "b.json"; lit "a.json"]);
     (lit "d/empathy/x", [], [lit "c.json"; lit "c_analysis.json"])]
  = find_all_json_files
      [(lit "d/empathy/x", [], [lit "c.json"; lit "c_analysis.json"]);
       (lit "d/empathy", [lit "x"], [lit "b.json"; lit "a.json"])].
Proof.
  apply (X12_files_found_whatever_the_order
           [(lit "d/empathy", [lit "x"], [lit "b.json"; lit "a.json"]);
            (lit "d/empathy/x", [], [lit "c.json"; lit "c_analysis.json"])]
           [(lit "d/empathy/x", [], [lit "c.json"; lit "c_analysis.json"]);
            (lit "d/empathy", [lit "x"], [lit "b.json"; lit "a.json"])]).
  left. apply perm_swap.
Defined.

Lemma X11_files_found_witness :
  find_all_json_files
    [(lit "d/empathy", [lit "x"], [lit "b.json"; lit "a.json"; lit "a_analysis.json"]);
     (lit "d/other", [], [lit "c.json"])]
  = [lit "d/empathy/a.json"; lit "d/empathy/b.json"] /\
  StronglySorted str_le [lit "d/empathy/a.json"; lit "d/empathy/b.json"].
Proof.
  assert (E : find_all_json_files
                [(lit "d/empathy", [lit "x"],
                  [lit "b.json"; lit "a.json"; lit "a_analysis.json"]);
                 (lit "d/other", [], [lit "c.json"])]
              = [lit "d/empathy/a.json"; lit "d/empathy/b.json"])
    by (vm_compute; reflexivity).
  split; [exact E|]. rewrite <- E.
  apply (X11_files_found
           [(lit "d/empathy", [lit "x"],
             [lit "b.json"; lit "a.json"; lit "a_analysis.json"]);
            (lit "d/other", [], [lit "c.json"])]).
Defined.

(** ** Reading a conversation file *)

Lemma is_str_eq (s : str) (v : json) : is_str s v = true -> v = JStr s.
Proof.
  destruct v; try discriminate. simpl. intros H. apply str_eqb_eq in H.
  subst. reflexivity.
Qed.

Lemma read_messages_conversation (data : list json) :
  forall s c, snd (read_messages data s c) = c ++ flat_map turn_of data.
Proof.
  induction data as [|v data IH]; intros s c; cbn [read_messages flat_map].
  - rewrite app_nil_r. reflexivity.
  - destruct v as [| | | | | |d]; try (rewrite IH; reflexivity).
    cbn [turn_of].
    destruct (is_str (lit "system") (get_default (lit "role") (JStr []) d)) eqn:Es.
    + apply is_str_eq in Es. rewrite Es.
      change (is_str (lit "user") (JStr (lit "system"))
              || is_str (lit "assistant") (JStr (lit "system"))) with false.
      cbv iota. rewrite IH. reflexivity.
    + destruct (is_str (lit "user") (get_default (lit "role") (JStr []) d)
                || is_str (lit "assistant") (get_default (lit "role") (JStr []) d)).
      * rewrite IH, <- app_assoc. reflexivity.
      * rewrite IH. reflexivity.
Qed.

Lemma read_messages_system_indep (data : list json) :
  forall s c c', fst (read_messages data s c) = fst (read_messages data s c').
Proof.
  induction data as [|v data IH]; intros s c c'; cbn [read_messages]; [reflexivity|].
  destruct v as [| | | | | |d]; try apply IH.
  destruct (is_str (lit "system") _); [apply IH|].
  destruct (_ || _); apply IH.
Qed.

Lemma read_messages_no_system (data : list json) :
  forall s c, (forall v, In v data -> system_of v = None) ->
              fst (read_messages data s c) = s.
Proof.
  induction data as [|v data IH]; intros s c H; cbn [read_messages]; [reflexivity|].
  assert (Ht : forall x, In x data -> system_of x = None)
    by (intros x Hx; apply H; right; exact Hx).
  pose proof (H v (or_introl eq_refl)) as Hv.
  destruct v as [| | | | | |d]; try (apply IH; exact Ht).
  cbn [system_of] in Hv.
  destruct (is_str (lit "system") _); [discriminate Hv|].
  destruct (_ || _); apply IH; exact Ht.
Qed.

Lemma read_messages_last_system (a : list json) :
  forall v b s c content,
    system_of v = Some content ->
    (forall x, In x b -> system_of x = None) ->
    fst (read_messages (a ++ v :: b) s c) = content.
Proof.
  induction a as [|x a IH]; intros v b s c content Hv Hb.
  - cbn [app read_messages].
    destruct v as [| | | | | |d]; try discriminate Hv.
    cbn [system_of] in Hv.
    destruct (is_str (lit "system") _); [|discriminate Hv].
    injection Hv as <-. apply read_messages_no_system. exact Hb.
  - cbn [app read_messages].
    destruct x as [| | | | | |d]; try (apply IH; assumption).
    destruct (is_str (lit "system") _); [apply IH; assumption|].
    destruct (_ || _); apply IH; assumption.
Qed.

Lemma turn_of_role (v : json) (m : message) :
  In m (turn_of v) ->
  role m = JStr (lit "user") \/ role m = JStr (lit "assistant").
Proof.
  destruct v as [| | | | | |d]; try contradiction. cbn [turn_of].
  destruct (is_str (lit "user") _) eqn:Eu.
  - intros [<-|[]]. left. apply is_str_eq. exact Eu.
  - destruct (is_str (lit "assistant") _) eqn:Ea; [|contradiction].
    intros [<-|[]]. right. apply is_str_eq. exact Ea.
Qed.

Lemma extracted_data (read_text : str -> option str) (file_path : str)
      (cd : conversation_data) :
  extract_conversation_data read_text file_path = Some cd ->
  exists text data,
    read_text file_path = Some text /\ loads text = Some (JArr data) /\
    cd = ConversationData (fst (read_messages data (JStr []) []))
                          (flat_map turn_of data).
Proof.
  unfold extract_conversation_data.
  destruct (read_text file_path) as [text|] eqn:Er; [|discriminate].
  destruct (loads text) as [[| | | | |data|]|] eqn:El; try discriminate.
  pose proof (read_messages_conversation data (JStr []) []) as Hc.
  destruct (read_messages data (JStr []) []) as [s c] eqn:Em. cbn [snd app] in Hc.
  intros H; injection H as <-. exists text, data. rewrite Em, Hc.
  split; [reflexivity|]. split; [exact El | reflexivity].
Qed.

(** X13. What [extract_conversation_data] makes of a file it can read:
    the file holds a JSON list; the conversation is made of the user and
    assistant messages of that list, in the order of the list, each with
    its role and its content (the empty string when it has none), and of
    nothing else; the system content is the content of the last system
    message, the empty string when there is none. *)
Theorem X13_conversation_read
        (read_text : str -> option str) (file_path : str) (cd : conversation_data) :
  extract_conversation_data read_text file_path = Some cd ->
  exists text data,
    read_text file_path = Some text /\ loads text = Some (JArr data) /\
    conversation cd = flat_map turn_of data /\
    (forall m, In m (conversation cd) ->
               role m = JStr (lit "user") \/ role m = JStr (lit "assistant")) /\
    ((forall v, In v data -> system_of v = None) -> system_content cd = JStr []) /\
    (forall a v b content,
        data = a ++ v :: b -> system_of v = Some content ->
        (forall x, In x b -> system_of x = None) ->
        system_content cd = content).
Proof.
  intros H. destruct (extracted_data _ _ _ H) as (text & data & Hr & Hl & ->).
  exists text, data. cbn [conversation system_content].
  split; [exact Hr|]. split; [exact Hl|]. split; [reflexivity|]. split; [|split].
  - intros m Hm. apply in_flat_map in Hm. destruct Hm as (v & _ & Hm).
    exact (turn_of_role _ _ Hm).
  - intros Hn. apply read_messages_no_system. exact Hn.
  - intros a v b content -> Hv Hb. apply read_messages_last_system; assumption.
Qed.

Lemma X13_conversation_read_witness :
  exists text data,
    Some (qlit "[{'role': 'system', 'content': 's'}, 5, {'role': 'user'}, {'role': 'tool', 'content': 't'}, {'role': 'assistant', 'content': null}]")
    = Some text /\ loads text = Some (JArr data) /\
    [Message (JStr (lit "user")) (JStr []); Message (JStr (lit "assistant")) JNull]
    = flat_map turn_of data.
Proof.
  destruct (X13_conversation_read
              (fun _ => Some (qlit "[{'role': 'system', 'content': 's'}, 5, {'role': 'user'}, {'role': 'tool', 'content': 't'}, {'role': 'assistant', 'content': null}]"))
              (lit "a.json")
              (ConversationData (JStr (lit "s"))
                 [Message (JStr (lit "user")) (JStr []);
                  Message (JStr (lit "assistant")) JNull]))
    as (text & data & H1 & H2 & H3 & _).
  - vm_compute; reflexivity.
  - exists text, data. auto.
Defined.

(** ** Formatting a conversation *)

Lemma starts_with_app (p x : str) : starts_with p (p ++ x) = true.
Proof. apply starts_with_split. exists x. reflexivity. Qed.

Lemma tagged_assistant (x : str) : tagged (lit "[Assistant]: " ++ x).
Proof. left. apply starts_with_app. Qed.

Lemma tagged_user (x : str) : tagged (lit "[User]: " ++ x).
Proof. right. left. apply starts_with_app. Qed.

Lemma tagged_background (x : str) : tagged (lit "[Background]: " ++ x).
Proof. right. right. apply starts_with_app. Qed.

Section FormattingFacts.

Variable repr_of : json -> str.
Variable capitalize : str -> str.

Ltac no_line f :=
  exists []; split; [symmetry; apply app_nil_r | split; [simpl; lia | constructor]].
Ltac one_line :=
  eexists [_]; split; [reflexivity|];
  split; [simpl; lia|];
  constructor; [first [apply tagged_user | apply tagged_background
                      | apply tagged_assistant] | constructor].
Ltac two_lines :=
  eexists [_; _]; split; [rewrite <- app_assoc; reflexivity|];
  split; [simpl; lia|];
  constructor; [apply tagged_user|];
  constructor; [first [apply tagged_user | apply tagged_background] | constructor].

(** A user message adds at most two lines. *)
Lemma format_user_lines (content : json) (formatted : list str) :
  exists lines,
    format_user repr_of content formatted = formatted ++ lines /\
    length lines <= 2 /\ Forall tagged lines.
Proof.
  unfold format_user.
  destruct content as [| | | |c| |]; try one_line.
  destruct (loads c) as [[| | | | | |d]|]; try one_line.
  destruct (dict_get K_USER_INPUT d) as [user_input|];
    destruct (dict_get K_BACKGROUND d) as [background_info|];
    try (destruct (truthy background_info));
    try (destruct background_info as [| | | |b| |]);
    try (destruct (truthy (JStr (strip b))));
    first [ no_line formatted | one_line | two_lines ].
Qed.

(** A message of a user or of the assistant adds tagged lines, at most
    two; the assistant's adds one. *)
Lemma format_message_lines (m : message) (formatted formatted' : list str) :
  role m = JStr (lit "user") \/ role m = JStr (lit "assistant") ->
  format_message repr_of capitalize m formatted = Some formatted' ->
  exists lines,
    formatted' = formatted ++ lines /\ length lines <= 2 /\ Forall tagged lines /\
    (role m = JStr (lit "assistant") -> length lines = 1).
Proof.
  unfold format_message. intros [Hr|Hr]; rewrite Hr.
  - change (is_str (lit "assistant") (JStr (lit "user"))) with false.
    change (is_str (lit "user") (JStr (lit "user"))) with true. cbv iota.
    intros H; injection H as <-.
    destruct (format_user_lines (content m) formatted) as (lines & E & L & T).
    exists lines. repeat split; try assumption. discriminate.
  - change (is_str (lit "assistant") (JStr (lit "assistant"))) with true. cbv iota.
    destruct (content m) as [| | | |c| |]; try discriminate.
    destruct (starts_with [LBRACKET] c);
      [destruct (find RBRACKET c) as [end_idx|];
       [destruct (Nat.ltb 0 end_idx)|]|];
      intros H; injection H as <-;
      (eexists [_]; split; [reflexivity|]; split; [simpl; lia|];
       split; [constructor; [apply tagged_assistant | constructor] | reflexivity]).
Qed.

(** The only message of a user or of the assistant the formatter cannot
    take is one of the assistant whose content is no string. *)
Lemma format_message_raises (m : message) (formatted : list str) :
  role m = JStr (lit "user") \/ role m = JStr (lit "assistant") ->
  (format_message repr_of capitalize m formatted = None <->
   role m = JStr (lit "assistant") /\ forall c, content m <> JStr c).
Proof.
  unfold format_message. intros [Hr|Hr]; rewrite Hr.
  - change (is_str (lit "assistant") (JStr (lit "user"))) with false.
    change (is_str (lit "user") (JStr (lit "user"))) with true. cbv iota.
    split; [discriminate | intros [E _]; discriminate E].
  - change (is_str (lit "assistant") (JStr (lit "assistant"))) with true. cbv iota.
    destruct (content m) as [| | | |c| |];
      try (split; [intros _; split; [reflexivity | intros c; discriminate]
                  | reflexivity]).
    split.
    + destruct (starts_with [LBRACKET] c);
        [destruct (find RBRACKET c) as [end_idx|];
         [destruct (Nat.ltb 0 end_idx)|]|]; discriminate.
    + intros [_ H]. exfalso. exact (H c eq_refl).
Qed.

Lemma format_messages_lines (conv : list message) :
  (forall m, In m conv ->
             role m = JStr (lit "user") \/ role m = JStr (lit "assistant")) ->
  forall formatted formatted',
    format_messages repr_of capitalize conv formatted = Some formatted' ->
    exists lines,
      formatted' = formatted ++ lines /\ length lines <= 2 * length conv /\
      Forall tagged lines.
Proof.
  induction conv as [|m conv IH]; intros Hr formatted formatted' H.
  - injection H as <-. exists []. rewrite app_nil_r.
    repeat split; [simpl; lia | constructor].
  - cbn [format_messages] in H.
    destruct (format_message repr_of capitalize m formatted) as [f1|] eqn:E;
      [|discriminate].
    destruct (format_message_lines m formatted f1 (Hr m (or_introl eq_refl)) E)
      as (l1 & -> & L1 & T1 & _).
    destruct (IH (fun x Hx => Hr x (or_intror Hx)) _ _ H) as (l2 & -> & L2 & T2).
    exists (l1 ++ l2). rewrite app_assoc. split; [reflexivity|].
    rewrite length_app. cbn [length]. split; [lia|].
    apply Forall_app. split; assumption.
Qed.

Lemma format_messages_raises (conv : list message) :
  (forall m, In m conv ->
             role m = JStr (lit "user") \/ role m = JStr (lit "assistant")) ->
  forall formatted,
    format_messages repr_of capitalize conv formatted = None <->
    exists m, In m conv /\ role m = JStr (lit "assistant") /\
              forall c, content m <> JStr c.
Proof.
  induction conv as [|m conv IH]; intros Hr formatted.
  - split; [discriminate | intros (m & [] & _)].
  - cbn [format_messages].
    pose proof (format_message_raises m formatted (Hr m (or_introl eq_refl))) as Hm.
    destruct (format_message repr_of capitalize m formatted) as [f1|] eqn:E.
    + rewrite (IH (fun x Hx => Hr x (or_intror Hx)) f1). split.
      * intros (x & Hx & Hb). exists x. split; [right; exact Hx | exact Hb].
      * intros (x & [<-|Hx] & Hb).
        -- destruct Hm as [_ Hm]. specialize (Hm Hb). discriminate Hm.
        -- exists x. split; assumption.
    + split; [|reflexivity]. intros _. exists m.
      split; [left; reflexivity | apply Hm; reflexivity].
Qed.

End FormattingFacts.

Lemma format_messages_capitalize (repr_of : json -> str)
      (capitalize capitalize' : str -> str) (conv : list message) :
  (forall m, In m conv ->
             role m = JStr (lit "user") \/ role m = JStr (lit "assistant")) ->
  forall formatted,
    format_messages repr_of capitalize' conv formatted
    = format_messages repr_of capitalize conv formatted.
Proof.
  induction conv as [|m conv IH]; intros Hr formatted; [reflexivity|].
  cbn [format_messages].
  assert (E : format_message repr_of capitalize' m formatted
              = format_message repr_of capitalize m formatted).
  { unfold format_message. destruct (Hr m (or_introl eq_refl)) as [R|R]; rewrite R.
    - reflexivity.
    - reflexivity. }
  rewrite E. destruct (format_message repr_of capitalize m formatted) as [f1|];
    [|reflexivity].
  apply IH. intros x Hx. apply Hr. right. exact Hx.
Qed.

(** X14. Reading a file and formatting its conversation, one after the
    other: the formatter raises exactly when the file has an assistant
    message whose content is no string (a number, a list, [null]);
    otherwise it gives lines that each start with the tag of the
    assistant, of the user or of the background, at most two for each
    message, joined by line feeds. The branch for other roles is never
    taken, so the result does not depend on [capitalize]. *)
Theorem X14_read_then_format
        (read_text : str -> option str) (repr_of : json -> str)
        (capitalize : str -> str) (file_path : str) (cd : conversation_data) :
  extract_conversation_data read_text file_path = Some cd ->
  (format_conversation_for_llm repr_of capitalize (conversation cd) = None <->
   exists m, In m (conversation cd) /\ role m = JStr (lit "assistant") /\
             forall c, content m <> JStr c) /\
  (forall text,
      format_conversation_for_llm repr_of capitalize (conversation cd) = Some text ->
      exists lines,
        text = join [LF] lines /\ Forall tagged lines /\
        length lines <= 2 * length (conversation cd)) /\
  (forall capitalize',
      format_conversation_for_llm repr_of capitalize' (conversation cd)
      = format_conversation_for_llm repr_of capitalize (conversation cd)).
Proof.
  intros H. destruct (extracted_data _ _ _ H) as (text & data & _ & _ & ->).
  cbn [conversation].
  assert (Hr : forall m, In m (flat_map turn_of data) ->
                         role m = JStr (lit "user") \/ role m = JStr (lit "assistant")).
  { intros m Hm. apply in_flat_map in Hm. destruct Hm as (v & _ & Hm).
    exact (turn_of_role _ _ Hm). }
  unfold format_conversation_for_llm. split; [|split].
  - rewrite <- (format_messages_raises repr_of capitalize _ Hr []).
    destruct (format_messages repr_of capitalize (flat_map turn_of data) []);
      split; try discriminate; reflexivity.
  - intros out Ho.
    destruct (format_messages repr_of capitalize (flat_map turn_of data) [])
      as [formatted|] eqn:E; [|discriminate].
    injection Ho as <-.
    destruct (format_messages_lines repr_of capitalize _ Hr _ _ E)
      as (lines & -> & L & T).
    exists lines. repeat split; assumption.
  - intros capitalize'.
    rewrite (format_messages_capitalize repr_of capitalize capitalize' _ Hr []).
    reflexivity.
Qed.

Lemma X14_read_then_format_witness :
  format_conversation_for_llm (fun _ => []) (fun s => s)
    [Message (JStr (lit "user")) (JStr []); Message (JStr (lit "assistant")) JNull]
  = None.
Proof.
  destruct (X14_read_then_format
              (fun _ => Some (qlit "[{'role': 'system', 'content': 's'}, 5, {'role': 'user'}, {'role': 'tool', 'content': 't'}, {'role': 'assistant', 'content': null}]"))
              (fun _ => []) (fun s => s) (lit "a.json")
              (ConversationData (JStr (lit "s"))
                 [Message (JStr (lit "user")) (JStr []);
                  Message (JStr (lit "assistant")) JNull]))
    as ([_ H] & _).
  - vm_compute; reflexivity.
  - apply H. exists (Message (JStr (lit "assistant")) JNull).
    split; [right; left; reflexivity|]. split; [reflexivity | intros c; discriminate].
Defined.

Lemma skipn_past (A : Type) (a : list A) (x : A) (b : list A) :
  skipn (length a + 1) (a ++ x :: b) = b.
Proof.
  rewrite skipn_app. replace (length a + 1 - length a) with 1 by lia.
  rewrite skipn_all2 by lia. reflexivity.
Qed.

(** X15. The tag an assistant message starts with is cut off: when the
    content opens with a bracket, what is kept is what follows the first
    closing bracket, without the white space around it. *)
Theorem X15_assistant_tag_removed
        (repr_of : json -> str) (capitalize : str -> str)
        (tag rest : str) (formatted : list str) :
  ~ In RBRACKET tag ->
  format_message repr_of capitalize
    (Message (JStr (lit "assistant")) (JStr (LBRACKET :: tag ++ RBRACKET :: rest)))
    formatted
  = Some (formatted ++ [lit "[Assistant]: " ++ strip rest]).
Proof.
  intros H. unfold format_message. cbn [role content].
  change (is_str (lit "assistant") (JStr (lit "assistant"))) with true. cbv iota.
  change (starts_with [LBRACKET] (LBRACKET :: tag ++ RBRACKET :: rest)) with true.
  cbv iota.
  assert (F : find RBRACKET (LBRACKET :: tag ++ RBRACKET :: rest)
              = Some (length (LBRACKET :: tag))).
  { apply (find_first RBRACKET (LBRACKET :: tag) rest).
    apply find_none. intros [E|E]; [discriminate E | exact (H E)]. }
  rewrite F. cbn [length Nat.ltb Nat.leb].
  change (LBRACKET :: tag ++ RBRACKET :: rest)
    with ((LBRACKET :: tag) ++ RBRACKET :: rest).
  change (S (length tag)) with (length (LBRACKET :: tag)).
  rewrite skipn_past. reflexivity.
Qed.

Lemma X15_assistant_tag_removed_witness :
  format_message (fun _ => []) (fun s => s)
    (Message (JStr (lit "assistant")) (JStr (lit "[joy] hello there ")))
    [lit "[User]: hi"]
  = Some [lit "[User]: hi"; lit "[Assistant]: hello there"].
Proof.
  apply (X15_assistant_tag_removed (fun _ => []) (fun s => s)
           (lit "joy") (lit " hello there ") [lit "[User]: hi"]).
  intros H. repeat (destruct H as [H|H]; [discriminate H|]). exact H.
Defined.

(** X16. What one message of a user or of the assistant adds to the
    lines: the lines before it are kept, at most two are added, each
    starts with one of the three tags, and an assistant message adds
    exactly one. *)
Theorem X16_lines_of_a_message
        (repr_of : json -> str) (capitalize : str -> str)
        (m : message) (formatted formatted' : list str) :
  role m = JStr (lit "user") \/ role m = JStr (lit "assistant") ->
  format_message repr_of capitalize m formatted = Some formatted' ->
  exists lines,
    formatted' = formatted ++ lines /\ length lines <= 2 /\ Forall tagged lines /\
    (role m = JStr (lit "assistant") -> length lines = 1).
Proof. apply format_message_lines. Qed.

Lemma X16_lines_of_a_message_witness :
  exists lines,
    [lit "[User]: hi"; lit "[Background]: rain"] = [] ++ lines /\
    length lines <= 2 /\ Forall tagged lines /\
    (JStr (lit "user") = JStr (lit "assistant") -> length lines = 1).
Proof.
  apply (X16_lines_of_a_message (fun _ => []) (fun s => s)
           (Message (JStr (lit "user"))
              (JStr (qlit "{'" ++ K_USER_INPUT ++ qlit "': 'hi', '" ++ K_BACKGROUND
                          ++ qlit "': 'rain'}")))
           [] [lit "[User]: hi"; lit "[Background]: rain"]).
  - left. reflexivity.
  - vm_compute; reflexivity.
Defined.

(** X17. Edge cases of a user message. When its content is no JSON
    object (no JSON at all, or a list, a string, a number), the content
    goes into one line as it is. When it is an object with neither of
    the two keys, the message adds no line at all. When the background
    it carries is empty or white space only, only the user input is
    kept. *)
Theorem X17_user_message_edges
        (repr_of : json -> str) (capitalize : str -> str)
        (c : str) (formatted : list str) :
  let m := Message (JStr (lit "user")) (JStr c) in
  ((forall d, loads c <> Some (JObj d)) ->
   format_message repr_of capitalize m formatted
   = Some (formatted ++ [lit "[User]: " ++ c])) /\
  (forall d, loads c = Some (JObj d) ->
             dict_get K_USER_INPUT d = None -> dict_get K_BACKGROUND d = None ->
             format_message repr_of capitalize m formatted = Some formatted) /\
  (forall d user_input b,
      loads c = Some (JObj d) ->
      dict_get K_USER_INPUT d = Some (JStr user_input) ->
      dict_get K_BACKGROUND d = Some (JStr b) -> strip b = [] ->
      format_message repr_of capitalize m formatted
      = Some (formatted ++ [lit "[User]: " ++ user_input])).
Proof.
  cbv zeta. unfold format_message. cbn [role content].
  change (is_str (lit "assistant") (JStr (lit "user"))) with false.
  change (is_str (lit "user") (JStr (lit "user"))) with true. cbv iota.
  unfold format_user. split; [|split].
  - intros H. destruct (loads c) as [[| | | | | |d]|]; try reflexivity.
    exfalso. exact (H d eq_refl).
  - intros d -> -> ->. reflexivity.
  - intros d user_input b -> -> -> Hb. cbn [fstr truthy]. rewrite Hb.
    destruct b; reflexivity.
Qed.

Lemma X17_user_message_edges_witness :
  format_message (fun _ => []) (fun s => s)
    (Message (JStr (lit "user")) (JStr (qlit "{'note': 1}"))) [lit "[User]: hi"]
  = Some [lit "[User]: hi"].
Proof.
  destruct (X17_user_message_edges (fun _ => []) (fun s => s)
              (qlit "{'note': 1}") [lit "[User]: hi"]) as (_ & H & _).
  apply (H [(lit "note", JInt 1)]); vm_compute; reflexivity.
Defined.

(** ** The driver: what a run stores *)

Lemma appended_app (a b : list event) : appended (a ++ b) = appended a ++ appended b.
Proof.
  induction a as [|e a IH]; [reflexivity|].
  destruct e; cbn [app appended]; rewrite IH; reflexivity.
Qed.

Lemma appended_results_app (a b : list event) :
  appended_results (a ++ b) = appended_results a ++ appended_results b.
Proof.
  induction a as [|e a IH]; [reflexivity|].
  destruct e; cbn [app appended_results]; rewrite IH; reflexivity.
Qed.

Lemma subseq_refl (A : Type) (l : list A) : subseq A l l.
Proof. induction l; constructor; assumption. Qed.

Lemma subseq_In (A : Type) (a b : list A) (x : A) :
  subseq A a b -> In x a -> In x b.
Proof.
  induction 1 as [|y a b S IH|y a b S IH]; intros H.
  - exact H.
  - destruct H as [H|H]; [left; exact H | right; exact (IH H)].
  - right. exact (IH H).
Qed.

Lemma subseq_NoDup (A : Type) (a b : list A) :
  subseq A a b -> NoDup b -> NoDup a.
Proof.
  induction 1 as [|y a b S IH|y a b S IH]; intros H.
  - exact H.
  - inversion H as [|? ? Hy Hb]; subst. constructor; [|exact (IH Hb)].
    intros G. apply Hy. exact (subseq_In _ _ _ _ S G).
  - inversion H as [|? ? Hy Hb]; subst. exact (IH Hb).
Qed.

Lemma subseq_filter (A : Type) (f : A -> bool) (l : list A) :
  subseq A (filter f l) l.
Proof.
  induction l as [|x l IH]; cbn [filter]; [constructor|].
  destruct (f x); constructor; exact IH.
Qed.

Lemma subseq_firstn (A : Type) (k : nat) (l : list A) : subseq A (firstn k l) l.
Proof.
  revert l. induction k as [|k IH]; intros l.
  - cbn [firstn]. induction l; constructor; assumption.
  - destruct l as [|x l]; cbn [firstn]; constructor. apply IH.
Qed.

Lemma subseq_trans (A : Type) (b c : list A) :
  subseq A b c -> forall a, subseq A a b -> subseq A a c.
Proof.
  induction 1 as [|y b c S IH|y b c S IH]; intros a H.
  - exact H.
  - inversion H as [|? a' ? H'|? ? ? H']; subst.
    + constructor. exact (IH _ H').
    + apply subseq_skip. exact (IH _ H').
  - apply subseq_skip. exact (IH _ H).
Qed.

(** The work list is made of files of the corpus, in its order. *)
Lemma remaining_subseq (cfg : config) (all_files loaded : list str) :
  subseq str (remaining cfg all_files loaded) all_files.
Proof.
  unfold remaining.
  destruct (TEST_MODE cfg); [|apply subseq_filter].
  apply (subseq_trans str _ _
           (subseq_filter str (fun f => negb (str_in f loaded)) all_files)).
  unfold py_take. destruct (_ <? _)%Z; apply subseq_firstn.
Qed.

Section DriverStores.

Variable RS : Type.
Variable send : RS -> str -> response * RS.
Variable conversation : Type.
Variable extract_conversation_data : str -> option conversation.
Variable make_prompt : conversation -> str.
Variable cfg : config.
Variable timestamp : str.

Let run_file := process_file send extract_conversation_data make_prompt cfg timestamp.
Let run_files := process_files send extract_conversation_data make_prompt cfg timestamp.

(** The retrying call appends nothing. *)
Lemma attempts_append_nothing (self : client) (prompt : str) (todo : nat) :
  forall attempt w,
    exists new,
      trace (snd (attempts send self prompt todo attempt w)) = trace w ++ new /\
      appended new = [] /\ appended_results new = [].
Proof.
  induction todo as [|todo IH]; intros attempt w.
  - exists []. simpl. rewrite app_nil_r. auto.
  - destruct (judge (fst (send (remote w) prompt))) as [v|p] eqn:E.
    + rewrite (attempts_return RS send self prompt _ _ _ _ E).
      exists [Post prompt]. auto.
    + rewrite (attempts_retry RS send self prompt _ _ _ _ E).
      match goal with |- context [attempts _ _ _ todo ?a ?w'] =>
        destruct (IH a w') as (new & H1 & H2 & H3) end.
      exists (rounds self prompt attempt [fst (send (remote w) prompt)] ++ new).
      rewrite H1. cbn [trace]. rewrite <- app_assoc.
      split; [reflexivity|].
      rewrite appended_app, appended_results_app, H2, H3.
      cbn [rounds]. rewrite E. unfold pause_events.
      destruct p; [destruct (_ <? _)%Z|]; split; reflexivity.
Qed.

(** What the call returns, when it is true as a condition, is a complete
    record. *)
Lemma call_llm_complete (self : client) (prompt : str) (w : world RS) :
  truthy (fst (call_llm send self prompt w)) = true ->
  complete (fst (call_llm send self prompt w)).
Proof.
  unfold call_llm.
  destruct (attempts_result RS send self prompt (Z.to_nat (max_retries self)) 0 w)
    as [H|(r & _ & Hj)].
  - rewrite H. discriminate.
  - intros _. apply judge_return in Hj.
    destruct Hj as (content & j & d & _ & _ & _ & Hv & Hf).
    exists d. split; assumption.
Qed.

(** One file: a path and an entry for it are appended, or nothing is. *)
Lemma process_file_appends (total idx : nat) (file_path : str) (r : run_state RS) :
  exists new,
    trace (now (run_file total idx file_path r)) = trace (now r) ++ new /\
    ((exists e, appended new = [file_path] /\ appended_results new = [e] /\
                file_name e = basename file_path /\ complete (analysis e))
     \/ (appended new = [] /\ appended_results new = [])).
Proof.
  unfold run_file, process_file.
  destruct (extract_conversation_data file_path) as [cd|].
  2:{ exists []. simpl. rewrite app_nil_r. split; [reflexivity | right; auto]. }
  pose proof (call_llm_complete (llm_client cfg) (make_prompt cd) (now r)) as Hc.
  unfold call_llm in *.
  destruct (attempts_append_nothing (llm_client cfg) (make_prompt cd)
              (Z.to_nat (max_retries (llm_client cfg))) 0 (now r))
    as (new1 & H1 & A1 & A2).
  destruct (attempts send (llm_client cfg) (make_prompt cd)
              (Z.to_nat (max_retries (llm_client cfg))) 0 (now r))
    as [analysis_result w] eqn:E.
  cbn [snd] in H1. cbn [fst] in Hc.
  destruct (truthy analysis_result).
  - specialize (Hc eq_refl).
    destruct (Z.of_nat (length (processed_files r ++ [file_path])) mod 10 =? 0)%Z;
      destruct (Nat.ltb idx total); cbn; rewrite H1;
      (eexists; split; [rewrite <- ?app_assoc; reflexivity|]);
      left; exists (Entry (basename file_path) analysis_result);
      rewrite appended_app, appended_results_app, A1, A2;
      repeat split; exact Hc.
  - destruct (Nat.ltb idx total); cbn; rewrite H1;
      (eexists; split; [rewrite <- ?app_assoc; reflexivity|]);
      right; rewrite ?appended_app, ?appended_results_app, A1, A2;
      split; reflexivity.
Qed.

Lemma process_files_appends (total : nat) (todo : list str) :
  forall idx (r : run_state RS),
    exists new,
      trace (now (run_files total idx todo r)) = trace (now r) ++ new /\
      subseq str (appended new) todo /\
      Forall (fun e => complete (analysis e) /\
                       exists f, In f todo /\ file_name e = basename f)
             (appended_results new).
Proof.
  induction todo as [|f todo IH]; intros idx r.
  - exists []. unfold run_files. simpl. rewrite app_nil_r.
    repeat split; constructor.
  - unfold run_files. cbn [process_files]. fold run_files. fold run_file.
    destruct (IH (S idx) (run_file total idx f r)) as (new2 & H2 & S2 & F2).
    destruct (process_file_appends total idx f r) as (new1 & H1 & C1).
    exists (new1 ++ new2). rewrite H2, H1, <- app_assoc.
    split; [reflexivity|]. rewrite appended_app, appended_results_app.
    assert (F2' : Forall (fun e => complete (analysis e) /\
                                   exists f0, In f0 (f :: todo) /\
                                              file_name e = basename f0)
                         (appended_results new2)).
    { eapply Forall_impl; [|exact F2].
      intros e [Hc (f0 & Hf & Hn)]. split; [exact Hc|].
      exists f0. split; [right; exact Hf | exact Hn]. }
    destruct C1 as [(e & -> & -> & Hn & Hc)|[-> ->]].
    + split; [constructor; exact S2|].
      constructor; [|exact F2'].
      split; [exact Hc|]. exists f. split; [left; reflexivity | exact Hn].
    + split; [apply subseq_skip; exact S2 | exact F2'].
Qed.

Lemma main_appends (all_files : list str) (w : world RS) :
  let w' := main send extract_conversation_data make_prompt cfg timestamp all_files w in
  let work := remaining cfg all_files (load_progress (progress_file cfg timestamp) w) in
  subseq str (appended (since w w')) work /\
  Forall (fun e => complete (analysis e) /\
                   exists f, In f work /\ file_name e = basename f)
         (appended_results (since w w')).
Proof.
  cbv zeta. unfold main.
  destruct (remaining cfg all_files (load_progress (progress_file cfg timestamp) w))
    as [|f l] eqn:E.
  - unfold since. rewrite skipn_all. split; constructor.
  - destruct (process_files_appends (length (f :: l)) (f :: l) 1
                (Run (load_progress (progress_file cfg timestamp) w)
                     (load_existing_results (output_file cfg timestamp) w) 0 0 w))
      as (new & H1 & H2 & H3).
    unfold run_files in H1. cbn [now] in H1.
    unfold since, save_results, save_progress. cbn [trace]. rewrite H1.
    rewrite <- !app_assoc, skipn_app, Nat.sub_diag, skipn_all. cbn [skipn app].
    rewrite appended_app, appended_results_app. cbn [appended appended_results].
    rewrite !app_nil_r. split; assumption.
Qed.

End DriverStores.

(** X18. Every entry a run appends to the results is a complete record:
    its analysis is a dictionary with the four required fields, and its
    file name is the base name of a file of the work list. *)
Theorem X18_stored_entries_complete
        {RS : Type} (send : RS -> str -> response * RS)
        {conversation : Type} (extract_conversation_data : str -> option conversation)
        (make_prompt : conversation -> str) (cfg : config) (timestamp : str)
        (all_files : list str) (w : world RS) (e : entry) :
  let w' := main send extract_conversation_data make_prompt cfg timestamp all_files w in
  let work := remaining cfg all_files (load_progress (progress_file cfg timestamp) w) in
  In e (appended_results (since w w')) ->
  complete (analysis e) /\ exists f, In f work /\ file_name e = basename f.
Proof.
  cbv zeta. intros H.
  destruct (main_appends RS send conversation extract_conversation_data make_prompt
              cfg timestamp all_files w) as [_ F].
  cbv zeta in F. rewrite Forall_forall in F. exact (F e H).
Qed.

Lemma X18_stored_entries_complete_witness :
  complete (_safe_parse_json Samples.strict_record) /\
  exists f, In f [lit "data/empathy/a.json"] /\ lit "a.json" = basename f.
Proof.
  apply (X18_stored_entries_complete scripted Example.read Example.prompt_of
           Example.cfg Example.stamp Example.corpus
           (start [Content Samples.strict_record])
           (Entry (lit "a.json") (_safe_parse_json Samples.strict_record))).
  vm_compute. left. reflexivity.
Defined.

(** X19. The paths a run appends to the progress log are files of its
    work list, in the order of the work list, which is the order of the
    corpus; with a corpus that lists no file twice, no file is recorded
    twice in a run. *)
Theorem X19_processed_in_corpus_order
        {RS : Type} (send : RS -> str -> response * RS)
        {conversation : Type} (extract_conversation_data : str -> option conversation)
        (make_prompt : conversation -> str) (cfg : config) (timestamp : str)
        (all_files : list str) (w : world RS) :
  let w' := main send extract_conversation_data make_prompt cfg timestamp all_files w in
  let loaded := load_progress (progress_file cfg timestamp) w in
  subseq str (appended (since w w')) (remaining cfg all_files loaded) /\
  subseq str (appended (since w w')) all_files /\
  (forall f, In f (appended (since w w')) -> ~ In f loaded) /\
  (NoDup all_files -> NoDup (appended (since w w'))).
Proof.
  cbv zeta.
  destruct (main_appends RS send conversation extract_conversation_data make_prompt
              cfg timestamp all_files w) as [S _].
  cbv zeta in S.
  pose proof (remaining_subseq cfg all_files
                (load_progress (progress_file cfg timestamp) w)) as R.
  pose proof (subseq_trans _ _ _ R _ S) as T.
  split; [exact S|]. split; [exact T|]. split.
  - intros f Hf. apply (subseq_In _ _ _ _ S) in Hf.
    apply (remaining_spec cfg all_files) in Hf. apply Hf.
  - intros N. exact (subseq_NoDup _ _ _ T N).
Qed.

Lemma X19_processed_in_corpus_order_witness :
  NoDup (appended (since (start [Content Samples.strict_record])
                         (Example.run (start [Content Samples.strict_record])))).
Proof.
  destruct (X19_processed_in_corpus_order scripted Example.read Example.prompt_of
              Example.cfg Example.stamp Example.corpus
              (start [Content Samples.strict_record])) as (_ & _ & _ & H).
  apply H. constructor; [intros [] | constructor].
Defined.

(** ** The matcher and the texts of a pattern *)

Lemma greedy_matches (A : Type) (r : regex)
      (body : option N -> str -> caps -> cont A -> option A) (k : cont A) :
  (forall prev s c (k' : cont A) a,
      body prev s c k' = Some a ->
      exists p s' prev' c',
        s = p ++ s' /\ matches r p /\ (group_free r = true -> c' = c) /\
        k' prev' s' c' = Some a) ->
  forall n prev s c a,
    greedy body k n prev s c = Some a ->
    exists p s' prev' c',
      s = p ++ s' /\ matches (Star r) p /\ (group_free r = true -> c' = c) /\
      k prev' s' c' = Some a.
Proof.
  intros Hb. induction n as [|n IH]; intros prev s c a H.
  - exists [], s, prev, c. repeat split; [constructor | exact H].
  - cbn [greedy] in H.
    destruct (body prev s c
                (fun prev' s' c' =>
                   if Nat.ltb (length s') (length s)
                   then greedy body k n prev' s' c' else None))
      as [a'|] eqn:E.
    + injection H as ->. apply Hb in E.
      destruct E as (p & s' & prev' & c' & -> & M & Hc & E). cbv beta in E.
      destruct (Nat.ltb _ _); [|discriminate].
      apply IH in E. destruct E as (p2 & s2 & prev2 & c2 & -> & M2 & Hc2 & E).
      exists (p ++ p2), s2, prev2, c2.
      split; [apply app_assoc|]. split; [constructor; assumption|].
      split; [|exact E]. intros G. rewrite (Hc2 G). exact (Hc G).
    + exists [], s, prev, c. repeat split; [constructor | exact H].
Qed.

Lemma lazy_matches (A : Type) (r : regex)
      (body : option N -> str -> caps -> cont A -> option A) (k : cont A) :
  (forall prev s c (k' : cont A) a,
      body prev s c k' = Some a ->
      exists p s' prev' c',
        s = p ++ s' /\ matches r p /\ (group_free r = true -> c' = c) /\
        k' prev' s' c' = Some a) ->
  forall n prev s c a,
    lazy body k n prev s c = Some a ->
    exists p s' prev' c',
      s = p ++ s' /\ matches (LazyStar r) p /\ (group_free r = true -> c' = c) /\
      k prev' s' c' = Some a.
Proof.
  intros Hb. induction n as [|n IH]; intros prev s c a H; cbn [lazy] in H.
  - destruct (k prev s c) as [a'|] eqn:E; [|discriminate].
    injection H as ->. exists [], s, prev, c. repeat split; [constructor | exact E].
  - destruct (k prev s c) as [a'|] eqn:E.
    + injection H as ->. exists [], s, prev, c.
      repeat split; [constructor | exact E].
    + apply Hb in H. destruct H as (p & s' & prev' & c' & -> & M & Hc & H).
      cbv beta in H. destruct (Nat.ltb _ _); [|discriminate].
      apply IH in H. destruct H as (p2 & s2 & prev2 & c2 & -> & M2 & Hc2 & H).
      exists (p ++ p2), s2, prev2, c2.
      split; [apply app_assoc|]. split; [constructor; assumption|].
      split; [|exact H]. intros G. rewrite (Hc2 G). exact (Hc G).
Qed.

(** The matcher is sound: what it consumes before it hands over is a
    text of the pattern, and a pattern without group leaves the groups
    as they were. *)
Lemma run_matches (A : Type) (r : regex) :
  forall prev s c (k : cont A) a,
    run r prev s c k = Some a ->
    exists p s' prev' c',
      s = p ++ s' /\ matches r p /\ (group_free r = true -> c' = c) /\
      k prev' s' c' = Some a.
Proof.
  induction r as [|y| | |cs| | |r1 IH1 r2 IH2|r1 IH1 r2 IH2|r IH|r IH|i r IH];
    intros prev s c k a H; cbn [run] in H.
  - exists [], s, prev, c. repeat split; [constructor | exact H].
  - destruct s as [|z s]; [discriminate|].
    destruct (N.eqb_spec z y) as [->|]; [|discriminate].
    exists [y], s, (Some y), c. repeat split; [constructor | exact H].
  - destruct s as [|z s]; [discriminate|].
    exists [z], s, (Some z), c. repeat split; [constructor | exact H].
  - destruct s as [|z s]; [discriminate|].
    destruct (isspace z) eqn:E; [|discriminate].
    exists [z], s, (Some z), c. repeat split; [constructor; exact E | exact H].
  - destruct s as [|z s]; [discriminate|].
    destruct (mem z cs) eqn:E; [discriminate|].
    exists [z], s, (Some z), c. repeat split; [constructor; exact E | exact H].
  - exists [], s, prev, c. repeat split; [constructor|].
    destruct prev as [p|]; [|exact H].
    destruct (N.eqb p LF); [exact H | discriminate].
  - exists [], s, prev, c. repeat split; [constructor|].
    destruct s as [|z t]; [exact H|].
    destruct (N.eqb z LF); [exact H | discriminate].
  - apply IH1 in H. destruct H as (p & s' & prev' & c' & -> & M & Hc & H).
    cbv beta in H.
    apply IH2 in H. destruct H as (p2 & s2 & prev2 & c2 & -> & M2 & Hc2 & H).
    exists (p ++ p2), s2, prev2, c2.
    split; [apply app_assoc|]. split; [constructor; assumption|].
    split; [|exact H]. cbn [group_free]. intros G.
    apply andb_prop in G. destruct G as [G1 G2].
    rewrite (Hc2 G2). exact (Hc G1).
  - destruct (run r1 prev s c k) as [a'|] eqn:E.
    + injection H as ->. apply IH1 in E.
      destruct E as (p & s' & prev' & c' & -> & M & Hc & E).
      exists p, s', prev', c'. split; [reflexivity|].
      split; [apply m_alt_l; exact M|]. split; [|exact E].
      cbn [group_free]. intros G. apply andb_prop in G. apply Hc, G.
    + apply IH2 in H. destruct H as (p & s' & prev' & c' & -> & M & Hc & H).
      exists p, s', prev', c'. split; [reflexivity|].
      split; [apply m_alt_r; exact M|]. split; [|exact H].
      cbn [group_free]. intros G. apply andb_prop in G. apply Hc, G.
  - exact (greedy_matches A r (run (A:=A) r) k IH _ _ _ _ _ H).
  - exact (lazy_matches A r (run (A:=A) r) k IH _ _ _ _ _ H).
  - apply IH in H. destruct H as (p & s' & prev' & c' & -> & M & _ & H).
    cbv beta in H. exists p, s', prev'. eexists.
    split; [reflexivity|]. split; [constructor; exact M|].
    split; [discriminate | exact H].
Qed.

Lemma firstn_consumed (p s' : str) :
  firstn (length (p ++ s') - length s') (p ++ s') = p.
Proof.
  rewrite length_app, Nat.add_sub, firstn_app, Nat.sub_diag, firstn_all.
  cbn [firstn]. apply app_nil_r.
Qed.

(** A group around a pattern without group records what that pattern
    consumed. *)
Lemma run_group_capture (A : Type) (i : nat) (r : regex) (prev : option N)
      (s : str) (c : caps) (k : cont A) (a : A) :
  group_free r = true ->
  run (Group i r) prev s c k = Some a ->
  exists p s' prev',
    s = p ++ s' /\ matches r p /\ k prev' s' ((i, p) :: c) = Some a.
Proof.
  intros G H. cbn [run] in H. apply run_matches in H.
  destruct H as (p & s' & prev' & c' & -> & M & Hc & H). cbv beta in H.
  rewrite (Hc G), firstn_consumed in H.
  exists p, s', prev'. repeat split; assumption.
Qed.

Lemma run_cat_free (A : Type) (r1 r2 : regex) (prev : option N)
      (s : str) (c : caps) (k : cont A) (a : A) :
  group_free r1 = true ->
  run (Cat r1 r2) prev s c k = Some a ->
  exists p s' prev', s = p ++ s' /\ matches r1 p /\ run r2 prev' s' c k = Some a.
Proof.
  intros G H. cbn [run] in H. apply run_matches in H.
  destruct H as (p & s' & prev' & c' & -> & M & Hc & H). cbv beta in H.
  rewrite (Hc G) in H. exists p, s', prev'. repeat split; assumption.
Qed.

Lemma run_cat_group (A : Type) (i : nat) (r r2 : regex) (prev : option N)
      (s : str) (c : caps) (k : cont A) (a : A) :
  group_free r = true ->
  run (Cat (Group i r) r2) prev s c k = Some a ->
  exists p s' prev',
    s = p ++ s' /\ matches r p /\ run r2 prev' s' ((i, p) :: c) k = Some a.
Proof.
  intros G H.
  change (run (Group i r) prev s c (fun prev' s' c' => run r2 prev' s' c' k) = Some a)
    in H.
  apply run_group_capture in H; [|exact G].
  destruct H as (p & s' & prev' & -> & M & H). cbv beta in H.
  exists p, s', prev'. repeat split; assumption.
Qed.

Lemma run_free_accept (r : regex) (prev : option N) (s : str) (c : caps) (h : hit) :
  group_free r = true ->
  run r prev s c (fun prev' s' c' => Some (Hit s' prev' c')) = Some h ->
  groups h = c.
Proof.
  intros G H. apply run_matches in H.
  destruct H as (p & s' & prev' & c' & -> & M & Hc & H).
  injection H as <-. cbn [groups]. exact (Hc G).
Qed.

Lemma group_free_Lits (s : str) : group_free (Lits s) = true.
Proof.
  induction s as [|c s IH]; [reflexivity|].
  destruct s as [|d s]; [reflexivity|].
  change (Lits (c :: d :: s)) with (Cat (Chr c) (Lits (d :: s))).
  cbn [group_free]. exact IH.
Qed.

(** A text of a pattern holds no character the pattern avoids. *)
Lemma matches_avoids (x : N) (r : regex) (p : str) :
  matches r p -> avoids x r = true -> ~ In x p.
Proof.
  induction 1 as [|c|c|c Hc|cs c Hc| | |r1 r2 a b M1 IH1 M2 IH2
                  |r1 r2 a M IH|r1 r2 a M IH
                  |r|r a b M1 IH1 M2 IH2|r|r a b M1 IH1 M2 IH2|i r a M IH];
    cbn [avoids]; intros Ha.
  - intros [].
  - apply negb_true_iff in Ha. intros [E|[]]. subst.
    rewrite N.eqb_refl in Ha. discriminate.
  - discriminate.
  - apply negb_true_iff in Ha. intros [E|[]]. subst.
    rewrite Ha in Hc. discriminate.
  - intros [E|[]]. subst. rewrite Ha in Hc. discriminate.
  - intros [].
  - intros [].
  - apply andb_prop in Ha. destruct Ha as [A1 A2]. intros G.
    apply in_app_or in G. destruct G as [G|G]; [exact (IH1 A1 G) | exact (IH2 A2 G)].
  - apply andb_prop in Ha. apply IH, Ha.
  - apply andb_prop in Ha. apply IH, Ha.
  - intros [].
  - intros G. apply in_app_or in G.
    destruct G as [G|G]; [exact (IH1 Ha G) | exact (IH2 Ha G)].
  - intros [].
  - intros G. apply in_app_or in G.
    destruct G as [G|G]; [exact (IH1 Ha G) | exact (IH2 Ha G)].
  - exact (IH Ha).
Qed.

Lemma search_from_match (r : regex) (s : str) :
  forall prev h,
    search_from r prev s = Some h ->
    exists a b, s = a ++ b /\ match_here r (last_of prev a) b = Some h.
Proof.
  induction s as [|c s IH]; intros prev h H; cbn [search_from] in H.
  - destruct (match_here r prev []) as [h'|] eqn:E; [|discriminate].
    injection H as ->. exists [], []. split; [reflexivity | exact E].
  - destruct (match_here r prev (c :: s)) as [h'|] eqn:E.
    + injection H as ->. exists [], (c :: s). split; [reflexivity | exact E].
    + apply IH in H. destruct H as (a & b & -> & H).
      exists (c :: a), b. split; [reflexivity|]. rewrite last_of_cons. exact H.
Qed.

(** ** The third tier: where a recovered value ends *)

Lemma scalar_field_capture (name : str) (prev : option N) (s : str) (h : hit) :
  match_here (scalar_field name) prev s = Some h ->
  exists g, groups h = [(1, g)] /\ ~ In QUOTE g.
Proof.
  unfold match_here, scalar_field. cbn [Seq]. intros H.
  apply run_cat_free in H; [|reflexivity].
  destruct H as (p1 & s1 & v1 & -> & _ & H).
  apply run_cat_free in H; [|apply group_free_Lits].
  destruct H as (p2 & s2 & v2 & -> & _ & H).
  apply run_cat_free in H; [|reflexivity].
  destruct H as (p3 & s3 & v3 & -> & _ & H).
  apply run_cat_free in H; [|reflexivity].
  destruct H as (p4 & s4 & v4 & -> & _ & H).
  apply run_cat_free in H; [|reflexivity].
  destruct H as (p5 & s5 & v5 & -> & _ & H).
  apply run_cat_free in H; [|reflexivity].
  destruct H as (p6 & s6 & v6 & -> & _ & H).
  apply run_cat_free in H; [|reflexivity].
  destruct H as (p7 & s7 & v7 & -> & _ & H).
  apply run_cat_group in H; [|reflexivity].
  destruct H as (g & s8 & v8 & -> & M & H).
  apply run_free_accept in H; [|reflexivity].
  exists g. split; [exact H|]. apply (matches_avoids QUOTE _ _ M). reflexivity.
Qed.

Lemma quoted_capture (prev : option N) (s : str) (h : hit) :
  match_here QUOTED prev s = Some h ->
  exists g, groups h = [(1, g)] /\ ~ In QUOTE g.
Proof.
  unfold match_here, QUOTED. cbn [Seq]. intros H.
  apply run_cat_free in H; [|reflexivity].
  destruct H as (p1 & s1 & v1 & -> & _ & H).
  apply run_cat_group in H; [|reflexivity].
  destruct H as (g & s8 & v8 & -> & M & H).
  apply run_free_accept in H; [|reflexivity].
  exists g. split; [exact H|]. apply (matches_avoids QUOTE _ _ M). reflexivity.
Qed.

Lemma search_group_scalar (name s g : str) :
  search_group (scalar_field name) s = Some g -> ~ In QUOTE g.
Proof.
  unfold search_group, search.
  destruct (search_from (scalar_field name) None s) as [h|] eqn:E; [|discriminate].
  apply search_from_match in E. destruct E as (a & b & _ & M).
  destruct (scalar_field_capture _ _ _ _ M) as (p & Hg & Hp). rewrite Hg.
  cbn [group Nat.eqb]. intros H; injection H as <-. exact Hp.
Qed.

Lemma findall_quoted (fuel : nat) :
  forall prev s g, In g (findall_from fuel QUOTED prev s) -> ~ In QUOTE g.
Proof.
  induction fuel as [|fuel IH]; intros prev s g H; [contradiction|].
  cbn [findall_from] in H.
  destruct (match_here QUOTED prev s) as [h|] eqn:M.
  - destruct (quoted_capture _ _ _ M) as (p & Hg & Hp).
    rewrite Hg in H. cbn [group Nat.eqb] in H. cbv zeta in H.
    destruct (Nat.ltb _ _).
    + destruct H as [<-|H]; [exact Hp | exact (IH _ _ _ H)].
    + destruct s as [|c s]; destruct H as [<-|H]; try exact Hp;
        [contradiction | exact (IH _ _ _ H)].
  - destruct s as [|c s]; [contradiction | exact (IH _ _ _ H)].
Qed.

(** X20. What the third tier recovers for the category and for the
    description holds no double quote, and neither does any tag it
    recovers: each of these values ends at the first double quote after
    its opening one, whether a backslash stands before it or not. *)
Theorem X20_tier3_values_end_at_quote (json_str : str) :
  let result := tier3_result json_str in
  (forall g, dict_get F_CATEGORY result = Some (JStr g) -> ~ In QUOTE g) /\
  (forall g, dict_get F_DESCRIPTION result = Some (JStr g) -> ~ In QUOTE g) /\
  (forall tags t, dict_get F_TAGS result = Some (JArr tags) -> In t tags ->
                  exists g, t = JStr g /\ ~ In QUOTE g).
Proof.
  cbv zeta.
  destruct (tier3_result_fields json_str) as (H1 & H2 & H3 & _). cbv zeta in *.
  rewrite H1, H2, H3. split; [|split].
  - intros g H.
    destruct (search_group (scalar_field F_CATEGORY) json_str) as [g'|] eqn:E;
      [|discriminate].
    injection H as <-. exact (search_group_scalar _ _ _ E).
  - intros g H.
    destruct (search_group (scalar_field F_DESCRIPTION) json_str) as [g'|] eqn:E;
      [|discriminate].
    injection H as <-. exact (search_group_scalar _ _ _ E).
  - intros tags t H Ht.
    destruct (search_group TAGS_FIELD json_str) as [tags_str|]; [|discriminate].
    injection H as <-. apply in_map_iff in Ht. destruct Ht as (g & <- & Hg).
    exists g. split; [reflexivity|]. unfold findall in Hg.
    exact (findall_quoted _ _ _ _ Hg).
Qed.

Lemma X20_tier3_values_end_at_quote_witness :
  ~ In QUOTE (lit "c").
Proof.
  destruct (X20_tier3_values_end_at_quote Samples.broken_record) as (H & _ & _).
  apply H. vm_compute; reflexivity.
Defined.

(** ** [process_json.py]: the sections kept of a system message *)

Lemma matches_cat (r1 r2 : regex) (p : str) :
  matches (Cat r1 r2) p -> exists a b, p = a ++ b /\ matches r1 a /\ matches r2 b.
Proof.
  intros M. inversion M as [| | | | | | |? ? a b M1 M2| | | | | | |]; subst.
  exists a, b. repeat split; assumption.
Qed.

Lemma matches_chr (c : N) (p : str) : matches (Chr c) p -> p = [c].
Proof. intros M. inversion M; subst. reflexivity. Qed.

Lemma matches_Lits (h : str) : forall p, matches (Lits h) p -> p = h.
Proof.
  induction h as [|c h IH]; intros p M.
  - cbn [Lits] in M. inversion M. reflexivity.
  - destruct h as [|d h].
    + cbn [Lits] in M. apply matches_chr in M. exact M.
    + change (Lits (c :: d :: h)) with (Cat (Chr c) (Lits (d :: h))) in M.
      apply matches_cat in M. destruct M as (a & b & -> & M1 & M2).
      apply matches_chr in M1. subst a. rewrite (IH _ M2). reflexivity.
Qed.

Lemma matches_star_space (p : str) :
  matches (Star Space) p -> Forall (fun c => isspace c = true) p.
Proof.
  intros M. remember (Star Space) as r eqn:E.
  induction M as [|c|c|c Hc|cs c Hc| | |r1 r2 a b M1 IH1 M2 IH2
                  |r1 r2 a M IH|r1 r2 a M IH
                  |r|r a b M1 IH1 M2 IH2|r|r a b M1 IH1 M2 IH2|i r a M IH];
    try discriminate E.
  - constructor.
  - injection E as ->. apply Forall_app. split; [|apply IH2; reflexivity].
    inversion M1; subst. constructor; [assumption | constructor].
Qed.

Lemma section_capture (header : str) (prev : option N) (s : str) (h : hit) :
  match_here (section_pattern header) prev s = Some h ->
  exists g, groups h = [(1, g)] /\ section_text header g.
Proof.
  unfold match_here, section_pattern. intros H.
  apply run_group_capture in H;
    [|cbn [Seq group_free]; rewrite group_free_Lits; reflexivity].
  destruct H as (g & s' & prev' & -> & M & H). injection H as <-.
  exists g. split; [reflexivity|]. cbn [Seq] in M.
  apply matches_cat in M. destruct M as (a1 & b1 & -> & M1 & M).
  apply matches_cat in M. destruct M as (w & b2 & -> & M2 & M).
  apply matches_cat in M. destruct M as (a3 & b3 & -> & M3 & M).
  apply matches_cat in M. destruct M as (body & b4 & -> & M4 & M5).
  apply matches_Lits in M1. apply matches_chr in M3, M5. subst.
  exists w, body. split; [reflexivity|].
  split; [apply matches_star_space; exact M2|].
  apply (matches_avoids RBRACE _ _ M4). reflexivity.
Qed.

Lemma search_group_section (header content g : str) :
  search_group (section_pattern header) content = Some g -> section_text header g.
Proof.
  unfold search_group, search.
  destruct (search_from (section_pattern header) None content) as [h|] eqn:E;
    [|discriminate].
  apply search_from_match in E. destruct E as (a & b & _ & M).
  destruct (section_capture _ _ _ _ M) as (p & Hg & Hp). rewrite Hg.
  cbn [group Nat.eqb]. intros H; injection H as <-. exact Hp.
Qed.

Lemma section_ends (header g : str) (c : N) (h' : str) :
  header = c :: h' -> section_text header g -> exists m, g = c :: m ++ [RBRACE].
Proof.
  intros -> (w & body & -> & _ & _).
  exists (h' ++ w ++ LBRACE :: body). cbn [app]. rewrite <- !app_assoc. reflexivity.
Qed.

Lemma strip_solid (c d : N) (m : str) :
  isspace c = false -> isspace d = false -> strip (c :: m ++ [d]) = c :: m ++ [d].
Proof.
  intros Hc Hd. unfold strip. rewrite (lstrip_head _ _ Hc). unfold rstrip.
  change (c :: m ++ [d]) with ((c :: m) ++ [d]).
  rewrite rev_app_distr. cbn [rev app]. rewrite (lstrip_head _ _ Hd).
  change (d :: rev m ++ [c]) with ([d] ++ rev (c :: m)).
  rewrite rev_app_distr, rev_involutive. reflexivity.
Qed.

Lemma rstrip_snoc_space (a : str) (x : N) :
  isspace x = true -> rstrip (a ++ [x]) = rstrip a.
Proof.
  intros H. unfold rstrip. rewrite rev_app_distr. cbn [rev app lstrip].
  rewrite H. reflexivity.
Qed.

(** X21. What [extract_required_sections] returns: the user section
    alone, the common section alone, both with a line feed between them
    and the user section first whatever their order in the content, or
    the empty string when the content has neither. Each section is the
    header, white space, an opening brace and everything up to the first
    closing brace that follows, a brace of a nested pair included. *)
Theorem X21_sections_kept (content : str) :
  let user := search_group (section_pattern H_USER) content in
  let common := search_group (section_pattern H_COMMON) content in
  (forall g, user = Some g -> section_text H_USER g) /\
  (forall g, common = Some g -> section_text H_COMMON g) /\
  extract_required_sections content
  = match user, common with
    | Some u, Some c => u ++ [LF] ++ c
    | Some u, None => u
    | None, Some c => c
    | None, None => []
    end.
Proof.
  cbv zeta. split; [intros g; apply search_group_section|].
  split; [intros g; apply search_group_section|].
  unfold extract_required_sections.
  destruct (search_group (section_pattern H_USER) content) as [u|] eqn:Eu;
    destruct (search_group (section_pattern H_COMMON) content) as [c|] eqn:Ec;
    cbn [app].
  - apply search_group_section in Eu, Ec.
    destruct (section_ends H_USER u 35 _ eq_refl Eu) as [mu ->].
    destruct (section_ends H_COMMON c 35 _ eq_refl Ec) as [mc ->].
    cbn [app]. rewrite <- !app_assoc. cbn [app].
    rewrite !app_comm_cons, !app_assoc. rewrite <- !app_comm_cons.
    apply strip_solid; reflexivity.
  - apply search_group_section in Eu.
    destruct (section_ends H_USER u 35 _ eq_refl Eu) as [mu ->].
    unfold strip.
    change ((35%N :: mu ++ [RBRACE]) ++ [LF]) with (35%N :: (mu ++ [RBRACE]) ++ [LF]).
    rewrite (lstrip_head 35 _ eq_refl).
    change (35%N :: (mu ++ [RBRACE]) ++ [LF]) with ((35%N :: mu ++ [RBRACE]) ++ [LF]).
    rewrite (rstrip_snoc_space _ LF eq_refl).
    pose proof (strip_solid 35 RBRACE mu eq_refl eq_refl) as S.
    unfold strip in S. rewrite (lstrip_head 35 _ eq_refl) in S. exact S.
  - apply search_group_section in Ec.
    destruct (section_ends H_COMMON c 35 _ eq_refl Ec) as [mc ->].
    apply strip_solid; reflexivity.
  - reflexivity.
Qed.

Lemma X21_sections_kept_witness :
  extract_required_sections
    (H_COMMON ++ lit " {c} x " ++ H_USER ++ [LF] ++ lit "{a {b} } y")
  = H_USER ++ [LF] ++ lit "{a {b}" ++ [LF] ++ H_COMMON ++ lit " {c}".
Proof.
  destruct (X21_sections_kept
              (H_COMMON ++ lit " {c} x " ++ H_USER ++ [LF] ++ lit "{a {b} } y"))
    as (_ & _ & H).
  rewrite H. vm_compute; reflexivity.
Defined.

Lemma dict_get_set_same (k : str) (v : json) (d : dict) :
  dict_get k (dict_set k v d) = Some v.
Proof.
  induction d as [|[k' v'] d IH]; cbn [dict_set dict_get].
  - rewrite str_eqb_refl. reflexivity.
  - destruct (str_eqb k k') eqn:E; cbn [dict_get]; rewrite E; [reflexivity | exact IH].
Qed.

Lemma rewritten_differs (d : dict) (c new : str) :
  get_default (lit "content") (JStr []) d = JStr c ->
  str_eqb new c = false ->
  JObj (dict_set (lit "content") (JStr new) d) <> JObj d.
Proof.
  intros Hg Hn E. injection E as E.
  apply (f_equal (dict_get (lit "content"))) in E.
  rewrite dict_get_set_same in E. unfold get_default in Hg. rewrite <- E in Hg.
  injection Hg as ->. rewrite str_eqb_refl in Hn. discriminate.
Qed.

Lemma rewrite_messages_flag (data : list json) :
  forall m0 data' m,
    rewrite_messages data m0 = Some (data', m) ->
    length data' = length data /\
    (m0 = true -> m = true) /\
    (m = false -> data' = data) /\
    (m0 = false -> m = true -> data' <> data).
Proof.
  induction data as [|message data IH]; intros m0 data' m H.
  - injection H as <- <-. repeat split; auto. intros ->. discriminate.
  - cbn [rewrite_messages] in H. cbv zeta in H.
    assert (Keep : match rewrite_messages data m0 with
                   | Some (rest, modified) => Some (message :: rest, modified)
                   | None => None
                   end = Some (data', m) ->
                   length data' = length (message :: data) /\
                   (m0 = true -> m = true) /\
                   (m = false -> data' = message :: data) /\
                   (m0 = false -> m = true -> data' <> message :: data)).
    { destruct (rewrite_messages data m0) as [[rest m1]|] eqn:E; [|discriminate].
      intros G; injection G as <- <-.
      destruct (IH _ _ _ E) as (I1 & I2 & I3 & I4).
      cbn [length]. rewrite I1. repeat split; try assumption.
      - intros Hm. rewrite (I3 Hm). reflexivity.
      - intros H0 Hm G. injection G as G. exact (I4 H0 Hm G). }
    destruct message as [| | | | | |d]; try exact (Keep H).
    destruct (is_str (lit "system") (get_default (lit "role") JNull d));
      [|exact (Keep H)].
    destruct (get_default (lit "content") (JStr []) d) as [| | | |c| |] eqn:Ec;
      try discriminate H.
    destruct (str_eqb (extract_required_sections c) c) eqn:En; cbn [negb] in H;
      [exact (Keep H)|].
    destruct (rewrite_messages data true) as [[rest m1]|] eqn:E; [|discriminate].
    injection H as <- <-.
    destruct (IH _ _ _ E) as (I1 & I2 & _ & _). specialize (I2 eq_refl). subst m1.
    cbn [length]. rewrite I1. repeat split; try discriminate.
    intros _ _ G. injection G as G _.
    exact (rewritten_differs d c _ Ec En (f_equal JObj G)).
Qed.

Lemma rewrite_messages_each (data : list json) :
  forall m0 data' m,
    rewrite_messages data m0 = Some (data', m) ->
    Forall2 (fun old new =>
               new = old \/
               exists d c,
                 old = JObj d /\
                 get_default (lit "role") JNull d = JStr (lit "system") /\
                 get_default (lit "content") (JStr []) d = JStr c /\
                 new = JObj (dict_set (lit "content")
                                      (JStr (extract_required_sections c)) d))
            data data'.
Proof.
  induction data as [|message data IH]; intros m0 data' m H.
  - injection H as <- <-. constructor.
  - cbn [rewrite_messages] in H. cbv zeta in H.
    assert (Keep : match rewrite_messages data m0 with
                   | Some (rest, modified) => Some (message :: rest, modified)
                   | None => None
                   end = Some (data', m) ->
                   exists rest, data' = message :: rest /\
                                exists m1, rewrite_messages data m0 = Some (rest, m1)).
    { destruct (rewrite_messages data m0) as [[rest m1]|]; [|discriminate].
      intros G; injection G as <- <-. exists rest. split; [reflexivity|].
      exists m1. reflexivity. }
    assert (Kept : match rewrite_messages data m0 with
                   | Some (rest, modified) => Some (message :: rest, modified)
                   | None => None
                   end = Some (data', m) ->
                   Forall2 (fun old new =>
                              new = old \/
                              exists d c,
                                old = JObj d /\
                                get_default (lit "role") JNull d = JStr (lit "system") /\
                                get_default (lit "content") (JStr []) d = JStr c /\
                                new = JObj (dict_set (lit "content")
                                              (JStr (extract_required_sections c)) d))
                           (message :: data) data').
    { intros G. destruct (Keep G) as (rest & -> & m1 & E).
      constructor; [left; reflexivity | exact (IH _ _ _ E)]. }
    destruct message as [| | | | | |d]; try exact (Kept H).
    destruct (is_str (lit "system") (get_default (lit "role") JNull d)) eqn:Er;
      [|exact (Kept H)].
    destruct (get_default (lit "content") (JStr []) d) as [| | | |c| |] eqn:Ec;
      try discriminate H.
    destruct (str_eqb (extract_required_sections c) c); cbn [negb] in H;
      [exact (Kept H)|].
    destruct (rewrite_messages data true) as [[rest m1]|] eqn:E; [|discriminate].
    injection H as <- <-. constructor; [|exact (IH _ _ _ E)].
    right. exists d, c. repeat split; [apply is_str_eq; exact Er | exact Ec].
Qed.

(** X22. The loop of [process_json_file] keeps the list's length and
    every element that is no system message; a system message is kept
    as it is or has its content replaced by the sections extracted from
    it; and the flag [modified] is set exactly when the list has
    changed, so the file is written again only then. *)
Theorem X22_modified_iff_changed (data data' : list json) (modified : bool) :
  rewrite_messages data false = Some (data', modified) ->
  length data' = length data /\
  (modified = true <-> data' <> data) /\
  Forall2 (fun old new =>
             new = old \/
             exists d c,
               old = JObj d /\
               get_default (lit "role") JNull d = JStr (lit "system") /\
               get_default (lit "content") (JStr []) d = JStr c /\
               new = JObj (dict_set (lit "content")
                                    (JStr (extract_required_sections c)) d))
          data data'.
Proof.
  intros H. destruct (rewrite_messages_flag _ _ _ _ H) as (L & _ & K & C).
  split; [exact L|]. split; [|exact (rewrite_messages_each _ _ _ _ H)].
  split; [exact (C eq_refl)|].
  intros D. destruct modified; [reflexivity|]. exfalso. exact (D (K eq_refl)).
Qed.

Lemma X22_modified_iff_changed_witness :
  length [JObj [(lit "role", JStr (lit "system")); (lit "content", JStr [])];
          JObj [(lit "role", JStr (lit "user")); (lit "content", JStr (lit "hi"))]]
  = 2.
Proof.
  destruct (X22_modified_iff_changed
              [JObj [(lit "role", JStr (lit "system"));
                     (lit "content", JStr (lit "You are kind."))];
               JObj [(lit "role", JStr (lit "user")); (lit "content", JStr (lit "hi"))]]
              [JObj [(lit "role", JStr (lit "system")); (lit "content", JStr [])];
               JObj [(lit "role", JStr (lit "user")); (lit "content", JStr (lit "hi"))]]
              true) as (H & _).
  - vm_compute; reflexivity.
  - exact H.
Defined.
